(** * HeapPQueue: the binary-heap priority queue of Assignment 6

    A shallow embedding of [Assignment 6/code/HeapPQueue.h] (class
    declaration and member functions) and of its caller [combine] in
    [Assignment 6/code/Demos/NPSGUI.cpp], with the properties of the
    specification and further properties of the member functions.

    Modelling conventions.
    - A C++ [int] is a [Z] that has to stay inside [INT_MIN, INT_MAX];
      signed overflow and an out-of-range conversion from [double] are
      undefined behaviour in C++, which the model reports as the outcome
      [Undefined].
    - The two [double] fields only ever hold 2.0 and 0.25 (a theorem
      below); products and quotients of these with an [int]
      are exact in binary64, so they are computed in [Q].
    - The buffer [DataPoint* heap] is a list of slots whose length is the
      allocated length; a slot that was never assigned is [None].  An
      access outside the allocation, or a read of a slot that was never
      assigned, is [Undefined].
    - [error(msg)] throws; the model returns [Throw msg] and the object
      keeps the state it had when the exception left the member function.
    - Allocation of a non-negative number of slots always succeeds
      (memory exhaustion is not modelled).
    - Every buffer access and every allocation is recorded in an event
      log, so that what a call touches can be stated.
    - What [printDebugInfo] sends to [std::cout] is collected in the
      value the model of the function returns. *)

From Stdlib Require Import ZArith QArith Lia Sorted.
From stdpp Require Import base list list_numbers strings pretty.

Close Scope Q_scope.
Open Scope Z_scope.

(** ** Data *)

(** Modelled from the spec: [Demos/DataPoint.h] is not among the sources;
    section 3 of the specification describes the element as a pair of a
    name (string) and an integer weight, and the tests build it as
    [{ "elem", i }]. *)
Record DataPoint := { name : string; weight : Z }.

Record HeapPQueue := {
  currentSize : Z;
  capacity : Z;
  heap : list (option DataPoint);
  growFactor : Q;
  shrinkThreshold : Q
}.

Definition INITIAL_CAPACITY : Z := 100.
Definition INT_MIN : Z := -2147483648.
Definition INT_MAX : Z := 2147483647.

Definition msg_peek : string := "Must not peek from an empty HeapPQueue".
Definition msg_dequeue : string := "Must not dequeue from an empty HeapPQueue".
Definition msg_resize : string :=
  "New capacity must be greater than or equal to the current size.".
Definition msg_new : string := "std::bad_array_new_length".

(** The error names of the specification (section 7). *)
Definition EmptyQueueError (msg : string) : Prop :=
  msg = msg_peek ∨ msg = msg_dequeue.
Definition InvalidResizeError (msg : string) : Prop := msg = msg_resize.

(** ** Effects *)

Inductive outcome (A : Type) : Type :=
  | Done (a : A)
  | Throw (msg : string)
  | Undefined
  | OutOfFuel.
Arguments Done {A} a.
Arguments Throw {A} msg.
Arguments Undefined {A}.
Arguments OutOfFuel {A}.

Inductive event : Type :=
  | Read (i : Z)     (* heap[i] read *)
  | Write (i : Z)    (* heap[i] assigned *)
  | Alloc (n : Z)    (* new DataPoint[n] *)
  | Init (i : Z)     (* newHeap[i] assigned *)
  | Free.            (* delete[] heap *)

Record Run (A : Type) : Type := MkRun {
  result : outcome A;
  after : HeapPQueue;
  events : list event
}.
Arguments MkRun {A} result after events.
Arguments result {A} r.
Arguments after {A} r.
Arguments events {A} r.

Definition M (A : Type) : Type := HeapPQueue → Run A.

Definition ret {A} (a : A) : M A := λ s, MkRun (Done a) s [].
Definition throw {A} (msg : string) : M A := λ s, MkRun (Throw msg) s [].
Definition undefined {A} : M A := λ s, MkRun Undefined s [].
Definition out_of_fuel {A} : M A := λ s, MkRun OutOfFuel s [].

Definition bind {A B} (m : M A) (k : A → M B) : M B := λ s,
  let r := m s in
  match result r with
  | Done a =>
      let r' := k a (after r) in
      MkRun (result r') (after r') (events r ++ events r')
  | Throw msg => MkRun (Throw msg) (after r) (events r)
  | Undefined => MkRun Undefined (after r) (events r)
  | OutOfFuel => MkRun OutOfFuel (after r) (events r)
  end.

Notation "'let/m' x := m 'in' k" := (bind m (λ x, k))
  (at level 10, x name, m at level 100, k at level 200,
   format "'[v' 'let/m'  x  :=  m  'in' '/' k ']'").
Notation "m ;;; k" := (bind m (λ _, k))
  (at level 100, k at level 200, right associativity,
   format "'[v' m  ;;; '/' k ']'").

Definition emit (e : event) : M unit := λ s, MkRun (Done tt) s [e].
Definition get {A} (field : HeapPQueue → A) : M A := λ s, MkRun (Done (field s)) s [].

(** Assignments to the fields of the object. *)
Definition with_currentSize (n : Z) (s : HeapPQueue) : HeapPQueue :=
  {| currentSize := n; capacity := capacity s; heap := heap s;
     growFactor := growFactor s; shrinkThreshold := shrinkThreshold s |}.
Definition with_capacity (c : Z) (s : HeapPQueue) : HeapPQueue :=
  {| currentSize := currentSize s; capacity := c; heap := heap s;
     growFactor := growFactor s; shrinkThreshold := shrinkThreshold s |}.
Definition with_heap (h : list (option DataPoint)) (s : HeapPQueue) : HeapPQueue :=
  {| currentSize := currentSize s; capacity := capacity s; heap := h;
     growFactor := growFactor s; shrinkThreshold := shrinkThreshold s |}.

Definition set_currentSize (n : Z) : M unit := λ s,
  MkRun (Done tt) (with_currentSize n s) [].
Definition set_capacity (c : Z) : M unit := λ s,
  MkRun (Done tt) (with_capacity c s) [].
Definition set_heap (h : list (option DataPoint)) : M unit := λ s,
  MkRun (Done tt) (with_heap h s) [].

(** *** [int] and [double] arithmetic *)

Definition in_int (z : Z) : bool := (INT_MIN <=? z) && (z <=? INT_MAX).

(** The value of an [int] expression whose mathematical value is [z]. *)
Definition int_ (z : Z) : M Z := if in_int z then ret z else undefined.

(** Truncation toward zero, as a conversion from [double] does. *)
Definition Qtrunc (q : Q) : Z := Qnum q ÷ Z.pos (Qden q).

(** [static_cast<int>(q)] *)
Definition static_cast_int (q : Q) : M Z := int_ (Qtrunc q).

(** [x < y] on [double] *)
Definition Qltb (x y : Q) : bool := negb (Qle_bool y x).

(** *** The buffer *)

(** The content of slot [i] of buffer [h], if [i] is inside the allocation
    and the slot has been assigned. *)
Definition cell (h : list (option DataPoint)) (i : Z) : option DataPoint :=
  if 0 <=? i then mjoin (h !! Z.to_nat i) else None.

Definition in_bounds (h : list (option DataPoint)) (i : Z) : bool :=
  (0 <=? i) && (i <? Z.of_nat (length h)).

(** [heap[i]] read *)
Definition load (i : Z) : M DataPoint := λ s,
  match cell (heap s) i with
  | Some d => MkRun (Done d) s [Read i]
  | None => MkRun Undefined s []
  end.

(** [heap[i] = d] *)
Definition store (i : Z) (d : DataPoint) : M unit := λ s,
  if in_bounds (heap s) i then
    MkRun (Done tt) (with_heap (<[Z.to_nat i := Some d]> (heap s)) s) [Write i]
  else MkRun Undefined s [].

(** [swap(heap[i], heap[j])] *)
Definition swap (i j : Z) : M unit :=
  let/m a := load i in
  let/m b := load j in
  store i b ;;;
  store j a.

(** [new DataPoint[n]]; a negative length throws
    [std::bad_array_new_length]. *)
Definition new_array (n : Z) : M (list (option DataPoint)) :=
  if n <? 0 then throw msg_new
  else emit (Alloc n) ;;; ret (replicate (Z.to_nat n) None).

(** ** The member functions *)

(** The constructor: [currentSize(0), capacity(INITIAL_CAPACITY),
    heap(new DataPoint[INITIAL_CAPACITY]), growFactor(2.0),
    shrinkThreshold(0.25)]. *)
Definition HeapPQueue_new : HeapPQueue :=
  {| currentSize := 0;
     capacity := INITIAL_CAPACITY;
     heap := replicate (Z.to_nat INITIAL_CAPACITY) None;
     growFactor := 2 # 1;
     shrinkThreshold := 1 # 4 |}.

Definition parent (index : Z) : M Z :=
  let/m x := int_ (index - 1) in
  ret (x ÷ 2).

Definition leftChild (index : Z) : M Z :=
  let/m x := int_ (2 * index) in
  int_ (x + 1).

Definition rightChild (index : Z) : M Z :=
  let/m x := int_ (2 * index) in
  int_ (x + 2).

Definition size : M Z := get currentSize.

Definition isEmpty : M bool :=
  let/m n := get currentSize in
  ret (n =? 0).

(** The loop of [bubbleUp]; every iteration moves [index] to its parent,
    so [index + 1] iterations are enough. *)
Fixpoint bubbleUp_loop (fuel : nat) (index : Z) : M unit :=
  match fuel with
  | O => out_of_fuel
  | S fuel' =>
      if index >? 0 then
        let/m a := load index in
        let/m p := parent index in
        let/m b := load p in
        if weight a <? weight b then
          let/m p := parent index in
          swap index p ;;;
          let/m p := parent index in
          bubbleUp_loop fuel' p
        else ret tt
      else ret tt
  end.

Definition bubbleUp (index : Z) : M unit :=
  bubbleUp_loop (S (Z.to_nat index)) index.

(** The copy loop of [resize]: [newHeap[i] = heap[i]] for the indices in
    [idx]. *)
Fixpoint copy_loop (idx : list Z) (newHeap : list (option DataPoint))
  : M (list (option DataPoint)) :=
  match idx with
  | [] => ret newHeap
  | i :: rest =>
      let/m d := load i in
      if in_bounds newHeap i then
        emit (Init i) ;;;
        copy_loop rest (<[Z.to_nat i := Some d]> newHeap)
      else undefined
  end.

Definition resize (newCapacity : Z) : M unit :=
  let/m n := get currentSize in
  (if newCapacity <? n then throw msg_resize else ret tt) ;;;
  let/m newHeap := new_array newCapacity in
  let/m n := get currentSize in
  let/m newHeap := copy_loop (seqZ 0 n) newHeap in
  emit Free ;;;
  set_heap newHeap ;;;
  set_capacity newCapacity.

Definition enqueue (data : DataPoint) : M unit :=
  let/m n := size in
  let/m c := get capacity in
  (if n =? c then
     let/m g := get growFactor in
     let/m k := static_cast_int (inject_Z c * g)%Q in
     resize k
   else ret tt) ;;;
  let/m n := get currentSize in
  store n data ;;;
  let/m n' := int_ (n + 1) in
  set_currentSize n' ;;;
  let/m n := get currentSize in
  let/m i := int_ (n - 1) in
  bubbleUp i.

Definition peek : M DataPoint :=
  let/m e := isEmpty in
  (if e then throw msg_peek else ret tt) ;;;
  load 0.

(** The loop of [bubbleDown]; every iteration that continues moves [index]
    to one of its children, which lies below [size]. *)
Fixpoint bubbleDown_loop (fuel : nat) (size : Z) (index : Z) : M unit :=
  match fuel with
  | O => out_of_fuel
  | S fuel' =>
      let/m left := leftChild index in
      let/m right := rightChild index in
      let smallest := index in
      let/m smallest :=
        (if left <? size then
           let/m a := load left in
           let/m b := load smallest in
           ret (if weight a <? weight b then left else smallest)
         else ret smallest) in
      let/m smallest :=
        (if right <? size then
           let/m a := load right in
           let/m b := load smallest in
           ret (if weight a <? weight b then right else smallest)
         else ret smallest) in
      if negb (smallest =? index) then
        swap index smallest ;;;
        bubbleDown_loop fuel' size smallest
      else ret tt
  end.

Definition bubbleDown (index : Z) : M unit :=
  let/m size := get currentSize in
  bubbleDown_loop (S (Z.to_nat size)) size index.

Definition dequeue : M DataPoint :=
  let/m e := isEmpty in
  (if e then throw msg_dequeue else ret tt) ;;;
  let/m root := load 0 in
  let/m n := get currentSize in
  let/m i := int_ (n - 1) in
  let/m last := load i in
  store 0 last ;;;
  let/m n := get currentSize in
  let/m n' := int_ (n - 1) in
  set_currentSize n' ;;;
  bubbleDown 0 ;;;
  let/m n := size in
  let/m t := get shrinkThreshold in
  let/m c := get capacity in
  (if Qltb (inject_Z n) (t * inject_Z c)%Q then
     let/m c := get capacity in
     let/m g := get growFactor in
     let/m k := static_cast_int (inject_Z c / g)%Q in
     resize (Z.max INITIAL_CAPACITY k)
   else ret tt) ;;;
  ret root.

(** The loop of the tests that empties a queue:
    [while (!pq.isEmpty()) remainingElements.add(pq.dequeue());] *)
Fixpoint drain_loop (fuel : nat) : M (list DataPoint) :=
  match fuel with
  | O => out_of_fuel
  | S fuel' =>
      let/m e := isEmpty in
      if negb e then
        let/m d := dequeue in
        let/m ds := drain_loop fuel' in
        ret (d :: ds)
      else ret []
  end.

Definition drain : M (list DataPoint) :=
  let/m n := size in
  drain_loop (S (Z.to_nat n)).

(** The loop of the tests that fills a queue:
    [for (DataPoint elem: sequence) pq.enqueue(elem);] *)
Fixpoint enqueue_all (sequence : list DataPoint) : M unit :=
  match sequence with
  | [] => ret tt
  | elem :: rest => enqueue elem ;;; enqueue_all rest
  end.

(** ** The public interface as calls *)

Inductive call : Type :=
  | Enqueue (data : DataPoint)
  | Dequeue
  | Peek
  | Size
  | IsEmpty.

Inductive reply : Type :=
  | Void
  | Point (d : DataPoint)
  | Int (z : Z)
  | Bool (b : bool).

Definition invoke (c : call) : M reply :=
  match c with
  | Enqueue data => enqueue data ;;; ret Void
  | Dequeue => let/m d := dequeue in ret (Point d)
  | Peek => let/m d := peek in ret (Point d)
  | Size => let/m n := size in ret (Int n)
  | IsEmpty => let/m b := isEmpty in ret (Bool b)
  end.

(** A call completes when it returns or throws; an exception is caught by
    the caller (as [EXPECT_ERROR] does) and the object lives on. *)
Definition completes {A} (o : outcome A) : bool :=
  match o with
  | Done _ | Throw _ => true
  | Undefined | OutOfFuel => false
  end.

(** The states a queue can be in: those the constructor and completed
    calls of the public member functions lead to. *)
Inductive reachable : HeapPQueue → Prop :=
  | reachable_new : reachable HeapPQueue_new
  | reachable_call s c :
      reachable s →
      completes (result (invoke c s)) = true →
      reachable (after (invoke c s)).

(** Counters of the calls that returned. *)
Record tally := { enqueued : Z; dequeued : Z }.

Definition count (c : call) (t : tally) : tally :=
  match c with
  | Enqueue _ => {| enqueued := enqueued t + 1; dequeued := dequeued t |}
  | Dequeue => {| enqueued := enqueued t; dequeued := dequeued t + 1 |}
  | _ => t
  end.

(** Runs a sequence of calls on [s]; a call that throws is not counted.
    [None] when a call has no defined behaviour. *)
Fixpoint run_calls (cs : list call) (s : HeapPQueue) (t : tally)
  : option (HeapPQueue * tally) :=
  match cs with
  | [] => Some (s, t)
  | c :: cs' =>
      let r := invoke c s in
      match result r with
      | Done _ => run_calls cs' (after r) (count c t)
      | Throw _ => run_calls cs' (after r) t
      | _ => None
      end
  end.

(** ** Predicates on the buffer *)

(** The parent index, for a positive index. *)
Definition par (i : Z) : Z := (i - 1) / 2.

(** The weight stored in slot [i]. *)
Definition wt (h : list (option DataPoint)) (i : Z) : Z :=
  match cell h i with
  | Some d => weight d
  | None => 0
  end.

(** The first [n] slots have been assigned. *)
Definition initialised (h : list (option DataPoint)) (n : Z) : Prop :=
  ∀ i, 0 ≤ i < n → is_Some (cell h i).

(** The min-heap property of a weight function on the indices below [n]. *)
Definition ordered (w : Z → Z) (n : Z) : Prop :=
  ∀ i, 1 ≤ i < n → w (par i) ≤ w i.

(** The elements in the first [n] slots. *)
Definition contents (h : list (option DataPoint)) (n : Z) : list DataPoint :=
  omap id (take (Z.to_nat n) h).

Definition live (s : HeapPQueue) : list DataPoint :=
  contents (heap s) (currentSize s).

(** The min-heap property as the specification states it: for every index
    [i] with [1 <= i < currentSize], [heap[(i-1)/2].weight <= heap[i].weight]. *)
Definition heap_property (s : HeapPQueue) : Prop :=
  ∀ i, 1 ≤ i < currentSize s →
    ∃ a b, cell (heap s) ((i - 1) ÷ 2) = Some a ∧ cell (heap s) i = Some b ∧
           weight a ≤ weight b.

(** The largest capacity that doubling from [INITIAL_CAPACITY] reaches
    inside [int]: 100 * 2^24. *)
Definition MAX_CAPACITY : Z := 1677721600.

Definition capacity_form (c : Z) : Prop :=
  ∃ k, 0 ≤ k ≤ 24 ∧ c = INITIAL_CAPACITY * 2 ^ k.

(** The class invariant. *)
Record Inv (s : HeapPQueue) : Prop := {
  inv_size : 0 ≤ currentSize s ≤ capacity s;
  inv_len : Z.of_nat (length (heap s)) = capacity s;
  inv_cap : capacity_form (capacity s);
  inv_grow : growFactor s = (2 # 1)%Q;
  inv_shrink : shrinkThreshold s = (1 # 4)%Q;
  inv_init : initialised (heap s) (currentSize s);
  inv_ord : ordered (wt (heap s)) (currentSize s)
}.

(** ** Definitions used by the statements and proofs *)

(** The weights after the slots [a] and [b] have been exchanged. *)
Definition swap_fn (w : Z → Z) (a b : Z) : Z → Z :=
  λ x, if decide (x = a) then w b else if decide (x = b) then w a else w x.

(** Heap order everywhere except between [k] and its parent. *)
Definition up_inv (w : Z → Z) (n k : Z) : Prop :=
  (∀ i, 1 ≤ i < n → i ≠ k → w (par i) ≤ w i) ∧
  (1 ≤ k → ∀ i, 1 ≤ i < n → par i = k → w (par k) ≤ w i).

(** Heap order everywhere except between [k] and its children. *)
Definition down_inv (w : Z → Z) (n k : Z) : Prop :=
  (∀ i, 1 ≤ i < n → par i ≠ k → w (par i) ≤ w i) ∧
  (1 ≤ k → ∀ i, 1 ≤ i < n → par i = k → w (par k) ≤ w i).

(** The index [bubbleDown] selects among [k] and its children. *)
Definition smallest_of (w : Z → Z) (n k : Z) : Z :=
  let s1 := if (2 * k + 1 <? n) && (w (2 * k + 1) <? w k) then 2 * k + 1 else k in
  if (2 * k + 2 <? n) && (w (2 * k + 2) <? w s1) then 2 * k + 2 else s1.

(** [h'] holds in its first [n] slots the values of the first [n] slots of
    [h], in some order. *)
Definition rearranged (n : Z) (h h' : list (option DataPoint)) : Prop :=
  length h' = length h ∧ take (Z.to_nat n) h' ≡ₚ take (Z.to_nat n) h.

(** [m] leaves [growFactor] and [shrinkThreshold] as they are, whatever
    its outcome. *)
Definition keeps_factors {A} (m : M A) : Prop :=
  ∀ s, growFactor (after (m s)) = growFactor s ∧
       shrinkThreshold (after (m s)) = shrinkThreshold s.

(** The change of [currentSize] by a call that returns. *)
Definition delta (c : call) : Z :=
  match c with
  | Enqueue _ => 1
  | Dequeue => -1
  | _ => 0
  end.

Definition blank : DataPoint := {| name := ""; weight := 0 |}.

Definition heavy : DataPoint := {| name := ""; weight := 1 |}.

(** [{ "elem" + to_string(i), i }] *)
Definition elem (i : Z) : DataPoint :=
  {| name := "elem" +:+ pretty i; weight := i |}.

(** [for (int i = 0; i < n; i++) pq.dequeue();], keeping what was removed. *)
Fixpoint dequeue_n (n : nat) : M (list DataPoint) :=
  match n with
  | O => ret []
  | S n' =>
      let/m d := dequeue in
      let/m ds := dequeue_n n' in
      ret (d :: ds)
  end.

(** The reallocations in an event log, each as (capacity before, capacity
    after), for a queue whose capacity was [c] when the log started. *)
Fixpoint reallocations (c : Z) (evs : list event) : list (Z * Z) :=
  match evs with
  | [] => []
  | Alloc n :: evs' => (c, n) :: reallocations n evs'
  | _ :: evs' => reallocations c evs'
  end.

Definition grows (rs : list (Z * Z)) : list (Z * Z) :=
  filter (λ r, r.1 < r.2) rs.

Definition shrinks (rs : list (Z * Z)) : list (Z * Z) :=
  filter (λ r, r.2 < r.1) rs.

Definition scenario_filled : Run unit :=
  enqueue_all (elem <$> seqZ 0 120) HeapPQueue_new.

Definition scenario_removed : Run (list DataPoint) :=
  dequeue_n 100 (after scenario_filled).

Definition scenario_refilled : Run unit :=
  enqueue_all (elem <$> seqZ 120 30) (after scenario_removed).

Definition scenario_drained : Run (list DataPoint) :=
  drain (after scenario_refilled).

(** The sequence of the test "Insert random permutation". *)
Definition sample_sequence : list DataPoint :=
  [ {| name := "A"; weight := 0 |}; {| name := "D"; weight := 3 |};
    {| name := "F"; weight := 5 |}; {| name := "G"; weight := 6 |};
    {| name := "C"; weight := 2 |}; {| name := "H"; weight := 7 |};
    {| name := "I"; weight := 8 |}; {| name := "B"; weight := 1 |};
    {| name := "E"; weight := 4 |}; {| name := "J"; weight := 9 |} ].

(** A queue after three enqueues and one dequeue. *)
Definition sample_queue : HeapPQueue :=
  after (invoke Dequeue
    (after (invoke (Enqueue {| name := "b"; weight := 2 |})
      (after (invoke (Enqueue {| name := "a"; weight := 1 |})
        (after (invoke (Enqueue {| name := "c"; weight := 3 |})
          HeapPQueue_new))))))).

(** Calls on a fresh queue, among them a [dequeue] and a [peek] on the
    empty queue, which throw. *)
Definition sample_calls : list call :=
  [ Dequeue; Enqueue {| name := "c"; weight := 3 |}; Size;
    Enqueue {| name := "a"; weight := 1 |}; Peek; Dequeue; IsEmpty;
    Dequeue; Peek; Enqueue {| name := "b"; weight := 2 |} ].

(** ** The rest of the class and a caller *)

(** *** Constructor and destructor *)

(** The constructor as a run: its initialiser list allocates the first
    buffer with [new DataPoint[INITIAL_CAPACITY]]. *)
Definition construct : Run unit :=
  MkRun (Done tt) HeapPQueue_new [Alloc INITIAL_CAPACITY].

(** The destructor: [delete[] heap; heap = nullptr;], the null pointer as
    the buffer without slots. *)
Definition destroy : M unit :=
  emit Free ;;;
  set_heap [].

(** *** [printDebugInfo] *)

(** What [printDebugInfo] sends to [std::cout]: string literals, elements
    of the buffer ([cout << heap[i]]) and [std::endl]. *)
Inductive token : Type :=
  | Text (t : string)
  | Item (d : DataPoint)
  | Endl.

(** [a << b] on [int].  The shift count must lie in 0..31.  A value that
    does not fit [int] is undefined before C++20; from C++20 on [1 << 31]
    is [INT_MIN], but then the [- 1] that [printDebugInfo] applies to it
    overflows, so the model reports [Undefined] at the shift already. *)
Definition shift_left (a b : Z) : M Z :=
  if (0 <=? b) && (b <? 32) then int_ (Z.shiftl a b) else undefined.

(** The loop of [printDebugInfo]; the output is collected in the value.
    Every iteration increments [i], so [currentSize + 1] iterations are
    enough. *)
Fixpoint printDebugInfo_loop (fuel : nat) (i level : Z) : M (list token) :=
  match fuel with
  | O => out_of_fuel
  | S fuel' =>
      let/m n := get currentSize in
      if i <? n then
        let/m p := shift_left 1 level in
        let/m q := int_ (p - 1) in
        let/m br :=
          (if i =? q then
             let out := if level >? 0 then [Endl] else [] in
             let/m level' := int_ (level + 1) in
             ret (out, level')
           else ret ([], level)) in
        let/m d := load i in
        let/m i' := int_ (i + 1) in
        let/m rest := printDebugInfo_loop fuel' i' br.2 in
        ret (br.1 ++ [Item d; Text " "] ++ rest)
      else ret []
  end.

Definition printDebugInfo : M (list token) :=
  let level := 0 in
  let/m n := get currentSize in
  let/m body := printDebugInfo_loop (S (Z.to_nat n)) 0 level in
  ret ([Text "Heap contents (tree view):"; Endl] ++ body ++ [Endl]).

(** *** [combine] *)

(** The loops of [combine] in [Demos/NPSGUI.cpp]:
    [for (const auto& seq: dataPoints) for (const auto& point: seq) pq.enqueue(point);] *)
Fixpoint enqueue_seqs (dataPoints : list (list DataPoint)) : M unit :=
  match dataPoints with
  | [] => ret tt
  | seq :: rest => enqueue_all seq ;;; enqueue_seqs rest
  end.

(** [combine] of [Demos/NPSGUI.cpp]: every point goes into a fresh queue,
    and the result collects what [dequeue] returns until the queue is
    empty. *)
Definition combine (dataPoints : list (list DataPoint)) : Run (list DataPoint) :=
  (enqueue_seqs dataPoints ;;; drain) HeapPQueue_new.

(** *** [enqueue] and [dequeue] around their calls of [resize] *)

(** [enqueue] after its test for a full buffer:
    [heap[currentSize] = data; currentSize += 1; bubbleUp(currentSize - 1);] *)
Definition enqueue_insert (data : DataPoint) : M unit :=
  let/m n := get currentSize in
  store n data ;;;
  let/m n' := int_ (n + 1) in
  set_currentSize n' ;;;
  let/m n := get currentSize in
  let/m i := int_ (n - 1) in
  bubbleUp i.

(** [dequeue] up to its test for a sparse buffer: the emptiness check, the
    removal of the root and [bubbleDown(0)]; its value is [root]. *)
Definition dequeue_remove : M DataPoint :=
  let/m e := isEmpty in
  (if e then throw msg_dequeue else ret tt) ;;;
  let/m root := load 0 in
  let/m n := get currentSize in
  let/m i := int_ (n - 1) in
  let/m last := load i in
  store 0 last ;;;
  let/m n := get currentSize in
  let/m n' := int_ (n - 1) in
  set_currentSize n' ;;;
  bubbleDown 0 ;;;
  ret root.

(** ** Event logs *)

(** The sizes of the [new DataPoint[n]] in an event log, in order. *)
Definition allocations (evs : list event) : list Z :=
  omap (λ e, match e with Alloc n => Some n | _ => None end) evs.

(** The number of [delete[]] in an event log. *)
Definition frees (evs : list event) : nat :=
  length (omap (λ e, match e with Free => Some tt | _ => None end) evs).

(** The number of assignments [heap[i] = ...] to slots of the queue's
    buffer in an event log; the copies of [resize] into the buffer it has
    just allocated are [Init] events and not counted here. *)
Fixpoint writes (evs : list event) : Z :=
  match evs with
  | [] => 0
  | Write _ :: evs' => 1 + writes evs'
  | _ :: evs' => writes evs'
  end.

(** The number of buffers alive after the events [evs], from [n] alive
    before them; [None] when a [delete[]] finds none alive. *)
Fixpoint buffers (n : nat) (evs : list event) : option nat :=
  match evs with
  | [] => Some n
  | Alloc _ :: evs' => buffers (S n) evs'
  | Free :: evs' =>
      match n with
      | O => None
      | S n' => buffers n' evs'
      end
  | _ :: evs' => buffers n evs'
  end.

(** Runs a sequence of calls on [s] and collects their event logs; [None]
    when a call has no defined behaviour. *)
Fixpoint run_log (cs : list call) (s : HeapPQueue)
  : option (HeapPQueue * list event) :=
  match cs with
  | [] => Some (s, [])
  | c :: cs' =>
      let r := invoke c s in
      if completes (result r) then
        match run_log cs' (after r) with
        | Some (s', evs) => Some (s', events r ++ evs)
        | None => None
        end
      else None
  end.

(** Calls that enqueue each element of [ds] and dequeue after each
    enqueue. *)
Definition alternating (ds : list DataPoint) : list call :=
  ds ≫= λ d, [Enqueue d; Dequeue].

(** ** What a computation leaves alone *)

(** [m] allocates and frees nothing and leaves [capacity] and the length
    of the buffer as they are, whatever its outcome. *)
Definition calm {A} (m : M A) : Prop :=
  ∀ s, allocations (events (m s)) = [] ∧ frees (events (m s)) = 0%nat ∧
       capacity (after (m s)) = capacity s ∧
       length (heap (after (m s))) = length (heap s).

(** [m] leaves [currentSize] as it is, whatever its outcome. *)
Definition keeps_size {A} (m : M A) : Prop :=
  ∀ s, currentSize (after (m s)) = currentSize s.

(** [m] assigns no slot of the buffer, whatever its outcome. *)
Definition no_writes {A} (m : M A) : Prop :=
  ∀ s, writes (events (m s)) = 0.

(** A completed run of [m] on a queue that owns a buffer neither leaks
    nor releases one: as many buffers are alive after it as before. *)
Definition paired {A} (m : M A) : Prop :=
  ∀ s n, completes (result (m s)) = true →
         buffers (S n) (events (m s)) = Some (S n).

(** ** Runs with their logs *)

(** From [s], [m] assigns slots at most [b] times, whatever its outcome,
    and [Q] holds of its value and of the state it leaves when it
    returns. *)
Definition cost {A} (m : M A) (s : HeapPQueue) (b : Z)
    (Q : A → HeapPQueue → Prop) : Prop :=
  writes (events (m s)) ≤ b ∧
  ∀ a, result (m s) = Done a → Q a (after (m s)).

(** When [m] returns from [s], [Q] holds of its value, of the state it
    leaves, of the sizes of the buffers it has allocated and of the number
    of buffers it has released. *)
Definition ledger {A} (m : M A) (s : HeapPQueue)
    (Q : A → HeapPQueue → list Z → nat → Prop) : Prop :=
  ∀ a, result (m s) = Done a →
       Q a (after (m s)) (allocations (events (m s))) (frees (events (m s))).

(** ** The tree view and further sample queues *)

(** Index [i] is the first of a row of the tree below the root: [i + 1]
    is a power of two. *)
Definition row_start (i : Z) : bool :=
  (0 <? i) && (2 ^ Z.log2 (i + 1) =? i + 1).

(** The elements [l], the first of which has index [i], each followed by a
    space, with a line break before the first element of every row below
    the root. *)
Fixpoint tree_view (i : Z) (l : list DataPoint) : list token :=
  match l with
  | [] => []
  | d :: l' =>
      (if row_start i then [Endl] else []) ++ [Item d; Text " "]
      ++ tree_view (i + 1) l'
  end.

(** A queue filled to its first capacity. *)
Definition full_queue : HeapPQueue :=
  after (enqueue_all (elem <$> seqZ 0 100) HeapPQueue_new).

(** Two sequences of points, as [combine] receives them. *)
Definition sample_timelines : list (list DataPoint) :=
  [ sample_sequence; [heavy; blank] ].

(** [sample_queue] with a light element stored behind its last element,
    as [enqueue] leaves the buffer before it calls [bubbleUp]. *)
Definition appended_queue : HeapPQueue :=
  with_currentSize 3
    (with_heap (<[2%nat := Some blank]> (heap sample_queue)) sample_queue).

(** The queue of [sample_sequence] with its heaviest element copied to
    the root, as [dequeue] leaves the buffer before it calls
    [bubbleDown]. *)
Definition uprooted_queue : HeapPQueue :=
  let q := after (enqueue_all sample_sequence HeapPQueue_new) in
  with_heap (<[0%nat := Some {| name := "J"; weight := 9 |}]> (heap q)) q.

(** ** Reasoning about runs *)

Ltac zlia := Z.to_euclidean_division_equations; lia.
Ltac ulia := unfold INT_MIN, INT_MAX, MAX_CAPACITY, INITIAL_CAPACITY in *; lia.

(** [wp_or U m s Q]: from [s], [m] returns a value and ends in a state that
    satisfy [Q]; when [U] holds, the run may instead be [Undefined].  With
    [U := False] this is total correctness. *)
Definition wp_or (U : Prop) {A} (m : M A) (s : HeapPQueue)
    (Q : A → HeapPQueue → Prop) : Prop :=
  (U ∧ result (m s) = Undefined) ∨
  ∃ a, result (m s) = Done a ∧ Q a (after (m s)).

Section Specs.
Context {U : Prop}.
Abbreviation wp := (wp_or U).

Lemma wp_bind {A B} (m : M A) (k : A → M B) s Q :
  wp m s (λ a s1, wp (k a) s1 Q) → wp (bind m k) s Q.
Proof.
  unfold wp_or, bind. intros [[HU Hm]|(a & Ha & [[HU Hk]|(b & Hb & HQ)])].
  - left. rewrite Hm. auto.
  - left. rewrite Ha. auto.
  - right. exists b. rewrite Ha. auto.
Qed.

Lemma wp_mono {A} (m : M A) s (Q Q' : A → HeapPQueue → Prop) :
  wp m s Q → (∀ a s', Q a s' → Q' a s') → wp m s Q'.
Proof.
  intros [HU|(a & Ha & HQ)] H; [now left | right]. exists a. auto.
Qed.

Lemma wp_ret {A} (a : A) s (Q : A → HeapPQueue → Prop) : Q a s → wp (ret a) s Q.
Proof. intros. right. exists a. auto. Qed.

Lemma wp_get {A} (f : HeapPQueue → A) s (Q : A → HeapPQueue → Prop) :
  Q (f s) s → wp (get f) s Q.
Proof. intros. right. exists (f s). auto. Qed.

Lemma wp_emit e s (Q : unit → HeapPQueue → Prop) : Q tt s → wp (emit e) s Q.
Proof. intros. right. exists tt. auto. Qed.

Lemma wp_int z s (Q : Z → HeapPQueue → Prop) :
  INT_MIN ≤ z ≤ INT_MAX → Q z s → wp (int_ z) s Q.
Proof.
  intros Hz HQ. unfold int_, in_int.
  replace (INT_MIN <=? z) with true by (symmetry; apply Z.leb_le; lia).
  replace (z <=? INT_MAX) with true by (symmetry; apply Z.leb_le; lia).
  simpl. now apply wp_ret.
Qed.

Lemma wp_int_or z s (Q : Z → HeapPQueue → Prop) :
  INT_MIN ≤ z ≤ INT_MAX ∨ U →
  (INT_MIN ≤ z ≤ INT_MAX → Q z s) →
  wp (int_ z) s Q.
Proof.
  intros Hz HQ. destruct (in_int z) eqn:E.
  - apply wp_int; [|apply HQ]; unfold in_int in E;
      apply andb_true_iff in E as [?%Z.leb_le ?%Z.leb_le]; lia.
  - left. unfold int_. rewrite E. split; [|reflexivity].
    destruct Hz as [Hz|HU]; [|assumption]. exfalso.
    unfold in_int in E. apply andb_false_iff in E as [?%Z.leb_gt | ?%Z.leb_gt]; lia.
Qed.

Lemma wp_load i d s (Q : DataPoint → HeapPQueue → Prop) :
  cell (heap s) i = Some d → Q d s → wp (load i) s Q.
Proof. intros Hc HQ. right. exists d. unfold load. rewrite Hc. auto. Qed.

Lemma wp_store i d s (Q : unit → HeapPQueue → Prop) :
  0 ≤ i < Z.of_nat (length (heap s)) →
  Q tt (with_heap (<[Z.to_nat i := Some d]> (heap s)) s) →
  wp (store i d) s Q.
Proof.
  intros Hi HQ. right. exists tt. unfold store, in_bounds.
  replace (0 <=? i) with true by (symmetry; apply Z.leb_le; lia).
  replace (i <? Z.of_nat (length (heap s))) with true by (symmetry; apply Z.ltb_lt; lia).
  auto.
Qed.

Lemma wp_set_currentSize n s (Q : unit → HeapPQueue → Prop) :
  Q tt (with_currentSize n s) → wp (set_currentSize n) s Q.
Proof. intros. right. exists tt. auto. Qed.

Lemma wp_set_capacity c s (Q : unit → HeapPQueue → Prop) :
  Q tt (with_capacity c s) → wp (set_capacity c) s Q.
Proof. intros. right. exists tt. auto. Qed.

Lemma wp_set_heap h s (Q : unit → HeapPQueue → Prop) :
  Q tt (with_heap h s) → wp (set_heap h) s Q.
Proof. intros. right. exists tt. auto. Qed.

(** *** Slots *)

Lemma cell_Some h i d :
  cell h i = Some d ↔ 0 ≤ i ∧ h !! Z.to_nat i = Some (Some d).
Proof.
  unfold cell. destruct (0 <=? i) eqn:E.
  - apply Z.leb_le in E. destruct (h !! Z.to_nat i) as [[x|]|]; simpl.
    + split; [intros [= ->]; auto | intros [_ [= ->]]; reflexivity].
    + split; [discriminate | intros [_ [=]]].
    + split; [discriminate | intros [_ [=]]].
  - apply Z.leb_gt in E. split; [discriminate | lia].
Qed.

Lemma cell_length h i d : cell h i = Some d → 0 ≤ i < Z.of_nat (length h).
Proof.
  intros [H0 H]%cell_Some. apply lookup_lt_Some in H. lia.
Qed.

Lemma cell_insert h i j d :
  0 ≤ i < Z.of_nat (length h) →
  cell (<[Z.to_nat i := Some d]> h) j = if decide (j = i) then Some d else cell h j.
Proof.
  intros Hi. unfold cell. destruct (decide (j = i)) as [->|Hne].
  - replace (0 <=? i) with true by (symmetry; apply Z.leb_le; lia).
    rewrite list_lookup_insert_eq by lia. reflexivity.
  - destruct (0 <=? j) eqn:E; [|reflexivity]. apply Z.leb_le in E.
    rewrite list_lookup_insert_ne by lia. reflexivity.
Qed.

Lemma wt_insert h i j d :
  0 ≤ i < Z.of_nat (length h) →
  wt (<[Z.to_nat i := Some d]> h) j = if decide (j = i) then weight d else wt h j.
Proof.
  intros Hi. unfold wt. rewrite cell_insert by assumption.
  destruct (decide (j = i)); reflexivity.
Qed.

Lemma wt_cell h i d : cell h i = Some d → wt h i = weight d.
Proof. intros H. unfold wt. now rewrite H. Qed.

Lemma omap_Permutation {A B} (f : A → option B) (l l' : list A) :
  l ≡ₚ l' → omap f l ≡ₚ omap f l'.
Proof.
  induction 1 as [|x l l' _ IH|x y l|l1 l2 l3 _ IH1 _ IH2]; simpl.
  - reflexivity.
  - destruct (f x); [now constructor | assumption].
  - destruct (f x), (f y); try reflexivity. apply Permutation_swap.
  - now transitivity (omap f l2).
Qed.

(** ** Heap order on weight functions *)

Lemma par_lt i : 1 ≤ i → 0 ≤ par i < i.
Proof. unfold par. zlia. Qed.

Lemma par_children i k : 1 ≤ i → (par i = k ↔ i = 2 * k + 1 ∨ i = 2 * k + 2).
Proof. unfold par. zlia. Qed.

Lemma quot_par i : 1 ≤ i → (i - 1) ÷ 2 = par i.
Proof. unfold par. zlia. Qed.

Lemma up_inv_step w n k :
  up_inv w n k → 1 ≤ k < n → w k < w (par k) →
  up_inv (swap_fn w k (par k)) n (par k).
Proof.
  intros [H1 H2] Hk Hlt. pose proof (par_lt k ltac:(lia)) as Hpk.
  split.
  - intros i Hi Hne. pose proof (par_lt i ltac:(lia)) as Hpi. unfold swap_fn.
    destruct (decide (i = k)) as [->|Hik].
    + rewrite decide_False by lia. rewrite decide_True by reflexivity. lia.
    + rewrite (decide_False (P := i = par k)) by assumption.
      destruct (decide (par i = k)) as [E|E].
      * apply H2; [lia | lia | assumption].
      * destruct (decide (par i = par k)) as [E'|E'].
        -- specialize (H1 i Hi Hik). rewrite E' in H1. lia.
        -- apply H1; assumption.
  - intros Hp i Hi Hpi. pose proof (par_lt (par k) Hp) as Hppk. unfold swap_fn.
    rewrite (decide_False (P := par (par k) = k)) by lia.
    rewrite (decide_False (P := par (par k) = par k)) by lia.
    assert (w (par (par k)) ≤ w (par k)) as Hgp by (apply H1; lia).
    destruct (decide (i = k)) as [->|Hik]; [assumption|].
    pose proof (par_lt i ltac:(lia)).
    rewrite decide_False by lia.
    specialize (H1 i Hi Hik). rewrite Hpi in H1. lia.
Qed.

Lemma up_inv_done w n k :
  up_inv w n k → 0 ≤ k → (k = 0 ∨ w (par k) ≤ w k) → ordered w n.
Proof.
  intros [H1 _] Hk Hor i Hi. destruct (decide (i = k)) as [->|Hne].
  - destruct Hor; [lia | assumption].
  - now apply H1.
Qed.

Lemma ordered_up_inv w w' n :
  0 ≤ n → ordered w n → (∀ i, 0 ≤ i < n → w' i = w i) → up_inv w' (n + 1) n.
Proof.
  intros Hn Ho Hw. split.
  - intros i Hi Hne. pose proof (par_lt i ltac:(lia)).
    rewrite !Hw by lia. apply Ho. lia.
  - intros Hk i Hi Hp. apply par_children in Hp; lia.
Qed.

Lemma smallest_of_cases w n k :
  0 ≤ k →
  let c := smallest_of w n k in
  (c = k ∧ ∀ i, 1 ≤ i < n → par i = k → w k ≤ w i) ∨
  (c ≠ k ∧ k < c < n ∧ par c = k ∧ w c < w k ∧
   ∀ i, 1 ≤ i < n → par i = k → w c ≤ w i).
Proof.
  intros Hk. unfold smallest_of. cbv zeta.
  assert (par (2 * k + 1) = k) as Pl by (apply par_children; lia).
  assert (par (2 * k + 2) = k) as Pr by (apply par_children; lia).
  destruct (2 * k + 1 <? n) eqn:El; [apply Z.ltb_lt in El | apply Z.ltb_ge in El];
  destruct (w (2 * k + 1) <? w k) eqn:Wl;
    [apply Z.ltb_lt in Wl | apply Z.ltb_ge in Wl| apply Z.ltb_lt in Wl | apply Z.ltb_ge in Wl];
  cbn [andb];
  destruct (2 * k + 2 <? n) eqn:Er; [apply Z.ltb_lt in Er | apply Z.ltb_ge in Er | apply Z.ltb_lt in Er | apply Z.ltb_ge in Er | apply Z.ltb_lt in Er | apply Z.ltb_ge in Er| apply Z.ltb_lt in Er | apply Z.ltb_ge in Er];
  cbn [andb];
  try match goal with |- context [w (2 * k + 2) <? ?x] =>
    destruct (w (2 * k + 2) <? x) eqn:Wr;
      [apply Z.ltb_lt in Wr | apply Z.ltb_ge in Wr] end;
  first
    [ left; split; [reflexivity|];
      intros i Hi Hp; apply par_children in Hp; [|lia];
      destruct Hp as [-> | ->]; lia
    | right; split; [lia|]; split; [lia|]; split; [assumption|]; split; [lia|];
      intros i Hi Hp; apply par_children in Hp; [|lia];
      destruct Hp as [-> | ->]; lia ].
Qed.

Lemma down_inv_step w n k c :
  down_inv w n k → 0 ≤ k < n → c = smallest_of w n k → c ≠ k →
  down_inv (swap_fn w k c) n c.
Proof.
  intros [H1 H2] Hk -> Hne.
  destruct (smallest_of_cases w n k ltac:(lia)) as [[? _]|(_ & Hc & Hp & Hw & Hmin)];
    [contradiction|].
  set (c := smallest_of w n k) in *. split.
  - intros i Hi Hpi. pose proof (par_lt i ltac:(lia)) as Hlt. unfold swap_fn.
    destruct (decide (i = k)) as [->|Hik].
    + rewrite (decide_False (P := par k = k)) by lia.
      rewrite (decide_False (P := par k = c)) by lia.
      apply H2; [lia | lia | assumption].
    + destruct (decide (i = c)) as [->|Hic].
      * rewrite Hp. rewrite decide_True by reflexivity. lia.
      * destruct (decide (par i = k)) as [E|E].
        -- apply Hmin; [lia | assumption].
        -- rewrite (decide_False (P := par i = c)) by assumption.
           apply H1; [lia | assumption].
  - intros Hc1 i Hi Hpi. pose proof (par_lt i ltac:(lia)) as Hlt. unfold swap_fn.
    rewrite Hp. rewrite decide_True by reflexivity.
    rewrite (decide_False (P := i = k)) by lia.
    rewrite (decide_False (P := i = c)) by lia.
    specialize (H1 i Hi ltac:(lia)). rewrite Hpi in H1. assumption.
Qed.

Lemma down_inv_done w n k :
  down_inv w n k → 0 ≤ k → smallest_of w n k = k → ordered w n.
Proof.
  intros [H1 H2] Hk Hs i Hi.
  destruct (smallest_of_cases w n k Hk) as [[_ Hmin]|(Hne & _)]; [|contradiction].
  destruct (decide (par i = k)) as [E|E].
  - rewrite E. now apply Hmin.
  - now apply H1.
Qed.

Lemma ordered_down_inv w w' n :
  ordered w (n + 1) → (∀ i, 1 ≤ i < n → w' i = w i) → down_inv w' n 0.
Proof.
  intros Ho Hw. split.
  - intros i Hi Hp. pose proof (par_lt i ltac:(lia)).
    rewrite !Hw by lia. apply Ho. lia.
  - intros ?. lia.
Qed.

Lemma ordered_root_min w n i : ordered w n → 0 ≤ i < n → w 0 ≤ w i.
Proof.
  intros Ho [H0 Hi]. generalize H0. revert Hi. pattern i.
  apply Z_lt_induction; [|assumption].
  clear i H0. intros i IH Hi H0. destruct (decide (i = 0)) as [->|Hne]; [lia|].
  pose proof (par_lt i ltac:(lia)).
  specialize (IH (par i) ltac:(lia) ltac:(lia) ltac:(lia)).
  specialize (Ho i ltac:(lia)). lia.
Qed.

Lemma up_inv_ext w w' n k : (∀ x, w' x = w x) → up_inv w n k → up_inv w' n k.
Proof.
  intros E [H1 H2]. split.
  - intros i Hi Hne. rewrite !E. now apply H1.
  - intros Hk i Hi Hp. rewrite !E. now apply H2.
Qed.

Lemma down_inv_ext w w' n k : (∀ x, w' x = w x) → down_inv w n k → down_inv w' n k.
Proof.
  intros E [H1 H2]. split.
  - intros i Hi Hne. rewrite !E. now apply H1.
  - intros Hk i Hi Hp. rewrite !E. now apply H2.
Qed.

(** ** Buffers *)

Lemma rearranged_refl n h : rearranged n h h.
Proof. split; reflexivity. Qed.

Lemma rearranged_trans n h1 h2 h3 :
  rearranged n h1 h2 → rearranged n h2 h3 → rearranged n h1 h3.
Proof.
  intros [L1 P1] [L2 P2]. split; [congruence|]. now transitivity (take (Z.to_nat n) h2).
Qed.

Lemma rearranged_contents n h h' : rearranged n h h' → contents h' n ≡ₚ contents h n.
Proof. intros [_ P]. now apply omap_Permutation. Qed.

Lemma initialised_lookup h n (i : nat) x :
  initialised h n → Z.of_nat i < n → h !! i = Some x → is_Some x.
Proof.
  intros Hin Hi Hl. specialize (Hin (Z.of_nat i) ltac:(lia)). unfold cell in Hin.
  replace (0 <=? Z.of_nat i) with true in Hin by (symmetry; apply Z.leb_le; lia).
  rewrite Nat2Z.id, Hl in Hin. exact Hin.
Qed.

Lemma initialised_Forall h n :
  n ≤ Z.of_nat (length h) →
  initialised h n ↔ Forall is_Some (take (Z.to_nat n) h).
Proof.
  intros Hn. rewrite Forall_lookup. split.
  - intros Hin i x [Hl Hi]%lookup_take_Some.
    apply (initialised_lookup h n i x Hin); [lia | exact Hl].
  - intros HF i Hi. unfold cell.
    replace (0 <=? i) with true by (symmetry; apply Z.leb_le; lia).
    destruct (lookup_lt_is_Some_2 h (Z.to_nat i) ltac:(lia)) as [x Hx].
    rewrite Hx. simpl. apply (HF (Z.to_nat i)). apply lookup_take_Some. split; [assumption | lia].
Qed.

Lemma rearranged_initialised n h h' :
  n ≤ Z.of_nat (length h) → rearranged n h h' → initialised h n → initialised h' n.
Proof.
  intros Hn [L P] Hin. apply initialised_Forall; [lia|].
  apply initialised_Forall in Hin; [|assumption]. now rewrite P.
Qed.

Lemma with_heap_with_heap h1 h2 s : with_heap h2 (with_heap h1 s) = with_heap h2 s.
Proof. reflexivity. Qed.

Lemma with_heap_id s : with_heap (heap s) s = s.
Proof. now destruct s. Qed.

(** *** The helpers *)

Lemma wp_load_init n i s (Q : DataPoint → HeapPQueue → Prop) :
  initialised (heap s) n → 0 ≤ i < n →
  (∀ d, cell (heap s) i = Some d → wt (heap s) i = weight d → Q d s) →
  wp (load i) s Q.
Proof.
  intros Hin Hi HQ. destruct (Hin i Hi) as [d Hd].
  apply wp_load with d; [assumption|]. apply HQ; [assumption | now apply wt_cell].
Qed.

Lemma wp_parent index s (Q : Z → HeapPQueue → Prop) :
  1 ≤ index ≤ INT_MAX → Q (par index) s → wp (parent index) s Q.
Proof.
  intros Hi HQ. unfold parent. apply wp_bind. apply wp_int.
  - unfold INT_MIN, INT_MAX in *. lia.
  - apply wp_ret. now rewrite quot_par by lia.
Qed.

Lemma wp_leftChild index s (Q : Z → HeapPQueue → Prop) :
  0 ≤ index → 2 * index + 1 ≤ INT_MAX ∨ U → Q (2 * index + 1) s →
  wp (leftChild index) s Q.
Proof.
  intros Hi Hm HQ. unfold leftChild. apply wp_bind.
  apply wp_int_or; [destruct Hm; [left; ulia | now right]|]. intros _.
  apply wp_int_or; [destruct Hm; [left; ulia | now right]|]. intros _. assumption.
Qed.

Lemma wp_rightChild index s (Q : Z → HeapPQueue → Prop) :
  0 ≤ index → 2 * index + 2 ≤ INT_MAX ∨ U → Q (2 * index + 2) s →
  wp (rightChild index) s Q.
Proof.
  intros Hi Hm HQ. unfold rightChild. apply wp_bind.
  apply wp_int_or; [destruct Hm; [left; ulia | now right]|]. intros _.
  apply wp_int_or; [destruct Hm; [left; ulia | now right]|]. intros _. assumption.
Qed.

Lemma wp_swap n i j s (Q : unit → HeapPQueue → Prop) :
  0 ≤ i < n → 0 ≤ j < n → n ≤ Z.of_nat (length (heap s)) →
  initialised (heap s) n →
  (∀ h', rearranged n (heap s) h' →
         (∀ x, wt h' x = swap_fn (wt (heap s)) i j x) →
         Q tt (with_heap h' s)) →
  wp (swap i j) s Q.
Proof.
  intros Hi Hj Hn Hin HQ. unfold swap.
  apply wp_bind. apply (wp_load_init n); [assumption | assumption |].
  intros a Ha Hwa.
  apply wp_bind. apply (wp_load_init n); [assumption | assumption |].
  intros b Hb Hwb.
  apply wp_bind. apply wp_store; [lia|].
  apply wp_store; [cbn; rewrite length_insert; lia|].
  cbn [heap with_heap]. rewrite with_heap_with_heap. apply HQ.
  - split; [now rewrite !length_insert|].
    rewrite !take_insert_lt by lia.
    apply cell_Some in Ha as [_ Ha]. apply cell_Some in Hb as [_ Hb].
    apply Permutation_insert_swap; apply lookup_take_Some; split; (assumption || lia).
  - intros x. rewrite wt_insert by (rewrite length_insert; lia).
    rewrite wt_insert by lia. unfold swap_fn.
    destruct (decide (x = j)) as [Hxj|Hxj]; destruct (decide (x = i)) as [Hxi|Hxi];
      subst; congruence.
Qed.

(** *** [bubbleUp] *)

Lemma bubbleUp_loop_spec n fuel : ∀ k s,
  (Z.to_nat k < fuel)%nat → 0 ≤ k < n →
  n ≤ Z.of_nat (length (heap s)) → n ≤ INT_MAX →
  initialised (heap s) n → up_inv (wt (heap s)) n k →
  wp (bubbleUp_loop fuel k) s
     (λ _ s', ∃ h', s' = with_heap h' s ∧ rearranged n (heap s) h' ∧
                    ordered (wt h') n ∧
                    (k = 0 ∨ wt (heap s) (par k) ≤ wt (heap s) k → h' = heap s)).
Proof.
  induction fuel as [|fuel IH]; intros k s Hf Hk Hlen Hmax Hin Hup; [lia|].
  cbn [bubbleUp_loop]. rewrite Z.gtb_ltb.
  destruct (0 <? k) eqn:Hpos; [apply Z.ltb_lt in Hpos | apply Z.ltb_ge in Hpos].
  - pose proof (par_lt k ltac:(lia)) as Hp.
    apply wp_bind. apply (wp_load_init n); [assumption | lia |]. intros a Ha Hwa.
    apply wp_bind. apply wp_parent; [lia|].
    apply wp_bind. apply (wp_load_init n); [assumption | lia |]. intros b Hb Hwb.
    destruct (weight a <? weight b) eqn:Hlt;
      [apply Z.ltb_lt in Hlt | apply Z.ltb_ge in Hlt].
    + apply wp_bind. apply wp_parent; [lia|].
      apply wp_bind. apply (wp_swap n); [lia | lia | assumption | assumption |].
      intros h' Hre Hwt.
      apply wp_bind. apply wp_parent; [lia|].
      eapply wp_mono.
      * apply IH; cbn [heap with_heap].
        -- lia.
        -- lia.
        -- destruct Hre as [-> _]. assumption.
        -- assumption.
        -- now apply (rearranged_initialised n (heap s)).
        -- apply (up_inv_ext (swap_fn (wt (heap s)) k (par k))); [assumption|].
           apply up_inv_step; [assumption | lia | lia].
      * cbn beta. intros _ s' (h'' & -> & Hre' & Hord & _). exists h''.
        split; [reflexivity|]. split; [|split; [assumption|]].
        -- now apply (rearranged_trans n _ h').
        -- intros [?|?]; lia.
    + apply wp_ret. exists (heap s). split; [now rewrite with_heap_id|].
      split; [apply rearranged_refl|]. split; [|reflexivity].
      apply (up_inv_done _ _ k); [assumption | lia | right; lia].
  - apply wp_ret. exists (heap s). split; [now rewrite with_heap_id|].
    split; [apply rearranged_refl|]. split; [|reflexivity].
    apply (up_inv_done _ _ k); [assumption | lia | left; lia].
Qed.

Lemma bubbleUp_spec n k s :
  0 ≤ k < n → n ≤ Z.of_nat (length (heap s)) → n ≤ INT_MAX →
  initialised (heap s) n → up_inv (wt (heap s)) n k →
  wp (bubbleUp k) s
     (λ _ s', ∃ h', s' = with_heap h' s ∧ rearranged n (heap s) h' ∧
                    ordered (wt h') n ∧
                    (k = 0 ∨ wt (heap s) (par k) ≤ wt (heap s) k → h' = heap s)).
Proof. intros. unfold bubbleUp. apply (bubbleUp_loop_spec n); (assumption || lia). Qed.

(** *** [bubbleDown] *)

Lemma bubbleDown_loop_spec n fuel : ∀ k s,
  (Z.to_nat (n - k) < fuel)%nat → 0 ≤ k → k < n ∨ k = 0 →
  n ≤ Z.of_nat (length (heap s)) → n ≤ 1073741823 ∨ U →
  initialised (heap s) n → down_inv (wt (heap s)) n k →
  wp (bubbleDown_loop fuel n k) s
     (λ _ s', ∃ h', s' = with_heap h' s ∧ rearranged n (heap s) h' ∧
                    ordered (wt h') n).
Proof.
  induction fuel as [|fuel IH]; intros k s Hf Hk Hkn Hlen Hmax Hin Hdn; [lia|].
  cbn [bubbleDown_loop].
  apply wp_bind. apply wp_leftChild;
    [lia | destruct Hmax; [left; unfold INT_MAX; lia | now right] |].
  apply wp_bind. apply wp_rightChild;
    [lia | destruct Hmax; [left; unfold INT_MAX; lia | now right] |].
  cbv zeta.
  pose proof (smallest_of_cases (wt (heap s)) n k Hk) as Hcases.
  unfold smallest_of in *. cbv zeta in Hcases.
  (* the first comparison *)
  apply wp_bind.
  set (s1 := if (2 * k + 1 <? n) && (wt (heap s) (2 * k + 1) <? wt (heap s) k)
             then 2 * k + 1 else k) in *.
  apply (wp_mono _ _ (λ c s', s' = s ∧ c = s1)).
  { subst s1. destruct (2 * k + 1 <? n) eqn:El; cbn [andb].
    - apply Z.ltb_lt in El.
      apply wp_bind. apply (wp_load_init n); [assumption | lia |]. intros a Ha Hwa.
      apply wp_bind. apply (wp_load_init n); [assumption | lia |]. intros b Hb Hwb.
      apply wp_ret. rewrite Hwa, Hwb. auto.
    - apply wp_ret. auto. }
  intros c1 s' [-> ->].
  assert (s1 = k ∨ (s1 = 2 * k + 1 ∧ 2 * k + 1 < n)) as Hs1.
  { subst s1. destruct (2 * k + 1 <? n) eqn:El; cbn [andb]; [|now left].
    apply Z.ltb_lt in El.
    destruct (wt (heap s) (2 * k + 1) <? wt (heap s) k); [right|left]; auto. }
  (* the second comparison *)
  apply wp_bind.
  set (s2 := if (2 * k + 2 <? n) && (wt (heap s) (2 * k + 2) <? wt (heap s) s1)
             then 2 * k + 2 else s1) in *.
  apply (wp_mono _ _ (λ c s', s' = s ∧ c = s2)).
  { subst s2. destruct (2 * k + 2 <? n) eqn:Er; cbn [andb].
    - apply Z.ltb_lt in Er.
      apply wp_bind. apply (wp_load_init n); [assumption | lia |]. intros a Ha Hwa.
      apply wp_bind. apply (wp_load_init n); [assumption | lia |]. intros b Hb Hwb.
      apply wp_ret. rewrite Hwa, Hwb. auto.
    - apply wp_ret. auto. }
  intros c2 s' [-> ->].
  destruct (s2 =? k) eqn:Eq; cbn [negb];
    [apply Z.eqb_eq in Eq | apply Z.eqb_neq in Eq].
  - apply wp_ret. exists (heap s). split; [now rewrite with_heap_id|].
    split; [apply rearranged_refl|].
    apply (down_inv_done _ _ k); assumption.
  - destruct Hcases as [[? _]|(_ & Hc & Hp & Hw & Hmin)]; [contradiction|].
    apply wp_bind. apply (wp_swap n); [lia | lia | assumption | assumption |].
    intros h' Hre Hwt.
    eapply wp_mono.
    + apply IH; cbn [heap with_heap].
      * lia.
      * lia.
      * left; lia.
      * destruct Hre as [-> _]. assumption.
      * assumption.
      * now apply (rearranged_initialised n (heap s)).
      * apply (down_inv_ext (swap_fn (wt (heap s)) k s2)); [assumption|].
        apply down_inv_step; [assumption | lia | reflexivity | assumption].
    + cbn beta. intros _ s' (h'' & -> & Hre' & Hord). exists h''.
      split; [reflexivity|]. split; [|assumption].
      now apply (rearranged_trans n _ h').
Qed.

Lemma bubbleDown_spec n s :
  currentSize s = n → 0 ≤ n →
  n ≤ Z.of_nat (length (heap s)) → n ≤ 1073741823 ∨ U →
  initialised (heap s) n → down_inv (wt (heap s)) n 0 →
  wp (bubbleDown 0) s
     (λ _ s', ∃ h', s' = with_heap h' s ∧ rearranged n (heap s) h' ∧
                    ordered (wt h') n).
Proof.
  intros Hn H0 Hlen Hmax Hin Hdn. unfold bubbleDown.
  apply wp_bind. apply wp_get. rewrite Hn.
  apply (bubbleDown_loop_spec n); (assumption || lia).
Qed.

(** *** Capacities and the [double] computations *)

Lemma capacity_form_bounds c :
  capacity_form c → INITIAL_CAPACITY ≤ c ≤ MAX_CAPACITY.
Proof.
  intros (k & Hk & ->). unfold INITIAL_CAPACITY, MAX_CAPACITY.
  assert (1 ≤ 2 ^ k) by (apply (Z.pow_le_mono_r 2 0 k); lia).
  assert (2 ^ k ≤ 2 ^ 24) by (apply Z.pow_le_mono_r; lia).
  change (2 ^ 24) with 16777216 in *. lia.
Qed.

Lemma capacity_form_double c :
  capacity_form c → c < MAX_CAPACITY → capacity_form (2 * c).
Proof.
  intros (k & Hk & ->) Hlt. exists (k + 1).
  assert (k ≠ 24).
  { intros ->. unfold INITIAL_CAPACITY, MAX_CAPACITY in Hlt.
    change (2 ^ 24) with 16777216 in Hlt. lia. }
  split; [lia|]. rewrite Z.pow_add_r by lia. change (2 ^ 1) with 2. lia.
Qed.

Lemma capacity_form_halve c :
  capacity_form c → capacity_form (Z.max INITIAL_CAPACITY (c ÷ 2)).
Proof.
  intros (k & Hk & ->). destruct (decide (k = 0)) as [->|Hne].
  - exists 0. split; [lia|]. reflexivity.
  - exists (k - 1). split; [lia|].
    replace k with ((k - 1) + 1) at 1 by lia.
    rewrite Z.pow_add_r by lia. change (2 ^ 1) with 2.
    assert (1 ≤ 2 ^ (k - 1)) by (apply (Z.pow_le_mono_r 2 0 (k - 1)); lia).
    unfold INITIAL_CAPACITY in *.
    replace (100 * (2 ^ (k - 1) * 2)) with ((100 * 2 ^ (k - 1)) * 2) by lia.
    rewrite Z.quot_mul by lia. lia.
Qed.

Lemma Qtrunc_grow c : Qtrunc (inject_Z c * (2 # 1))%Q = 2 * c.
Proof. unfold Qtrunc. cbn. rewrite Z.quot_1_r. lia. Qed.

Lemma Qtrunc_shrink c : Qtrunc (inject_Z c / (2 # 1))%Q = c ÷ 2.
Proof. unfold Qtrunc. cbn. now rewrite Z.mul_1_r. Qed.

Lemma Qltb_shrink n c : Qltb (inject_Z n) ((1 # 4) * inject_Z c)%Q = (4 * n <? c).
Proof.
  unfold Qltb, Qle_bool. cbn. rewrite Z.mul_1_r.
  destruct (4 * n <? c) eqn:E.
  - apply Z.ltb_lt in E. apply negb_true_iff, Z.leb_gt.
    destruct c; lia.
  - apply Z.ltb_ge in E. apply negb_false_iff, Z.leb_le.
    destruct c; lia.
Qed.

(** *** [resize] *)

Lemma copy_loop_spec s (len : nat) : ∀ m newHeap,
  0 ≤ m →
  (∀ j, m ≤ j < m + Z.of_nat len → is_Some (cell (heap s) j)) →
  m + Z.of_nat len ≤ Z.of_nat (length newHeap) →
  wp (copy_loop (seqZ m (Z.of_nat len)) newHeap) s
     (λ r s', s' = s ∧ length r = length newHeap ∧
        (∀ j : nat, m ≤ Z.of_nat j < m + Z.of_nat len → r !! j = heap s !! j) ∧
        (∀ j : nat, ¬ (m ≤ Z.of_nat j < m + Z.of_nat len) → r !! j = newHeap !! j)).
Proof.
  induction len as [|len IH]; intros m newHeap Hm Hsome Hlen.
  - rewrite seqZ_nil by lia. apply wp_ret.
    split; [reflexivity|]. split; [reflexivity|]. split; [lia | reflexivity].
  - rewrite seqZ_cons by lia.
    replace (Z.pred (Z.of_nat (S len))) with (Z.of_nat len) by lia.
    cbn [copy_loop].
    destruct (Hsome m ltac:(lia)) as [d Hd].
    apply wp_bind. apply wp_load with d; [assumption|].
    unfold in_bounds.
    replace (0 <=? m) with true by (symmetry; apply Z.leb_le; lia).
    replace (m <? Z.of_nat (length newHeap)) with true
      by (symmetry; apply Z.ltb_lt; lia).
    cbn [andb]. apply wp_bind. apply wp_emit.
    eapply wp_mono.
    + apply IH; [lia | | rewrite length_insert; lia].
      intros j Hj. apply Hsome. lia.
    + cbn beta. intros r s' (-> & Hl & Hin & Hout).
      split; [reflexivity|]. split; [now rewrite Hl, length_insert|].
      apply cell_Some in Hd as [_ Hd]. split.
      * intros j Hj. destruct (decide (Z.of_nat j = m)) as [E|E].
        -- rewrite Hout by lia. subst m. rewrite Nat2Z.id in *.
           rewrite list_lookup_insert_eq by lia. now rewrite Hd.
        -- apply Hin. lia.
      * intros j Hj. rewrite Hout by lia.
        apply list_lookup_insert_ne. lia.
Qed.

Lemma resize_spec newCapacity s (Q : unit → HeapPQueue → Prop) :
  0 ≤ currentSize s ≤ newCapacity →
  currentSize s ≤ Z.of_nat (length (heap s)) →
  initialised (heap s) (currentSize s) →
  (∀ h', Z.of_nat (length h') = newCapacity →
         take (Z.to_nat (currentSize s)) h' = take (Z.to_nat (currentSize s)) (heap s) →
         Q tt (with_capacity newCapacity (with_heap h' s))) →
  wp (resize newCapacity) s Q.
Proof.
  intros Hn Hlen Hin HQ. unfold resize.
  apply wp_bind. apply wp_get.
  apply wp_bind. replace (newCapacity <? currentSize s) with false
    by (symmetry; apply Z.ltb_ge; lia).
  apply wp_ret.
  apply wp_bind. unfold new_array.
  replace (newCapacity <? 0) with false by (symmetry; apply Z.ltb_ge; lia).
  apply wp_bind. apply wp_emit. apply wp_ret.
  apply wp_bind. apply wp_get.
  apply wp_bind.
  set (n := currentSize s) in *.
  eapply wp_mono.
  - rewrite <- (Z2Nat.id n) at 1 by lia. apply copy_loop_spec.
    + lia.
    + intros j Hj. apply Hin. lia.
    + rewrite length_replicate. lia.
  - cbn beta. intros r s' (-> & Hl & Hcopy & _).
    apply wp_bind. apply wp_emit.
    apply wp_bind. apply wp_set_heap. apply wp_set_capacity.
    apply HQ.
    + rewrite Hl, length_replicate. lia.
    + apply list_eq. intros j.
      destruct (decide (j < Z.to_nat n)%nat) as [Hj|Hj].
      * rewrite !lookup_take_lt by assumption. apply Hcopy. lia.
      * rewrite !lookup_take_ge by lia. reflexivity.
Qed.

(** *** The elements of a buffer *)

Lemma contents_snoc h n d :
  0 ≤ n → cell h n = Some d → contents h (n + 1) = contents h n ++ [d].
Proof.
  intros Hn [_ Hc]%cell_Some. unfold contents.
  replace (Z.to_nat (n + 1)) with (S (Z.to_nat n)) by lia.
  rewrite (take_S_r _ _ _ Hc), omap_app. reflexivity.
Qed.

Lemma contents_insert_ge h n i x :
  n ≤ i → 0 ≤ i → contents (<[Z.to_nat i := x]> h) n = contents h n.
Proof.
  intros Hni Hi. unfold contents. rewrite take_insert_ge by lia. reflexivity.
Qed.

Lemma contents_take h h' n :
  take (Z.to_nat n) h' = take (Z.to_nat n) h → contents h' n = contents h n.
Proof. unfold contents. now intros ->. Qed.

Lemma contents_dequeue h n root last :
  0 < n → cell h 0 = Some root → cell h (n - 1) = Some last →
  contents h n ≡ₚ root :: contents (<[Z.to_nat 0 := Some last]> h) (n - 1).
Proof.
  intros Hn Hroot Hlast.
  replace n with ((n - 1) + 1) at 1 by lia.
  rewrite (contents_snoc h (n - 1) last) by (assumption || lia).
  apply cell_Some in Hroot as [_ Hroot].
  destruct h as [|x tl]; [discriminate|]. cbn in Hroot. injection Hroot as ->.
  unfold contents. change (Z.to_nat 0) with 0%nat.
  destruct (Z.to_nat (n - 1)) as [|m] eqn:E.
  - cbn. assert (n - 1 = 0) as E0 by lia. rewrite E0 in Hlast.
    cbn in Hlast. now injection Hlast as ->.
  - cbn. rewrite <- Permutation_cons_append. reflexivity.
Qed.

Lemma contents_elem h n d :
  d ∈ contents h n → ∃ i, 0 ≤ i < n ∧ cell h i = Some d.
Proof.
  unfold contents. intros (x & Hx & Hid)%list_elem_of_omap.
  cbn in Hid. subst x.
  apply list_elem_of_lookup in Hx as [j Hj].
  apply lookup_take_Some in Hj as [Hj Hlt].
  exists (Z.of_nat j). split; [lia|]. apply cell_Some.
  split; [lia|]. now rewrite Nat2Z.id.
Qed.

(** *** Buffers that agree on their first slots *)

Lemma take_cell h h' n i :
  take (Z.to_nat n) h' = take (Z.to_nat n) h → 0 ≤ i < n → cell h' i = cell h i.
Proof.
  intros Ht Hi. unfold cell.
  replace (0 <=? i) with true by (symmetry; apply Z.leb_le; lia).
  rewrite <- (lookup_take_lt h' (Z.to_nat n) (Z.to_nat i)) by lia.
  rewrite <- (lookup_take_lt h (Z.to_nat n) (Z.to_nat i)) by lia.
  now rewrite Ht.
Qed.

Lemma agree_initialised h h' n :
  (∀ i, 0 ≤ i < n → cell h' i = cell h i) → initialised h n → initialised h' n.
Proof. intros E Hin i Hi. rewrite E by assumption. now apply Hin. Qed.

Lemma agree_ordered h h' n :
  (∀ i, 0 ≤ i < n → cell h' i = cell h i) →
  ordered (wt h) n → ordered (wt h') n.
Proof.
  intros E Ho i Hi. pose proof (par_lt i ltac:(lia)). unfold wt.
  rewrite !E by lia. now apply Ho.
Qed.

(** ** The member functions preserve the class invariant *)

Lemma Inv_new : Inv HeapPQueue_new.
Proof.
  split; cbn.
  - unfold INITIAL_CAPACITY. lia.
  - reflexivity.
  - exists 0. split; [lia | reflexivity].
  - reflexivity.
  - reflexivity.
  - intros i Hi. lia.
  - intros i Hi. lia.
Qed.

Lemma enqueue_spec data s :
  Inv s → currentSize s < MAX_CAPACITY ∨ U →
  wp (enqueue data) s
     (λ _ s', Inv s' ∧ currentSize s' = currentSize s + 1 ∧
              live s' ≡ₚ data :: live s ∧
              capacity s' = (if currentSize s =? capacity s
                             then 2 * capacity s else capacity s) ∧
              (currentSize s = 0 ∨
               wt (heap s) (par (currentSize s)) ≤ weight data →
               cell (heap s') (currentSize s) = Some data ∧
               ∀ i, 0 ≤ i < currentSize s → cell (heap s') i = cell (heap s) i)).
Proof.
  intros [Hsz Hlen Hcap Hg Ht Hin Hord] Hmax.
  pose proof (capacity_form_bounds _ Hcap) as Hcb.
  set (n := currentSize s) in *. unfold enqueue.
  apply wp_bind. unfold size. apply wp_get. fold n.
  apply wp_bind. apply wp_get.
  apply wp_bind.
  apply (wp_mono _ _ (λ _ s1,
    currentSize s1 = n ∧
    capacity s1 = (if n =? capacity s then 2 * capacity s else capacity s) ∧
    Z.of_nat (length (heap s1)) = capacity s1 ∧ n < capacity s1 ∧
    capacity_form (capacity s1) ∧
    growFactor s1 = (2 # 1)%Q ∧ shrinkThreshold s1 = (1 # 4)%Q ∧
    take (Z.to_nat n) (heap s1) = take (Z.to_nat n) (heap s))).
  { destruct (n =? capacity s) eqn:E;
      [apply Z.eqb_eq in E | apply Z.eqb_neq in E].
    - apply wp_bind. apply wp_get. rewrite Hg.
      apply wp_bind. unfold static_cast_int. rewrite Qtrunc_grow.
      apply wp_int_or.
      { destruct Hmax as [Hlt|HU]; [left | now right].
        pose proof (capacity_form_bounds _
                      (capacity_form_double _ Hcap ltac:(lia))). ulia. }
      intros Hrange.
      pose proof (capacity_form_double _ Hcap ltac:(ulia)) as Hcap2.
      pose proof (capacity_form_bounds _ Hcap2) as Hcb2.
      apply resize_spec; fold n; [ulia | lia | assumption |].
      intros h' Hl Htake. cbn.
      repeat split; (assumption || ulia).
    - apply wp_ret. repeat split; (assumption || ulia). }
  cbn beta. intros _ s1 (Hn1 & Hc1 & Hl1 & Hlt1 & Hcf1 & Hg1 & Ht1 & Htake).
  pose proof (capacity_form_bounds _ Hcf1) as Hcb1.
  apply wp_bind. apply wp_get. rewrite Hn1.
  apply wp_bind. apply wp_store; [lia|].
  apply wp_bind.
  apply wp_int; [ulia|].
  apply wp_bind. apply wp_set_currentSize.
  apply wp_bind. apply wp_get. cbn [currentSize with_currentSize].
  apply wp_bind.
  apply wp_int; [ulia|].
  replace (n + 1 - 1) with n by lia.
  set (h1 := <[Z.to_nat n := Some data]> (heap s1)).
  assert (∀ i, 0 ≤ i < n → cell h1 i = cell (heap s) i) as Hagree.
  { intros i Hi. unfold h1. rewrite cell_insert by lia.
    rewrite decide_False by lia. now apply (take_cell _ _ n). }
  assert (cell h1 n = Some data) as Hnew.
  { unfold h1. rewrite cell_insert by lia. now rewrite decide_True. }
  assert (length h1 = length (heap s1)) as Hlh1 by (unfold h1; now rewrite length_insert).
  assert (initialised h1 (n + 1)) as Hin1.
  { intros i Hi. destruct (decide (i = n)) as [->|Hne].
    - rewrite Hnew. eauto.
    - rewrite Hagree by lia. apply Hin. lia. }
  eapply wp_mono.
  - apply (bubbleUp_spec (n + 1)); cbn [heap with_currentSize with_heap]; fold h1.
    + lia.
    + lia.
    + ulia.
    + assumption.
    + apply (ordered_up_inv (wt (heap s))); [lia | assumption |].
      intros i Hi. unfold wt. now rewrite Hagree.
  - cbn beta. intros _ s' (h' & -> & Hre & Hord' & Hsame).
    cbn [heap with_currentSize with_heap] in Hre, Hsame. fold h1 in Hre, Hsame.
    split; [|split; [reflexivity | split; [|split; [exact Hc1|]]]].
    + split; cbn.
      * lia.
      * destruct Hre as [-> _]. lia.
      * assumption.
      * assumption.
      * assumption.
      * apply (rearranged_initialised (n + 1) h1); [lia | assumption | assumption].
      * assumption.
    + unfold live. cbn. rewrite (rearranged_contents _ _ _ Hre).
      rewrite (contents_snoc h1 n data) by (assumption || lia).
      unfold h1. rewrite contents_insert_ge by lia.
      rewrite (contents_take _ _ _ Htake).
      now rewrite <- Permutation_cons_append.
    + intros Hpos. cbn [heap with_heap]. rewrite Hsame.
      * split; assumption.
      * destruct Hpos as [?|Hpos]; [left; assumption | right].
        rewrite (wt_cell _ _ _ Hnew). pose proof (par_lt n) as Hp.
        destruct (decide (n = 0)) as [E0|E0].
        -- unfold wt. rewrite E0. replace (par 0) with (-1) by (unfold par; zlia).
           cbn. rewrite E0 in Hpos. replace (par 0) with (-1) in Hpos by (unfold par; zlia).
           exact Hpos.
        -- unfold wt at 1. rewrite Hagree by lia. exact Hpos.
Qed.

Lemma dequeue_spec s :
  Inv s → 0 < currentSize s → currentSize s ≤ 1073741824 ∨ U →
  wp dequeue s
     (λ root s', Inv s' ∧ currentSize s' = currentSize s - 1 ∧
                 cell (heap s) 0 = Some root ∧
                 live s ≡ₚ root :: live s' ∧
                 capacity s' = if 4 * (currentSize s - 1) <? capacity s
                               then Z.max INITIAL_CAPACITY (capacity s ÷ 2)
                               else capacity s).
Proof.
  intros [Hsz Hlen Hcap Hg Ht Hin Hord] Hn Hmax.
  pose proof (capacity_form_bounds _ Hcap) as Hcb.
  set (n := currentSize s) in *. unfold dequeue.
  apply wp_bind. unfold isEmpty. apply wp_bind. apply wp_get. apply wp_ret. fold n.
  replace (n =? 0) with false by (symmetry; apply Z.eqb_neq; lia).
  apply wp_bind. apply wp_ret.
  apply wp_bind. apply (wp_load_init n); [assumption | lia |]. intros root Hroot _.
  apply wp_bind. apply wp_get. fold n.
  apply wp_bind. apply wp_int; [ulia|].
  apply wp_bind. apply (wp_load_init n); [assumption | lia |]. intros last Hlast _.
  apply wp_bind. apply wp_store; [lia|].
  apply wp_bind. apply wp_get. cbn [currentSize with_heap]. fold n.
  apply wp_bind. apply wp_int; [ulia|].
  apply wp_bind. apply wp_set_currentSize.
  set (h1 := <[Z.to_nat 0 := Some last]> (heap s)).
  assert (length h1 = length (heap s)) as Hlh1 by (unfold h1; now rewrite length_insert).
  assert (∀ i, 1 ≤ i → cell h1 i = cell (heap s) i) as Hagree.
  { intros i Hi. unfold h1. rewrite cell_insert by lia. now rewrite decide_False by lia. }
  assert (initialised h1 (n - 1)) as Hin1.
  { intros i Hi. destruct (decide (i = 0)) as [->|Hne].
    - unfold h1. rewrite cell_insert by lia. rewrite decide_True by reflexivity. eauto.
    - rewrite Hagree by lia. apply Hin. lia. }
  apply wp_bind. eapply wp_mono.
  - apply (bubbleDown_spec (n - 1)); cbn [heap currentSize with_currentSize with_heap];
      fold h1.
    + reflexivity.
    + lia.
    + lia.
    + destruct Hmax; [left; lia | now right].
    + assumption.
    + apply (ordered_down_inv (wt (heap s))).
      * now replace (n - 1 + 1) with n by lia.
      * intros i Hi. unfold wt. now rewrite Hagree by lia.
  - cbn beta. intros _ s2 (h2 & -> & Hre & Hord2).
    cbn [heap with_currentSize with_heap] in Hre. fold h1 in Hre.
    assert (initialised h2 (n - 1)) as Hin2
      by (apply (rearranged_initialised (n - 1) h1); [lia | assumption | assumption]).
    assert (length h2 = length (heap s)) as Hlh2 by (destruct Hre as [-> _]; assumption).
    assert (live s ≡ₚ root :: contents h2 (n - 1)) as Hperm.
    { unfold live. fold n. rewrite (rearranged_contents _ _ _ Hre).
      now apply contents_dequeue. }
    apply wp_bind. unfold size. apply wp_get. cbn [currentSize with_currentSize with_heap].
    apply wp_bind. apply wp_get. cbn [shrinkThreshold with_currentSize with_heap].
    apply wp_bind. apply wp_get. cbn [capacity with_currentSize with_heap].
    rewrite Ht, Qltb_shrink.
    apply wp_bind.
    apply (wp_mono _ _ (λ _ s3,
      Inv s3 ∧ currentSize s3 = n - 1 ∧ live s3 = contents h2 (n - 1) ∧
      capacity s3 = if 4 * (n - 1) <? capacity s
                    then Z.max INITIAL_CAPACITY (capacity s ÷ 2) else capacity s)).
    + destruct (4 * (n - 1) <? capacity s) eqn:E;
        [apply Z.ltb_lt in E | apply Z.ltb_ge in E].
      * pose proof (capacity_form_halve _ Hcap) as Hcap2.
        pose proof (capacity_form_bounds _ Hcap2) as Hcb2.
        apply wp_bind. apply wp_get. cbn [capacity with_currentSize with_heap].
        apply wp_bind. apply wp_get. cbn [growFactor with_currentSize with_heap].
        rewrite Hg. apply wp_bind. unfold static_cast_int. rewrite Qtrunc_shrink.
        assert (0 ≤ capacity s ÷ 2 ≤ capacity s) by (clear -Hcb; unfold INITIAL_CAPACITY in *; zlia).
        apply wp_int; [ulia|].
        assert (n - 1 ≤ capacity s ÷ 2) by (clear -E Hn; zlia).
        apply resize_spec; cbn [heap currentSize with_currentSize with_heap].
        -- lia.
        -- lia.
        -- assumption.
        -- intros h3 Hl3 Htake.
           assert (∀ i, 0 ≤ i < n - 1 → cell h3 i = cell h2 i) as Hag
             by (intros i Hi; now apply (take_cell _ _ (n - 1))).
           split; [|split; [reflexivity | split; [|reflexivity]]].
           ++ split; cbn.
              ** lia.
              ** assumption.
              ** assumption.
              ** assumption.
              ** assumption.
              ** now apply (agree_initialised h2).
              ** now apply (agree_ordered h2).
           ++ unfold live. cbn. now apply contents_take.
      * apply wp_ret. split; [|split; [reflexivity | split; reflexivity]].
        split; cbn; (assumption || lia).
    + cbn beta. intros _ s3 (Hinv3 & Hn3 & Hlive3 & Hc3).
      apply wp_ret. split; [assumption|]. split; [assumption|].
      split; [assumption|]. split; [|assumption].
      now rewrite Hlive3.
Qed.

End Specs.

(** ** What a run leaves behind *)

Lemma wp_or_completes {U A} (m : M A) s Q :
  wp_or U m s Q → completes (result (m s)) = true →
  ∃ a, result (m s) = Done a ∧ Q a (after (m s)).
Proof.
  intros [[_ Hu]|H] Hc; [|exact H]. rewrite Hu in Hc. discriminate.
Qed.

Lemma wp_total {A} (m : M A) s Q :
  wp_or False m s Q → ∃ a, result (m s) = Done a ∧ Q a (after (m s)).
Proof. intros [[[] _]|H]. exact H. Qed.

Lemma result_bind_done {A B} (m : M A) (k : A → M B) s a :
  result (m s) = Done a → result (bind m k s) = result (k a (after (m s))).
Proof. intros H. unfold bind. now rewrite H. Qed.

Lemma after_bind_done {A B} (m : M A) (k : A → M B) s a :
  result (m s) = Done a → after (bind m k s) = after (k a (after (m s))).
Proof. intros H. unfold bind. now rewrite H. Qed.

Lemma result_bind_undefined {A B} (m : M A) (k : A → M B) s :
  result (m s) = Undefined → result (bind m k s) = Undefined.
Proof. intros H. unfold bind. now rewrite H. Qed.

Lemma after_bind_ret {A B} (m : M A) (f : A → B) s :
  after (bind m (λ a, ret (f a)) s) = after (m s).
Proof. unfold bind. now destruct (result (m s)). Qed.

Lemma completes_bind_ret {A B} (m : M A) (f : A → B) s :
  completes (result (bind m (λ a, ret (f a)) s)) = completes (result (m s)).
Proof. unfold bind. now destruct (result (m s)). Qed.

Lemma result_bind_ret {A B} (m : M A) (f : A → B) s b :
  result (bind m (λ a, ret (f a)) s) = Done b ↔
  ∃ a, result (m s) = Done a ∧ b = f a.
Proof.
  unfold bind. destruct (result (m s)) as [a| | |]; cbn.
  - split; [intros [= <-]; eauto | intros (a' & [= <-] & ->); reflexivity].
  - split; [discriminate | intros (? & [=] & _)].
  - split; [discriminate | intros (? & [=] & _)].
  - split; [discriminate | intros (? & [=] & _)].
Qed.

(** *** The empty queue *)

Lemma bind_throw_eq {A B} (m : M A) (k : A → M B) s msg s' evs :
  m s = MkRun (Throw msg) s' evs → bind m k s = MkRun (Throw msg) s' evs.
Proof. intros H. unfold bind. now rewrite H. Qed.

Lemma bind_pure_eq {A B} (m : M A) (k : A → M B) s a :
  m s = MkRun (Done a) s [] → bind m k s = k a s.
Proof. intros H. unfold bind. rewrite H. cbn. now destruct (k a s). Qed.

Lemma isEmpty_run s : isEmpty s = MkRun (Done (currentSize s =? 0)) s [].
Proof. reflexivity. Qed.

Lemma peek_empty s :
  currentSize s = 0 → peek s = MkRun (Throw msg_peek) s [].
Proof.
  intros H. unfold peek. rewrite (bind_pure_eq _ _ _ _ (isEmpty_run s)), H.
  now apply bind_throw_eq.
Qed.

Lemma dequeue_empty s :
  currentSize s = 0 → dequeue s = MkRun (Throw msg_dequeue) s [].
Proof.
  intros H. unfold dequeue. rewrite (bind_pure_eq _ _ _ _ (isEmpty_run s)), H.
  now apply bind_throw_eq.
Qed.

Lemma peek_nonempty s :
  currentSize s ≠ 0 →
  peek s = match cell (heap s) 0 with
           | Some d => MkRun (Done d) s [Read 0]
           | None => MkRun Undefined s []
           end.
Proof.
  intros H. unfold peek. rewrite (bind_pure_eq _ _ _ _ (isEmpty_run s)).
  apply Z.eqb_neq in H. rewrite H.
  rewrite (bind_pure_eq (ret tt) _ s tt eq_refl).
  unfold load. now destruct (cell (heap s) 0).
Qed.

Lemma peek_after s : after (peek s) = s.
Proof.
  destruct (decide (currentSize s = 0)) as [E|E].
  - now rewrite peek_empty.
  - rewrite peek_nonempty by assumption. now destruct (cell (heap s) 0).
Qed.

Lemma peek_completes s :
  Inv s → completes (result (peek s)) = true.
Proof.
  intros HI. destruct (decide (currentSize s = 0)) as [E|E].
  - now rewrite peek_empty.
  - rewrite peek_nonempty by assumption.
    destruct (inv_init s HI 0 ltac:(pose proof (inv_size s HI); lia)) as [d ->].
    reflexivity.
Qed.

(** *** Completed calls keep the class invariant *)

Lemma call_Inv s c :
  Inv s → completes (result (invoke c s)) = true → Inv (after (invoke c s)).
Proof.
  intros HI Hc. destruct c as [data| | | |]; cbn [invoke] in *.
  - rewrite completes_bind_ret in Hc. rewrite after_bind_ret.
    destruct (wp_or_completes _ _ _ (enqueue_spec (U := True) data s HI (or_intror I)) Hc)
      as (_ & _ & H & _). exact H.
  - rewrite completes_bind_ret in Hc. rewrite after_bind_ret.
    destruct (decide (currentSize s = 0)) as [E|E].
    + now rewrite dequeue_empty.
    + pose proof (inv_size s HI) as Hsz.
      destruct (wp_or_completes _ _ _
                  (dequeue_spec (U := True) s HI ltac:(lia) (or_intror I)) Hc)
        as (_ & _ & H & _). exact H.
  - rewrite after_bind_ret. now rewrite peek_after.
  - exact HI.
  - exact HI.
Qed.

Lemma reachable_Inv s : reachable s → Inv s.
Proof.
  induction 1 as [|s c _ IH Hc]; [apply Inv_new | now apply call_Inv].
Qed.

Lemma Inv_heap_property s : Inv s → heap_property s.
Proof.
  intros HI i Hi. pose proof (par_lt i ltac:(lia)) as Hp.
  rewrite quot_par by lia.
  destruct (inv_init s HI (par i) ltac:(lia)) as [a Ha].
  destruct (inv_init s HI i ltac:(lia)) as [b Hb].
  exists a, b. split; [assumption|]. split; [assumption|].
  pose proof (inv_ord s HI i Hi) as Ho. unfold wt in Ho.
  now rewrite Ha, Hb in Ho.
Qed.

Lemma cell_contents h n i d :
  0 ≤ i < n → cell h i = Some d → d ∈ contents h n.
Proof.
  intros Hi [_ Hc]%cell_Some. unfold contents.
  apply list_elem_of_omap. exists (Some d). split; [|reflexivity].
  apply list_elem_of_lookup. exists (Z.to_nat i).
  apply lookup_take_Some. split; [assumption | lia].
Qed.

Lemma Inv_root_min s d x :
  Inv s → cell (heap s) 0 = Some d → x ∈ live s → weight d ≤ weight x.
Proof.
  intros HI Hd (i & Hi & Hx)%contents_elem.
  pose proof (ordered_root_min _ _ i (inv_ord s HI) Hi) as Hmin.
  unfold wt in Hmin. now rewrite Hd, Hx in Hmin.
Qed.

(** * The properties of the specification *)

(** C2. After every completed sequence of calls on a queue, the min-heap
    property holds over the live part of the buffer: for every index [i]
    with [1 <= i < currentSize], [heap[(i-1)/2].weight <= heap[i].weight]. *)
Theorem reachable_heap_property s : reachable s → heap_property s.
Proof. intros H. apply Inv_heap_property. now apply reachable_Inv. Qed.

(** C8. In every state reachable from construction the capacity is at
    least the initial capacity: the buffer never shrinks below this floor,
    also when the queue is empty. *)
Theorem reachable_capacity_floor s :
  reachable s → capacity HeapPQueue_new ≤ capacity s ∧ INITIAL_CAPACITY ≤ capacity s.
Proof.
  intros H. apply reachable_Inv in H.
  pose proof (capacity_form_bounds _ (inv_cap s H)). cbn. lia.
Qed.

(** C3. [dequeue()] and [peek()] on a queue with [currentSize == 0] raise
    the empty-queue error; the object is left as it was, [size()] is still
    0, and the event log of the call is empty: no slot of the buffer is
    read or written before the error is raised. *)
Theorem empty_queue_error_unchanged s :
  currentSize s = 0 →
  dequeue s = MkRun (Throw msg_dequeue) s [] ∧ EmptyQueueError msg_dequeue ∧
  peek s = MkRun (Throw msg_peek) s [] ∧ EmptyQueueError msg_peek ∧
  result (size (after (dequeue s))) = Done 0 ∧
  result (size (after (peek s))) = Done 0.
Proof.
  intros H. rewrite dequeue_empty, peek_empty by assumption. cbn.
  rewrite H. unfold EmptyQueueError. auto 10.
Qed.

(** C6. On a reachable queue with [currentSize > 0], [peek()] returns a
    stored element whose weight is less than or equal to the weight of
    every live element; it only reads slot 0 and leaves the object
    (currentSize, capacity, buffer) as it was. *)
Theorem peek_minimum s :
  reachable s → 0 < currentSize s →
  ∃ d, peek s = MkRun (Done d) s [Read 0] ∧ d ∈ live s ∧
       ∀ x, x ∈ live s → weight d ≤ weight x.
Proof.
  intros HI%reachable_Inv Hn.
  destruct (inv_init s HI 0 ltac:(lia)) as [d Hd]. exists d.
  rewrite peek_nonempty by lia. rewrite Hd. split; [reflexivity|]. split.
  - now apply (cell_contents _ _ 0).
  - intros x Hx. now apply (Inv_root_min s).
Qed.

(** C9. On a reachable queue with [currentSize > 0], the element that
    [dequeue()] returns is the element (name and weight) that [peek()]
    returns on the same state, the one in slot 0; [dequeue()] does return
    when [currentSize <= 2^30]. *)
Theorem dequeue_returns_peek s :
  reachable s → 0 < currentSize s →
  (∀ d, result (dequeue s) = Done d →
        result (peek s) = Done d ∧ cell (heap s) 0 = Some d) ∧
  (currentSize s ≤ 1073741824 →
   ∃ d, result (dequeue s) = Done d ∧ result (peek s) = Done d).
Proof.
  intros HI%reachable_Inv Hn.
  assert (∀ d, cell (heap s) 0 = Some d → result (peek s) = Done d) as Hpeek.
  { intros d Hd. rewrite peek_nonempty by lia. now rewrite Hd. }
  split.
  - intros d Hd.
    destruct (wp_or_completes _ _ _
                (dequeue_spec (U := True) s HI Hn (or_intror I))
                ltac:(now rewrite Hd)) as (d' & Hd' & _ & _ & Hc & _).
    assert (d' = d) as -> by congruence. auto.
  - intros Hmax.
    destruct (wp_total _ _ _ (dequeue_spec (U := False) s HI Hn (or_introl Hmax)))
      as (d & Hd & _ & _ & Hc & _).
    exists d. auto.
Qed.

(** ** The resize factors are never assigned *)

Lemma keeps_bind {A B} (m : M A) (k : A → M B) :
  keeps_factors m → (∀ a, keeps_factors (k a)) → keeps_factors (bind m k).
Proof.
  intros Hm Hk s. unfold bind. destruct (Hm s) as [Hg Ht].
  destruct (result (m s)) as [a| | |]; cbn; [|auto..].
  destruct (Hk a (after (m s))) as [Hg' Ht']. split; congruence.
Qed.

Lemma keeps_ret {A} (a : A) : keeps_factors (ret a).
Proof. intros s. auto. Qed.
Lemma keeps_throw {A} msg : keeps_factors (@throw A msg).
Proof. intros s. auto. Qed.
Lemma keeps_undefined {A} : keeps_factors (@undefined A).
Proof. intros s. auto. Qed.
Lemma keeps_out_of_fuel {A} : keeps_factors (@out_of_fuel A).
Proof. intros s. auto. Qed.
Lemma keeps_get {A} (f : HeapPQueue → A) : keeps_factors (get f).
Proof. intros s. auto. Qed.
Lemma keeps_emit e : keeps_factors (emit e).
Proof. intros s. auto. Qed.
Lemma keeps_set_currentSize n : keeps_factors (set_currentSize n).
Proof. intros s. auto. Qed.
Lemma keeps_set_capacity c : keeps_factors (set_capacity c).
Proof. intros s. auto. Qed.
Lemma keeps_set_heap h : keeps_factors (set_heap h).
Proof. intros s. auto. Qed.
Lemma keeps_int z : keeps_factors (int_ z).
Proof. unfold int_. destruct (in_int z); [apply keeps_ret | apply keeps_undefined]. Qed.
Lemma keeps_load i : keeps_factors (load i).
Proof. intros s. unfold load. destruct (cell (heap s) i); auto. Qed.
Lemma keeps_store i d : keeps_factors (store i d).
Proof. intros s. unfold store. destruct (in_bounds (heap s) i); auto. Qed.

Create HintDb keeps.
#[local] Hint Resolve keeps_ret keeps_throw keeps_undefined keeps_out_of_fuel
  keeps_get keeps_emit keeps_set_currentSize keeps_set_capacity keeps_set_heap
  keeps_int keeps_load keeps_store : keeps.

Ltac keeps_step :=
  match goal with
  | |- keeps_factors (bind _ _) => apply keeps_bind; [|intros ?]
  | |- keeps_factors (if ?b then _ else _) => destruct b
  | |- keeps_factors _ => solve [auto with keeps]
  end.

Lemma keeps_swap i j : keeps_factors (swap i j).
Proof. unfold swap. repeat keeps_step. Qed.

Lemma keeps_parent i : keeps_factors (parent i).
Proof. unfold parent. repeat keeps_step. Qed.

Lemma keeps_leftChild i : keeps_factors (leftChild i).
Proof. unfold leftChild. repeat keeps_step. Qed.

Lemma keeps_rightChild i : keeps_factors (rightChild i).
Proof. unfold rightChild. repeat keeps_step. Qed.

#[local] Hint Resolve keeps_swap keeps_parent keeps_leftChild keeps_rightChild : keeps.

Lemma keeps_bubbleUp_loop fuel : ∀ i, keeps_factors (bubbleUp_loop fuel i).
Proof.
  induction fuel as [|fuel IH]; intros i; cbn [bubbleUp_loop]; [auto with keeps|].
  repeat keeps_step; apply IH.
Qed.

Lemma keeps_bubbleDown_loop fuel : ∀ n i, keeps_factors (bubbleDown_loop fuel n i).
Proof.
  induction fuel as [|fuel IH]; intros n i; cbn [bubbleDown_loop]; [auto with keeps|].
  cbv zeta. repeat keeps_step; apply IH.
Qed.

Lemma keeps_copy_loop idx : ∀ newHeap, keeps_factors (copy_loop idx newHeap).
Proof.
  induction idx as [|i idx IH]; intros newHeap; cbn [copy_loop]; [auto with keeps|].
  repeat keeps_step; apply IH.
Qed.

Lemma keeps_resize k : keeps_factors (resize k).
Proof.
  unfold resize, new_array. repeat keeps_step. apply keeps_copy_loop.
Qed.

#[local] Hint Resolve keeps_resize : keeps.

Lemma keeps_enqueue data : keeps_factors (enqueue data).
Proof.
  unfold enqueue, size, static_cast_int, bubbleUp. repeat keeps_step.
  apply keeps_bubbleUp_loop.
Qed.

Lemma keeps_dequeue : keeps_factors dequeue.
Proof.
  unfold dequeue, isEmpty, size, static_cast_int, bubbleDown. repeat keeps_step.
  apply keeps_bubbleDown_loop.
Qed.

Lemma keeps_invoke c : keeps_factors (invoke c).
Proof.
  destruct c; cbn [invoke]; (apply keeps_bind; [|intros ?; apply keeps_ret]).
  - apply keeps_enqueue.
  - apply keeps_dequeue.
  - unfold peek, isEmpty. repeat keeps_step.
  - apply keeps_get.
  - unfold isEmpty. repeat keeps_step.
Qed.

(** C10. A freshly constructed queue has [currentSize] 0, [capacity] 100,
    grow factor 2.0 and shrink threshold 0.25, and no call of a public
    member function, from any state and whatever its outcome, changes the
    grow factor or the shrink threshold. *)
Theorem fresh_state_and_fixed_factors :
  (currentSize HeapPQueue_new = 0 ∧ capacity HeapPQueue_new = 100 ∧
   growFactor HeapPQueue_new = (2 # 1)%Q ∧
   shrinkThreshold HeapPQueue_new = (1 # 4)%Q) ∧
  (∀ s c, growFactor (after (invoke c s)) = growFactor s ∧
          shrinkThreshold (after (invoke c s)) = shrinkThreshold s) ∧
  (∀ s, reachable s →
        growFactor s = (2 # 1)%Q ∧ shrinkThreshold s = (1 # 4)%Q).
Proof.
  split; [repeat split|]. split.
  - intros s c. apply keeps_invoke.
  - intros s HI%reachable_Inv. split; [apply (inv_grow s HI) | apply (inv_shrink s HI)].
Qed.

(** ** Size accounting *)

Lemma count_delta c t :
  enqueued (count c t) - dequeued (count c t) = enqueued t - dequeued t + delta c.
Proof. destruct c; cbn; lia. Qed.

Lemma wp_or_not_throw {U A} (m : M A) s Q msg :
  wp_or U m s Q → result (m s) ≠ Throw msg.
Proof. intros [[_ H]|(a & H & _)]; rewrite H; discriminate. Qed.

Lemma result_bind_ret_throw {A B} (m : M A) (f : A → B) s msg :
  result (bind m (λ a, ret (f a)) s) = Throw msg → result (m s) = Throw msg.
Proof. unfold bind. destruct (result (m s)); cbn; congruence. Qed.

Lemma invoke_done_size s c r :
  Inv s → result (invoke c s) = Done r →
  currentSize (after (invoke c s)) = currentSize s + delta c.
Proof.
  intros HI Hr. pose proof (inv_size s HI) as Hsz.
  destruct c as [data| | | |]; cbn [invoke delta] in *.
  - apply result_bind_ret in Hr as (a & Ha & _). rewrite after_bind_ret.
    destruct (wp_or_completes _ _ _ (enqueue_spec (U := True) data s HI (or_intror I))
                ltac:(now rewrite Ha)) as (_ & _ & _ & H & _). exact H.
  - apply result_bind_ret in Hr as (a & Ha & _). rewrite after_bind_ret.
    destruct (decide (currentSize s = 0)) as [E|E].
    + rewrite dequeue_empty in Ha by assumption. discriminate.
    + destruct (wp_or_completes _ _ _
                  (dequeue_spec (U := True) s HI ltac:(lia) (or_intror I))
                  ltac:(now rewrite Ha)) as (_ & _ & _ & H & _). lia.
  - rewrite after_bind_ret, peek_after. lia.
  - cbn. lia.
  - cbn. lia.
Qed.

Lemma invoke_throw_state s c msg :
  Inv s → result (invoke c s) = Throw msg →
  after (invoke c s) = s ∧ EmptyQueueError msg ∧ currentSize s = 0.
Proof.
  intros HI Hr. pose proof (inv_size s HI) as Hsz.
  destruct c as [data| | | |]; cbn [invoke] in *.
  - apply result_bind_ret_throw in Hr.
    now apply (wp_or_not_throw _ _ _ _
                 (enqueue_spec (U := True) data s HI (or_intror I))) in Hr.
  - apply result_bind_ret_throw in Hr. rewrite after_bind_ret.
    destruct (decide (currentSize s = 0)) as [E|E].
    + rewrite dequeue_empty in * by assumption. cbn in *.
      injection Hr as <-. unfold EmptyQueueError. auto.
    + now apply (wp_or_not_throw _ _ _ _
                   (dequeue_spec (U := True) s HI ltac:(lia) (or_intror I))) in Hr.
  - apply result_bind_ret_throw in Hr. rewrite after_bind_ret, peek_after.
    destruct (decide (currentSize s = 0)) as [E|E].
    + rewrite peek_empty in Hr by assumption. cbn in Hr.
      injection Hr as <-. unfold EmptyQueueError. auto.
    + rewrite peek_nonempty in Hr by assumption.
      destruct (cell (heap s) 0); discriminate.
  - discriminate.
  - discriminate.
Qed.

Lemma run_calls_accounting cs : ∀ s t s' t',
  Inv s → currentSize s = enqueued t - dequeued t →
  run_calls cs s t = Some (s', t') →
  Inv s' ∧ currentSize s' = enqueued t' - dequeued t'.
Proof.
  induction cs as [|c cs IH]; intros s t s' t' HI Hn Hrun; cbn [run_calls] in Hrun.
  - injection Hrun as <- <-. auto.
  - destruct (result (invoke c s)) as [r|msg| |] eqn:E; try discriminate.
    + apply IH in Hrun; [assumption | | ].
      * apply call_Inv; [assumption | now rewrite E].
      * rewrite (invoke_done_size s c r HI E), count_delta. lia.
    + destruct (invoke_throw_state s c msg HI E) as (Hs & _ & _).
      rewrite Hs in Hrun. now apply IH in Hrun.
Qed.

Lemma run_calls_reachable cs : ∀ s t s' t',
  reachable s → run_calls cs s t = Some (s', t') → reachable s'.
Proof.
  induction cs as [|c cs IH]; intros s t s' t' Hs Hrun; cbn [run_calls] in Hrun.
  - now injection Hrun as <- <-.
  - destruct (result (invoke c s)) as [r|msg| |] eqn:E; try discriminate;
      (eapply IH; [|exact Hrun]); apply reachable_call; try assumption;
      now rewrite E.
Qed.


(** Below 2^30 elements every call completes. *)
Lemma invoke_completes s c :
  Inv s → currentSize s ≤ 1073741824 →
  completes (result (invoke c s)) = true.
Proof.
  intros HI Hn. pose proof (inv_size s HI) as Hsz.
  destruct c as [data| | | |]; cbn [invoke]; rewrite ?completes_bind_ret.
  - destruct (wp_total _ _ _
      (enqueue_spec (U := False) data s HI ltac:(left; ulia))) as (a & -> & _).
    reflexivity.
  - destruct (decide (currentSize s = 0)) as [E0|E0].
    + now rewrite dequeue_empty.
    + destruct (wp_total _ _ _
        (dequeue_spec (U := False) s HI ltac:(lia) (or_introl Hn))) as (a & -> & _).
      reflexivity.
  - now apply peek_completes.
  - reflexivity.
  - reflexivity.
Qed.

Lemma invoke_size_le s c :
  Inv s → completes (result (invoke c s)) = true →
  currentSize (after (invoke c s)) ≤ currentSize s + 1.
Proof.
  intros HI Hc. destruct (result (invoke c s)) as [r|msg| |] eqn:E; try discriminate.
  - rewrite (invoke_done_size s c r HI E). destruct c; cbn; lia.
  - destruct (invoke_throw_state s c msg HI E) as (-> & _). lia.
Qed.

(** A sequence of at most 2^30 calls on a fresh queue runs to its end. *)
Lemma run_calls_defined cs : ∀ s t,
  Inv s → currentSize s + Z.of_nat (length cs) ≤ 1073741824 →
  ∃ s' t', run_calls cs s t = Some (s', t').
Proof.
  induction cs as [|c cs IH]; intros s t HI Hn; cbn [run_calls].
  - eauto.
  - cbn [length] in Hn.
    pose proof (invoke_completes s c HI ltac:(lia)) as Hc.
    pose proof (invoke_size_le s c HI Hc) as Hle.
    pose proof (call_Inv s c HI Hc) as HI'.
    destruct (result (invoke c s)) as [r|msg| |]; try discriminate;
      apply IH; (assumption || lia).
Qed.

(** C7. At every point of any sequence of calls on a fresh queue,
    [size()] is the number of [enqueue] calls that returned minus the
    number of [dequeue] calls that returned (a [dequeue] that raised the
    empty-queue error is not counted), and [isEmpty()] returns true if and
    only if [size()] is 0. *)
Theorem size_accounting cs s t :
  run_calls cs HeapPQueue_new {| enqueued := 0; dequeued := 0 |} = Some (s, t) →
  result (size s) = Done (enqueued t - dequeued t) ∧
  ∃ b, result (isEmpty s) = Done b ∧ (b = true ↔ result (size s) = Done 0).
Proof.
  intros Hrun.
  destruct (run_calls_accounting cs HeapPQueue_new
              {| enqueued := 0; dequeued := 0 |} s t Inv_new eq_refl Hrun)
    as [_ Hn].
  cbn. split; [now rewrite Hn|].
  exists (currentSize s =? 0). split; [reflexivity|].
  rewrite Z.eqb_eq. split; [now intros -> | now intros [= ->]].
Qed.

(** ** Filling and emptying a queue *)

Lemma enqueue_all_spec {U} sequence : ∀ s,
  Inv s →
  currentSize s + Z.of_nat (length sequence) ≤ MAX_CAPACITY ∨ U →
  wp_or U (enqueue_all sequence) s
     (λ _ s', Inv s' ∧
              currentSize s' = currentSize s + Z.of_nat (length sequence) ∧
              live s' ≡ₚ sequence ++ live s).
Proof.
  induction sequence as [|elem rest IH]; intros s HI Hmax; cbn [enqueue_all].
  - apply wp_ret. cbn. split; [assumption|]. split; [lia | reflexivity].
  - cbn [length] in Hmax. apply wp_bind. eapply wp_mono.
    + apply enqueue_spec; [assumption|].
      destruct Hmax; [left; lia | now right].
    + cbn beta. intros _ s1 (HI1 & Hn1 & Hl1 & _).
      eapply wp_mono.
      * apply IH; [assumption|]. destruct Hmax; [left; lia | now right].
      * cbn beta. intros _ s2 (HI2 & Hn2 & Hl2).
        split; [assumption|]. split; [cbn [length]; lia|].
        rewrite Hl2, Hl1. cbn. now rewrite Permutation_middle.
Qed.

Lemma contents_zero h : contents h 0 = [].
Proof. reflexivity. Qed.

Lemma drain_loop_spec {U} fuel : ∀ s,
  Inv s → (Z.to_nat (currentSize s) < fuel)%nat →
  currentSize s ≤ 1073741824 ∨ U →
  wp_or U (drain_loop fuel) s
     (λ out s', Inv s' ∧ currentSize s' = 0 ∧ out ≡ₚ live s ∧
                StronglySorted Z.le (weight <$> out)).
Proof.
  induction fuel as [|fuel IH]; intros s HI Hf Hmax; [lia|].
  pose proof (inv_size s HI) as Hsz.
  cbn [drain_loop]. apply wp_bind. unfold isEmpty.
  apply wp_bind. apply wp_get. apply wp_ret.
  destruct (currentSize s =? 0) eqn:E; cbn [negb];
    [apply Z.eqb_eq in E | apply Z.eqb_neq in E].
  - apply wp_ret. split; [assumption|]. split; [assumption|].
    unfold live. rewrite E, contents_zero. split; [reflexivity | constructor].
  - apply wp_bind. eapply wp_mono.
    + apply dequeue_spec; [assumption | lia | assumption].
    + cbn beta. intros d s1 (HI1 & Hn1 & Hroot & Hperm & _).
      apply wp_bind. eapply wp_mono.
      * apply IH; [assumption | lia |].
        destruct Hmax; [left; lia | now right].
      * cbn beta. intros ds s2 (HI2 & Hn2 & Hds & Hsorted).
        apply wp_ret. split; [assumption|]. split; [assumption|].
        split; [now rewrite Hperm, Hds|].
        cbn. constructor; [assumption|].
        apply Forall_fmap, Forall_forall. intros x Hx. cbn.
        apply (Inv_root_min s d x HI Hroot).
        rewrite Hperm. right. now rewrite <- Hds.
Qed.

Lemma drain_spec {U} s :
  Inv s → currentSize s ≤ 1073741824 ∨ U →
  wp_or U drain s
     (λ out s', Inv s' ∧ currentSize s' = 0 ∧ out ≡ₚ live s ∧
                StronglySorted Z.le (weight <$> out)).
Proof.
  intros HI Hmax. unfold drain. apply wp_bind. unfold size. apply wp_get.
  apply drain_loop_spec; [assumption | lia | assumption].
Qed.

(** C1 (amended). For every sequence of at most 2^30 elements, in any
    order and with any weights, enqueuing the sequence into a freshly
    constructed queue succeeds, and calling [dequeue] until the queue is
    empty then yields the weights in non-decreasing order; the elements
    dequeued are the elements enqueued, each as often as it was enqueued
    (equal weights are not merged), so the number of dequeues equals the
    number of enqueues. *)
Theorem enqueue_all_drain_sorted (sequence : list DataPoint) :
  Z.of_nat (length sequence) ≤ 1073741824 →
  let filled := enqueue_all sequence HeapPQueue_new in
  let drained := drain (after filled) in
  result filled = Done tt ∧
  ∃ out, result drained = Done out ∧
         Sorted Z.le (weight <$> out) ∧
         out ≡ₚ sequence ∧
         length out = length sequence ∧
         currentSize (after drained) = 0.
Proof.
  intros Hlen filled drained.
  destruct (wp_total _ _ _
    (enqueue_all_spec (U := False) sequence HeapPQueue_new Inv_new
       ltac:(left; cbn; ulia))) as ([] & Hfill & HI & Hn & Hlive).
  fold filled in Hfill, HI, Hn, Hlive. cbn in Hn.
  split; [assumption|].
  destruct (wp_total _ _ _
    (drain_spec (U := False) (after filled) HI ltac:(left; lia)))
    as (out & Hout & _ & H0 & Hperm & Hsorted).
  fold drained in Hout, H0.
  assert (out ≡ₚ sequence) as Hp.
  { rewrite Hperm, Hlive. unfold live. cbn. now rewrite app_nil_r. }
  exists out. split; [assumption|]. split; [now apply StronglySorted_Sorted|].
  split; [assumption|]. split; [now rewrite Hp | assumption].
Qed.

(** ** Where [int] runs out *)

Lemma und_bind {A B} (m : M A) (k : A → M B) s :
  wp_or False m s (λ a s1, result (k a s1) = Undefined) →
  result (bind m k s) = Undefined.
Proof.
  intros (a & Ha & Hk)%wp_total. now rewrite (result_bind_done _ _ _ _ Ha).
Qed.

(** At the largest capacity a full queue cannot grow: twice the capacity
    does not fit an [int]. *)
Lemma enqueue_at_max data s :
  Inv s → currentSize s = MAX_CAPACITY →
  currentSize s = capacity s ∧
  result (static_cast_int (inject_Z (capacity s) * growFactor s)%Q s) = Undefined ∧
  result (enqueue data s) = Undefined.
Proof.
  intros HI Hn. pose proof (inv_size s HI) as Hsz.
  pose proof (capacity_form_bounds _ (inv_cap s HI)) as Hcb.
  assert (capacity s = MAX_CAPACITY) as Hc by lia.
  assert (result (static_cast_int (inject_Z (capacity s) * growFactor s)%Q s)
          = Undefined) as Hcast.
  { rewrite (inv_grow s HI). unfold static_cast_int. rewrite Qtrunc_grow, Hc.
    reflexivity. }
  split; [lia|]. split; [assumption|].
  unfold enqueue. apply und_bind. unfold size. apply wp_get.
  apply und_bind. apply wp_get.
  apply result_bind_undefined.
  replace (currentSize s =? capacity s) with true by (symmetry; apply Z.eqb_eq; lia).
  apply und_bind. apply wp_get.
  now apply result_bind_undefined.
Qed.

Lemma enqueue_all_reachable sequence : ∀ s,
  reachable s → result (enqueue_all sequence s) = Done tt →
  reachable (after (enqueue_all sequence s)).
Proof.
  induction sequence as [|elem rest IH]; intros s Hs Hr; cbn [enqueue_all] in *.
  - exact Hs.
  - destruct (result (enqueue elem s)) as [[]| | |] eqn:E;
      try (unfold bind in Hr; rewrite E in Hr; discriminate).
    rewrite (result_bind_done _ _ _ _ E) in Hr.
    rewrite (after_bind_done _ _ _ _ E).
    apply IH; [|assumption].
    rewrite <- (after_bind_ret (enqueue elem) (λ _, Void)).
    apply (reachable_call s (Enqueue elem)); [assumption|].
    cbn [invoke]. rewrite completes_bind_ret. now rewrite E.
Qed.

Lemma enqueue_keeps_order data s :
  Inv s → currentSize s < MAX_CAPACITY →
  (∀ i, 0 ≤ i < currentSize s → wt (heap s) i ≤ weight data) →
  wp_or False (enqueue data) s
     (λ _ s', Inv s' ∧ currentSize s' = currentSize s + 1 ∧
              wt (heap s') (currentSize s) = weight data ∧
              ∀ i, 0 ≤ i < currentSize s → wt (heap s') i = wt (heap s) i).
Proof.
  intros HI Hmax Hle. pose proof (inv_size s HI) as Hsz.
  eapply wp_mono; [apply enqueue_spec; [assumption | now left]|].
  cbn beta. intros _ s' (HI' & Hn' & _ & _ & Hpos).
  split; [assumption|]. split; [assumption|].
  destruct Hpos as [Hnew Hold].
  { destruct (decide (currentSize s = 0)) as [?|Hne]; [now left | right].
    apply Hle. pose proof (par_lt (currentSize s)). lia. }
  split; [now apply wt_cell|].
  intros i Hi. unfold wt. now rewrite Hold.
Qed.

(** Enqueuing [m] elements of weight 0 and then one of weight 1 into a
    queue that holds only weights 0 leaves the weights in enqueue order. *)
Lemma blanks_then_heavy_spec (m : nat) : ∀ s,
  Inv s → (∀ i, 0 ≤ i < currentSize s → wt (heap s) i = 0) →
  currentSize s + Z.of_nat m < MAX_CAPACITY →
  wp_or False (enqueue_all (replicate m blank ++ [heavy])) s
     (λ _ s', Inv s' ∧ currentSize s' = currentSize s + Z.of_nat m + 1 ∧
              (∀ i, 0 ≤ i < currentSize s + Z.of_nat m → wt (heap s') i = 0) ∧
              wt (heap s') (currentSize s + Z.of_nat m) = 1).
Proof.
  induction m as [|m IH]; intros s HI Hzero Hmax;
    cbn [replicate app enqueue_all].
  - apply wp_bind. eapply wp_mono.
    + apply (enqueue_keeps_order heavy); [assumption | lia |].
      intros i Hi. rewrite Hzero by assumption. cbn. lia.
    + cbn beta. intros _ s' (HI' & Hn' & Hnew & Hold). apply wp_ret.
      split; [assumption|]. split; [lia|]. split.
      * intros i Hi. rewrite Hold by lia. apply Hzero. lia.
      * now replace (currentSize s + Z.of_nat 0) with (currentSize s) by lia.
  - apply wp_bind. eapply wp_mono.
    + apply (enqueue_keeps_order blank); [assumption | lia |].
      intros i Hi. rewrite Hzero by assumption. cbn. lia.
    + cbn beta. intros _ s' (HI' & Hn' & Hnew & Hold).
      eapply wp_mono.
      * apply IH; [assumption | | lia].
        intros i Hi. destruct (decide (i = currentSize s)) as [->|Hne].
        -- exact Hnew.
        -- rewrite Hold by lia. apply Hzero. lia.
      * cbn beta. intros _ s'' (HI'' & Hn'' & Hz'' & Hh'').
        split; [assumption|]. split; [lia|]. split.
        -- intros i Hi. apply Hz''. lia.
        -- now replace (currentSize s + Z.of_nat (S m))
             with (currentSize s' + Z.of_nat m) by lia.
Qed.

(** [bubbleDown] follows the leftmost path of a heap of 2^30 elements to
    its last node, index 2^30 - 1, whose right child index 2^31 is not an
    [int]. *)
Lemma sink_overflow (j : nat) : ∀ k fuel s,
  0 ≤ k → (k + 1) * 2 ^ Z.of_nat j = 1073741824 → (j < fuel)%nat →
  1073741824 ≤ Z.of_nat (length (heap s)) →
  initialised (heap s) 1073741824 →
  wt (heap s) k = 1 →
  (∀ i, k < i < 1073741824 → wt (heap s) i = 0) →
  result (bubbleDown_loop fuel 1073741824 k s) = Undefined.
Proof.
  induction j as [|j IH]; intros k fuel s Hk Hpow Hf Hlen Hin Hwk Hzero;
    (destruct fuel as [|fuel]; [lia|]); cbn [bubbleDown_loop].
  - change (2 ^ Z.of_nat 0) with 1 in Hpow.
    assert (k = 1073741823) as -> by lia.
    apply und_bind. apply wp_leftChild; [lia | left; unfold INT_MAX; lia |].
    apply result_bind_undefined. reflexivity.
  - rewrite Nat2Z.inj_succ, Z.pow_succ_r in Hpow by lia.
    assert (1 ≤ 2 ^ Z.of_nat j) by (apply (Z.pow_le_mono_r 2 0); lia).
    assert (2 * k + 2 ≤ 1073741824) as Hc by nia.
    apply und_bind. apply wp_leftChild; [lia | left; unfold INT_MAX; lia |].
    apply und_bind. apply wp_rightChild; [lia | left; unfold INT_MAX; lia |].
    cbv zeta.
    apply und_bind. apply (wp_mono _ _ (λ c s', s' = s ∧ c = 2 * k + 1)).
    { replace (2 * k + 1 <? 1073741824) with true by (symmetry; apply Z.ltb_lt; lia).
      apply wp_bind. apply (wp_load_init 1073741824); [assumption | lia |].
      intros a _ Ha. rewrite Hzero in Ha by lia.
      apply wp_bind. apply (wp_load_init 1073741824); [assumption | lia |].
      intros b _ Hb. rewrite Hwk in Hb.
      apply wp_ret. rewrite <- Ha, <- Hb. auto. }
    intros c1 s' [-> ->].
    apply und_bind. apply (wp_mono _ _ (λ c s', s' = s ∧ c = 2 * k + 1)).
    { destruct (2 * k + 2 <? 1073741824) eqn:Er.
      - apply Z.ltb_lt in Er.
        apply wp_bind. apply (wp_load_init 1073741824); [assumption | lia |].
        intros a _ Ha. rewrite Hzero in Ha by lia.
        apply wp_bind. apply (wp_load_init 1073741824); [assumption | lia |].
        intros b _ Hb. rewrite Hzero in Hb by lia.
        apply wp_ret. rewrite <- Ha, <- Hb. auto.
      - apply wp_ret. auto. }
    intros c2 s' [-> ->].
    replace (2 * k + 1 =? k) with false by (symmetry; apply Z.eqb_neq; lia).
    cbn [negb]. apply und_bind.
    apply (wp_swap 1073741824); [lia | lia | assumption | assumption |].
    intros h' Hre Hwt. apply (IH (2 * k + 1)); cbn [heap with_heap].
    + lia.
    + lia.
    + lia.
    + destruct Hre as [-> _]. assumption.
    + now apply (rearranged_initialised _ (heap s)).
    + rewrite Hwt. unfold swap_fn. rewrite decide_False by lia.
      now rewrite decide_True.
    + intros i Hi. rewrite Hwt. unfold swap_fn.
      rewrite !decide_False by lia. apply Hzero. lia.
Qed.

Lemma dequeue_sink_overflow s :
  Inv s → currentSize s = 1073741825 →
  (∀ i, 0 ≤ i < 1073741824 → wt (heap s) i = 0) →
  wt (heap s) 1073741824 = 1 →
  result (dequeue s) = Undefined.
Proof.
  intros HI Hn Hzero Hheavy. pose proof (inv_size s HI) as Hsz.
  pose proof (inv_len s HI) as Hlen. pose proof (inv_init s HI) as Hin.
  pose proof (capacity_form_bounds _ (inv_cap s HI)) as Hcb.
  rewrite Hn in Hsz, Hin.
  unfold dequeue. apply und_bind. unfold isEmpty.
  apply wp_bind. apply wp_get. apply wp_ret. rewrite Hn.
  change (1073741825 =? 0) with false.
  apply und_bind. apply wp_ret.
  apply und_bind. apply (wp_load_init 1073741825); [assumption | lia |].
  intros root _ _.
  apply und_bind. apply wp_get. rewrite Hn.
  apply und_bind. apply wp_int; [ulia|]. change (1073741825 - 1) with 1073741824.
  apply und_bind. apply (wp_load_init 1073741825); [assumption | lia |].
  intros last _ Hlast. rewrite Hheavy in Hlast.
  apply und_bind. apply wp_store; [lia|].
  apply und_bind. apply wp_get. cbn [currentSize with_heap]. rewrite Hn.
  apply und_bind. apply wp_int; [ulia|]. change (1073741825 - 1) with 1073741824.
  apply und_bind. apply wp_set_currentSize.
  apply result_bind_undefined.
  unfold bubbleDown. apply und_bind. apply wp_get.
  cbn [currentSize with_currentSize with_heap].
  set (h1 := <[Z.to_nat 0 := Some last]> (heap s)).
  assert (∀ i, wt h1 i = if decide (i = 0) then 1 else wt (heap s) i) as Hw1.
  { intros i. unfold h1. rewrite wt_insert by lia. now rewrite <- Hlast. }
  apply (sink_overflow 30 0); cbn [heap with_currentSize with_heap]; fold h1.
  - lia.
  - reflexivity.
  - lia.
  - unfold h1. rewrite length_insert. lia.
  - intros i Hi. unfold h1. rewrite cell_insert by lia.
    destruct (decide (i = 0)); [eauto | apply Hin; lia].
  - now rewrite Hw1.
  - intros i Hi. rewrite Hw1, decide_False by lia. apply Hzero. lia.
Qed.

Lemma drain_overflow (m : nat) :
  Z.of_nat m = 1073741824 →
  let filled := enqueue_all (replicate m blank ++ [heavy]) HeapPQueue_new in
  result filled = Done tt ∧ result (drain (after filled)) = Undefined.
Proof.
  intros Hm filled.
  destruct (wp_total _ _ _
    (blanks_then_heavy_spec m HeapPQueue_new Inv_new
       ltac:(intros i Hi; cbn in Hi; lia)
       ltac:(rewrite Hm; cbn; ulia)))
    as ([] & Hfill & HI & Hn & Hzero & Hheavy).
  fold filled in Hfill, HI, Hn, Hzero, Hheavy.
  rewrite Hm in Hn, Hzero, Hheavy.
  change (currentSize HeapPQueue_new) with 0 in Hn, Hzero, Hheavy.
  split; [assumption|].
  unfold drain. apply und_bind. unfold size. apply wp_get.
  cbn [drain_loop]. apply und_bind. unfold isEmpty.
  apply wp_bind. apply wp_get. apply wp_ret. rewrite Hn.
  change (0 + 1073741824 + 1 =? 0) with false. cbn [negb].
  apply result_bind_undefined.
  apply dequeue_sink_overflow; [assumption | lia | | assumption].
  intros i Hi. apply Hzero. lia.
Qed.

Lemma enqueue_overflow (m : nat) :
  Z.of_nat m = MAX_CAPACITY →
  let s := after (enqueue_all (replicate m blank) HeapPQueue_new) in
  reachable s ∧ currentSize s = capacity s ∧
  result (static_cast_int (inject_Z (capacity s) * growFactor s)%Q s) = Undefined ∧
  ∀ data, result (enqueue data s) = Undefined.
Proof.
  intros Hm s.
  destruct (wp_total _ _ _
    (enqueue_all_spec (U := False) (replicate m blank) HeapPQueue_new Inv_new
       ltac:(left; rewrite length_replicate, Hm; cbn; lia)))
    as ([] & Hfill & HI & Hn & _).
  fold s in HI, Hn. rewrite length_replicate, Hm in Hn.
  change (currentSize HeapPQueue_new) with 0 in Hn.
  destruct (enqueue_at_max blank s HI ltac:(lia)) as (Hfull & Hcast & _).
  split; [apply enqueue_all_reachable; [constructor | assumption]|].
  split; [assumption|]. split; [assumption|].
  intros data. now apply (enqueue_at_max data s HI ltac:(lia)).
Qed.

(** C1, counterexample.  2^30 elements of weight 0 followed by one of
    weight 1 are enqueued without trouble; the first [dequeue] moves the
    last element to the root and sifts it down the leftmost path to index
    2^30 - 1, where [rightChild] computes 2 * index + 2 = 2^31, which is
    not an [int]: the drain has no defined result. *)
Lemma drain_overflow_counterexample :
  let sequence := replicate (Z.to_nat 1073741824) blank ++ [heavy] in
  let filled := enqueue_all sequence HeapPQueue_new in
  let drained := drain (after filled) in
  result filled = Done tt ∧
  result drained = Undefined ∧
  ¬ ∃ out, result drained = Done out ∧ Sorted Z.le (weight <$> out) ∧
           length out = length sequence.
Proof.
  intros sequence filled drained.
  destruct (drain_overflow (Z.to_nat 1073741824) (Z2Nat.id 1073741824 ltac:(lia)))
    as [Hfill Hund].
  split; [exact Hfill|]. split; [exact Hund|].
  intros (out & Hout & _).
  pose proof (eq_trans (eq_sym Hund) Hout) as Hbad. discriminate Hbad.
Qed.

(** C5, counterexample.  After 1677721600 = 100 * 2^24 elements have been
    enqueued the queue is full at the largest capacity; the argument of
    the grow call, [static_cast<int>(capacity * growFactor)], is the
    conversion of 3355443200.0, which is not an [int]: no argument greater
    than or equal to [currentSize] is passed, and the next [enqueue] has
    no defined behaviour. *)
Lemma grow_overflow_counterexample :
  let s := after (enqueue_all (replicate (Z.to_nat 1677721600) blank)
                              HeapPQueue_new) in
  reachable s ∧ currentSize s = capacity s ∧
  result (static_cast_int (inject_Z (capacity s) * growFactor s)%Q s) = Undefined ∧
  (¬ ∃ k, result (static_cast_int (inject_Z (capacity s) * growFactor s)%Q s)
          = Done k ∧ currentSize s ≤ k) ∧
  ∀ data, result (enqueue data s) = Undefined.
Proof.
  intros s.
  destruct (enqueue_overflow (Z.to_nat 1677721600) (Z2Nat.id 1677721600 ltac:(lia)))
    as (Hreach & Hfull & Hcast & Henq).
  split; [exact Hreach|]. split; [exact Hfull|]. split; [exact Hcast|].
  split; [|exact Henq].
  intros (k & Hk & _).
  pose proof (eq_trans (eq_sym Hcast) Hk) as Hbad. discriminate Hbad.
Qed.

(** ** [resize] and its error *)

Lemma result_bind_throw {A B} (m : M A) (k : A → M B) s msg :
  result (bind m k s) = Throw msg →
  result (m s) = Throw msg ∨
  ∃ a, result (m s) = Done a ∧ result (k a (after (m s))) = Throw msg.
Proof.
  unfold bind. destruct (result (m s)) as [a|msg'| |]; cbn; intros H.
  - right. eauto.
  - left. now injection H as ->.
  - discriminate.
  - discriminate.
Qed.

Lemma copy_loop_no_throw idx : ∀ newHeap s msg,
  result (copy_loop idx newHeap s) ≠ Throw msg.
Proof.
  induction idx as [|i idx IH]; intros newHeap s msg H; cbn [copy_loop] in H.
  - discriminate.
  - apply result_bind_throw in H as [H|(d & _ & H)].
    + unfold load in H. destruct (cell (heap s) i); discriminate.
    + destruct (in_bounds newHeap i); [|discriminate].
      apply result_bind_throw in H as [H|(_ & _ & H)]; [discriminate|].
      now apply IH in H.
Qed.

Lemma resize_throw_iff newCapacity s :
  result (resize newCapacity s) = Throw msg_resize ↔ newCapacity < currentSize s.
Proof.
  unfold resize. split.
  - intros H. apply result_bind_throw in H as [H|(n & Hn & H)]; [discriminate|].
    cbn in Hn. injection Hn as <-. cbn [after get] in H.
    destruct (newCapacity <? currentSize s) eqn:E; [now apply Z.ltb_lt in E|].
    exfalso.
    apply result_bind_throw in H as [H|(_ & _ & H)]; [discriminate|].
    cbn [after ret] in H. unfold new_array in H.
    apply result_bind_throw in H as [H|(h & _ & H)].
    { destruct (newCapacity <? 0); [|discriminate].
      cbn in H. unfold msg_new, msg_resize in H. discriminate. }
    apply result_bind_throw in H as [H|(n' & _ & H)]; [discriminate|].
    apply result_bind_throw in H as [H|(h' & _ & H)];
      [now apply copy_loop_no_throw in H|].
    apply result_bind_throw in H as [H|(_ & _ & H)]; [discriminate|].
    apply result_bind_throw in H as [H|(_ & _ & H)]; discriminate.
  - intros H. rewrite (bind_pure_eq (get currentSize) _ s _ eq_refl).
    apply Z.ltb_lt in H. rewrite H.
    now rewrite (bind_throw_eq (throw msg_resize) _ s msg_resize s [] eq_refl).
Qed.

(** ** The resizing scenario of the student test *)

(** C4 (amended). From a fresh queue, enqueuing 120 elements with weights
    0..119 causes exactly one grow reallocation (capacity 100 to 200);
    dequeuing 100 elements then removes the weights 0..99 in order and
    causes one shrink reallocation (200 to 100), followed by five
    reallocations at the unchanged capacity 100; enqueuing 30 more
    elements with weights 120..149 reallocates nothing, and draining the
    queue yields exactly the elements with weights 100..149 in ascending
    order, none lost or changed, leaving the queue empty. *)
Theorem resize_scenario :
  (result scenario_filled = Done tt ∧
   reallocations 100 (events scenario_filled) = [(100, 200)] ∧
   length (grows (reallocations 100 (events scenario_filled))) = 1%nat) ∧
  (result scenario_removed = Done (elem <$> seqZ 0 100) ∧
   reallocations 200 (events scenario_removed) = (200, 100) :: replicate 5 (100, 100) ∧
   length (shrinks (reallocations 200 (events scenario_removed))) = 1%nat) ∧
  (result scenario_refilled = Done tt ∧
   reallocations 100 (events scenario_refilled) = []) ∧
  (result scenario_drained = Done (elem <$> seqZ 100 50) ∧
   weight <$> (elem <$> seqZ 100 50) = seqZ 100 50 ∧
   currentSize (after scenario_drained) = 0).
Proof.
  split; [|split; [|split]].
  - split; [|split]; vm_compute; reflexivity.
  - split; [|split]; vm_compute; reflexivity.
  - split; vm_compute; reflexivity.
  - split; [|split]; vm_compute; reflexivity.
Qed.

(** C4, counterexample.  Enqueuing the 120 elements causes one grow
    reallocation, not two or more: the buffer starts with 100 slots and
    the single doubling to 200 holds all 120 elements. *)
Lemma resize_scenario_one_grow :
  result scenario_filled = Done tt ∧
  ¬ (2 ≤ length (grows (reallocations 100 (events scenario_filled))))%nat.
Proof.
  split; [vm_compute; reflexivity|].
  replace (length (grows (reallocations 100 (events scenario_filled)))) with 1%nat
    by (vm_compute; reflexivity).
  lia.
Qed.

(** ** Further properties of the member functions *)


(** Every sequence of at most 2^30 calls on a fresh queue runs to its end
    with defined behaviour. *)
Theorem fresh_run_defined cs :
  Z.of_nat (length cs) ≤ 1073741824 →
  ∃ s t, run_calls cs HeapPQueue_new {| enqueued := 0; dequeued := 0 |}
         = Some (s, t).
Proof. intros H. apply run_calls_defined; [apply Inv_new | cbn; lia]. Qed.

(** [enqueue] on a reachable queue of fewer than 1677721600 elements
    returns; afterwards the queue holds the old elements and the new one,
    and the capacity has doubled exactly when the queue was full. *)
Theorem enqueue_adds s data :
  reachable s → currentSize s < MAX_CAPACITY →
  let r := enqueue data s in
  result r = Done tt ∧
  currentSize (after r) = currentSize s + 1 ∧
  live (after r) ≡ₚ data :: live s ∧
  capacity (after r) = (if currentSize s =? capacity s
                        then 2 * capacity s else capacity s).
Proof.
  intros HI%reachable_Inv Hn r.
  destruct (wp_total _ _ _ (enqueue_spec (U := False) data s HI (or_introl Hn)))
    as ([] & Hr & _ & Hsize & Hlive & Hcap & _).
  auto.
Qed.

(** [dequeue] on a reachable queue of at least one and at most 2^30
    elements returns an element of least weight; afterwards the queue
    holds the other elements. *)
Theorem dequeue_removes_minimum s :
  reachable s → 0 < currentSize s → currentSize s ≤ 1073741824 →
  let r := dequeue s in
  ∃ d, result r = Done d ∧
       currentSize (after r) = currentSize s - 1 ∧
       live s ≡ₚ d :: live (after r) ∧
       ∀ x, x ∈ live s → weight d ≤ weight x.
Proof.
  intros HI%reachable_Inv Hn Hmax r.
  destruct (wp_total _ _ _ (dequeue_spec (U := False) s HI Hn (or_introl Hmax)))
    as (d & Hr & _ & Hsize & Hroot & Hlive & _).
  exists d. split; [assumption|]. split; [assumption|]. split; [assumption|].
  intros x Hx. now apply (Inv_root_min s).
Qed.

(** On a reachable queue the live elements fit the buffer, the buffer has
    [capacity] slots, and the capacity is 100 * 2^k for some k from 0 to
    24, hence at most 1677721600. *)
Theorem reachable_bounds s :
  reachable s →
  0 ≤ currentSize s ≤ capacity s ∧
  Z.of_nat (length (heap s)) = capacity s ∧
  capacity_form (capacity s) ∧ capacity s ≤ MAX_CAPACITY.
Proof.
  intros HI%reachable_Inv.
  pose proof (capacity_form_bounds _ (inv_cap s HI)).
  split; [apply (inv_size s HI)|]. split; [apply (inv_len s HI)|].
  split; [apply (inv_cap s HI) | lia].
Qed.

(** ** Runs with their event logs *)

Lemma bind_done_inv {A B} (m : M A) (k : A → M B) s b :
  result (bind m k s) = Done b →
  ∃ a, result (m s) = Done a ∧
       result (k a (after (m s))) = Done b ∧
       after (bind m k s) = after (k a (after (m s))) ∧
       events (bind m k s) = events (m s) ++ events (k a (after (m s))).
Proof.
  unfold bind. destruct (result (m s)) as [a| | |]; cbn; intros H; try discriminate.
  exists a. auto.
Qed.

Lemma allocations_app e1 e2 :
  allocations (e1 ++ e2) = allocations e1 ++ allocations e2.
Proof. apply omap_app. Qed.

Lemma frees_app e1 e2 : frees (e1 ++ e2) = (frees e1 + frees e2)%nat.
Proof. unfold frees. now rewrite omap_app, length_app. Qed.

Lemma calm_bind {A B} (m : M A) (k : A → M B) :
  calm m → (∀ a, calm (k a)) → calm (bind m k).
Proof.
  intros Hm Hk s. unfold bind. destruct (Hm s) as (Ha & Hf & Hc & Hl).
  destruct (result (m s)) as [a| | |]; cbn [result after events]; [|auto..].
  destruct (Hk a (after (m s))) as (Ha' & Hf' & Hc' & Hl').
  rewrite allocations_app, frees_app, Ha, Ha', Hf, Hf'.
  repeat split; congruence.
Qed.

Lemma calm_ret {A} (a : A) : calm (ret a).
Proof. intros s. cbn. auto. Qed.
Lemma calm_throw {A} msg : calm (@throw A msg).
Proof. intros s. cbn. auto. Qed.
Lemma calm_undefined {A} : calm (@undefined A).
Proof. intros s. cbn. auto. Qed.
Lemma calm_out_of_fuel {A} : calm (@out_of_fuel A).
Proof. intros s. cbn. auto. Qed.
Lemma calm_get {A} (f : HeapPQueue → A) : calm (get f).
Proof. intros s. cbn. auto. Qed.
Lemma calm_set_currentSize n : calm (set_currentSize n).
Proof. intros s. cbn. auto. Qed.
Lemma calm_int z : calm (int_ z).
Proof. unfold int_. destruct (in_int z); [apply calm_ret | apply calm_undefined]. Qed.
Lemma calm_load i : calm (load i).
Proof. intros s. unfold load. destruct (cell (heap s) i); cbn; auto. Qed.
Lemma calm_store i d : calm (store i d).
Proof.
  intros s. unfold store. destruct (in_bounds (heap s) i); cbn; [|auto].
  rewrite length_insert. auto.
Qed.

Create HintDb calm.
#[local] Hint Resolve calm_ret calm_throw calm_undefined calm_out_of_fuel
  calm_get calm_set_currentSize calm_int calm_load calm_store : calm.

Ltac calm_step :=
  match goal with
  | |- calm (bind _ _) => apply calm_bind; [|intros ?]
  | |- calm (if ?b then _ else _) => destruct b
  | |- calm _ => solve [auto with calm]
  end.

Lemma calm_swap i j : calm (swap i j).
Proof. unfold swap. repeat calm_step. Qed.
Lemma calm_parent i : calm (parent i).
Proof. unfold parent. repeat calm_step. Qed.
Lemma calm_leftChild i : calm (leftChild i).
Proof. unfold leftChild. repeat calm_step. Qed.
Lemma calm_rightChild i : calm (rightChild i).
Proof. unfold rightChild. repeat calm_step. Qed.

#[local] Hint Resolve calm_swap calm_parent calm_leftChild calm_rightChild : calm.

Lemma calm_bubbleUp_loop fuel : ∀ i, calm (bubbleUp_loop fuel i).
Proof.
  induction fuel as [|fuel IH]; intros i; cbn [bubbleUp_loop]; [auto with calm|].
  repeat calm_step; apply IH.
Qed.

Lemma calm_bubbleDown_loop fuel : ∀ n i, calm (bubbleDown_loop fuel n i).
Proof.
  induction fuel as [|fuel IH]; intros n i; cbn [bubbleDown_loop]; [auto with calm|].
  cbv zeta. repeat calm_step; apply IH.
Qed.

Lemma calm_bubbleUp i : calm (bubbleUp i).
Proof. apply calm_bubbleUp_loop. Qed.

Lemma calm_bubbleDown i : calm (bubbleDown i).
Proof.
  unfold bubbleDown. apply calm_bind; [apply calm_get|].
  intros n. apply calm_bubbleDown_loop.
Qed.

#[local] Hint Resolve calm_bubbleUp calm_bubbleDown : calm.

Lemma keeps_size_bind {A B} (m : M A) (k : A → M B) :
  keeps_size m → (∀ a, keeps_size (k a)) → keeps_size (bind m k).
Proof.
  intros Hm Hk s. unfold bind. pose proof (Hm s) as H.
  destruct (result (m s)) as [a| | |]; cbn [result after events]; [|auto..].
  now rewrite (Hk a (after (m s))).
Qed.

Lemma keeps_size_ret {A} (a : A) : keeps_size (ret a).
Proof. intros s. reflexivity. Qed.
Lemma keeps_size_undefined {A} : keeps_size (@undefined A).
Proof. intros s. reflexivity. Qed.
Lemma keeps_size_out_of_fuel {A} : keeps_size (@out_of_fuel A).
Proof. intros s. reflexivity. Qed.
Lemma keeps_size_get {A} (f : HeapPQueue → A) : keeps_size (get f).
Proof. intros s. reflexivity. Qed.
Lemma keeps_size_int z : keeps_size (int_ z).
Proof.
  unfold int_. destruct (in_int z); [apply keeps_size_ret | apply keeps_size_undefined].
Qed.
Lemma keeps_size_load i : keeps_size (load i).
Proof. intros s. unfold load. now destruct (cell (heap s) i). Qed.
Lemma keeps_size_store i d : keeps_size (store i d).
Proof. intros s. unfold store. now destruct (in_bounds (heap s) i). Qed.

Create HintDb keeps_size.
#[local] Hint Resolve keeps_size_ret keeps_size_undefined keeps_size_out_of_fuel
  keeps_size_get keeps_size_int keeps_size_load keeps_size_store : keeps_size.

Ltac keeps_size_step :=
  match goal with
  | |- keeps_size (bind _ _) => apply keeps_size_bind; [|intros ?]
  | |- keeps_size (if ?b then _ else _) => destruct b
  | |- keeps_size _ => solve [auto with keeps_size]
  end.

Lemma keeps_size_swap i j : keeps_size (swap i j).
Proof. unfold swap. repeat keeps_size_step. Qed.
Lemma keeps_size_leftChild i : keeps_size (leftChild i).
Proof. unfold leftChild. repeat keeps_size_step. Qed.
Lemma keeps_size_rightChild i : keeps_size (rightChild i).
Proof. unfold rightChild. repeat keeps_size_step. Qed.

#[local] Hint Resolve keeps_size_swap keeps_size_leftChild keeps_size_rightChild
  : keeps_size.

Lemma keeps_size_bubbleDown_loop fuel : ∀ n i, keeps_size (bubbleDown_loop fuel n i).
Proof.
  induction fuel as [|fuel IH]; intros n i; cbn [bubbleDown_loop];
    [auto with keeps_size|].
  cbv zeta. repeat keeps_size_step; apply IH.
Qed.

Lemma keeps_size_bubbleDown i : keeps_size (bubbleDown i).
Proof.
  unfold bubbleDown. apply keeps_size_bind; [apply keeps_size_get|].
  intros n. apply keeps_size_bubbleDown_loop.
Qed.

Lemma result_bind {A B} (m : M A) (k : A → M B) s :
  result (bind m k s) =
  match result (m s) with
  | Done a => result (k a (after (m s)))
  | Throw msg => Throw msg
  | Undefined => Undefined
  | OutOfFuel => OutOfFuel
  end.
Proof. unfold bind. now destruct (result (m s)). Qed.

Lemma after_bind {A B} (m : M A) (k : A → M B) s :
  after (bind m k s) =
  match result (m s) with
  | Done a => after (k a (after (m s)))
  | _ => after (m s)
  end.
Proof. unfold bind. now destruct (result (m s)). Qed.

Lemma events_bind {A B} (m : M A) (k : A → M B) s :
  events (bind m k s) =
  events (m s) ++ match result (m s) with
                  | Done a => events (k a (after (m s)))
                  | _ => []
                  end.
Proof.
  unfold bind. destruct (result (m s)); cbn [events]; now rewrite ?app_nil_r.
Qed.

(** ** The index helpers *)

Lemma int_in z s : INT_MIN ≤ z ≤ INT_MAX → int_ z s = MkRun (Done z) s [].
Proof.
  intros Hz. unfold int_, in_int.
  replace (INT_MIN <=? z) with true by (symmetry; apply Z.leb_le; lia).
  replace (z <=? INT_MAX) with true by (symmetry; apply Z.leb_le; lia).
  reflexivity.
Qed.

Lemma int_out z s : ¬ (INT_MIN ≤ z ≤ INT_MAX) → int_ z s = MkRun Undefined s [].
Proof.
  intros Hz. unfold int_, in_int.
  destruct (INT_MIN <=? z) eqn:E1; [|reflexivity].
  destruct (z <=? INT_MAX) eqn:E2; [|reflexivity].
  apply Z.leb_le in E1, E2. lia.
Qed.

Lemma int_result z s x : result (int_ z s) = Done x → x = z ∧ INT_MIN ≤ z ≤ INT_MAX.
Proof.
  destruct (decide (INT_MIN ≤ z ≤ INT_MAX)) as [Hz|Hz].
  - rewrite int_in by assumption. cbn. intros [= ->]. auto.
  - rewrite int_out by assumption. discriminate.
Qed.

Lemma parent_run index s :
  INT_MIN < index ≤ INT_MAX + 1 →
  parent index s = MkRun (Done ((index - 1) ÷ 2)) s [].
Proof.
  intros Hi. unfold parent.
  now rewrite (bind_pure_eq _ _ _ _ (int_in (index - 1) s ltac:(lia))).
Qed.

Lemma leftChild_run index s :
  -1073741824 ≤ index ≤ 1073741823 →
  leftChild index s = MkRun (Done (2 * index + 1)) s [].
Proof.
  intros Hi. unfold leftChild.
  rewrite (bind_pure_eq _ _ _ _ (int_in (2 * index) s ltac:(ulia))).
  apply int_in. ulia.
Qed.

Lemma rightChild_run index s :
  -1073741824 ≤ index ≤ 1073741822 →
  rightChild index s = MkRun (Done (2 * index + 2)) s [].
Proof.
  intros Hi. unfold rightChild.
  rewrite (bind_pure_eq _ _ _ _ (int_in (2 * index) s ltac:(ulia))).
  apply int_in. ulia.
Qed.

(** The parent of either child of a slot is the slot: for every index from
    0 to 2^30 - 2, [parent(leftChild(index))] and
    [parent(rightChild(index))] return [index], without touching the
    queue. *)
Theorem parent_of_children index s :
  0 ≤ index ≤ 1073741822 →
  (let/m l := leftChild index in parent l) s = MkRun (Done index) s [] ∧
  (let/m r := rightChild index in parent r) s = MkRun (Done index) s [].
Proof.
  intros Hi. split.
  - rewrite (bind_pure_eq _ _ _ _ (leftChild_run index s ltac:(lia))).
    rewrite parent_run by ulia. do 2 f_equal. zlia.
  - rewrite (bind_pure_eq _ _ _ _ (rightChild_run index s ltac:(lia))).
    rewrite parent_run by ulia. do 2 f_equal. zlia.
Qed.

(** [parent] returns the root for the root ([(0 - 1) / 2] is 0 in C++),
    and for every other index a smaller one of which the index is the
    left or the right child. *)
Theorem child_of_parent index s :
  0 ≤ index ≤ INT_MAX →
  ∃ p, parent index s = MkRun (Done p) s [] ∧
       (index = 0 → p = 0) ∧
       (1 ≤ index →
        0 ≤ p < index ∧
        (leftChild p s = MkRun (Done index) s [] ∨
         rightChild p s = MkRun (Done index) s [])).
Proof.
  intros Hi. exists ((index - 1) ÷ 2).
  split; [apply parent_run; ulia|]. split; [now intros ->|].
  intros H1.
  assert (0 ≤ (index - 1) ÷ 2 < index ∧ (index - 1) ÷ 2 ≤ 1073741823 ∧
          (index = 2 * ((index - 1) ÷ 2) + 1 ∨
           index = 2 * ((index - 1) ÷ 2) + 2 ∧ (index - 1) ÷ 2 ≤ 1073741822))
    as (Hp & Hmax & Hc) by (unfold INT_MAX in Hi; zlia).
  split; [assumption|].
  destruct Hc as [E|[E Hmax']].
  - left. rewrite leftChild_run by lia. now rewrite <- E.
  - right. rewrite rightChild_run by lia. now rewrite <- E.
Qed.

(** The indices at which the helpers leave [int]: [leftChild] has a
    defined value exactly on -2^30 .. 2^30 - 1, [rightChild] exactly on
    -2^30 .. 2^30 - 2, and [parent] on every [int] but [INT_MIN]. *)
Theorem index_helpers_defined index s :
  (result (leftChild index s) = Undefined ↔
   ¬ (-1073741824 ≤ index ≤ 1073741823)) ∧
  (result (rightChild index s) = Undefined ↔
   ¬ (-1073741824 ≤ index ≤ 1073741822)) ∧
  (in_int index = true →
   (result (parent index s) = Undefined ↔ index = INT_MIN)).
Proof.
  split; [|split].
  - split.
    + intros H Hi. rewrite leftChild_run in H by assumption. discriminate.
    + intros Hi. unfold leftChild. rewrite result_bind.
      destruct (decide (INT_MIN ≤ 2 * index ≤ INT_MAX)) as [H2|H2].
      * rewrite int_in by assumption. cbn [result after].
        rewrite int_out by ulia. reflexivity.
      * rewrite int_out by assumption. reflexivity.
  - split.
    + intros H Hi. rewrite rightChild_run in H by assumption. discriminate.
    + intros Hi. unfold rightChild. rewrite result_bind.
      destruct (decide (INT_MIN ≤ 2 * index ≤ INT_MAX)) as [H2|H2].
      * rewrite int_in by assumption. cbn [result after].
        rewrite int_out by ulia. reflexivity.
      * rewrite int_out by assumption. reflexivity.
  - intros Hin. unfold in_int in Hin. apply andb_true_iff in Hin as [H1 H2].
    apply Z.leb_le in H1, H2. split.
    + intros H. destruct (decide (index = INT_MIN)) as [E|E]; [assumption|].
      rewrite parent_run in H by lia. discriminate.
    + intros ->. unfold parent. rewrite result_bind.
      rewrite int_out by ulia. reflexivity.
Qed.

(** ** Assignments to the buffer *)

Lemma writes_app e1 e2 : writes (e1 ++ e2) = writes e1 + writes e2.
Proof.
  induction e1 as [|[]]; cbn [app writes]; lia.
Qed.

Lemma no_writes_bind {A B} (m : M A) (k : A → M B) :
  no_writes m → (∀ a, no_writes (k a)) → no_writes (bind m k).
Proof.
  intros Hm Hk s. rewrite events_bind, writes_app, Hm.
  destruct (result (m s)); [rewrite Hk|..]; reflexivity.
Qed.

Lemma no_writes_ret {A} (a : A) : no_writes (ret a).
Proof. intros s. reflexivity. Qed.
Lemma no_writes_throw {A} msg : no_writes (@throw A msg).
Proof. intros s. reflexivity. Qed.
Lemma no_writes_undefined {A} : no_writes (@undefined A).
Proof. intros s. reflexivity. Qed.
Lemma no_writes_get {A} (f : HeapPQueue → A) : no_writes (get f).
Proof. intros s. reflexivity. Qed.
Lemma no_writes_int z : no_writes (int_ z).
Proof.
  unfold int_. destruct (in_int z); [apply no_writes_ret | apply no_writes_undefined].
Qed.
Lemma no_writes_load i : no_writes (load i).
Proof. intros s. unfold load. now destruct (cell (heap s) i). Qed.
Lemma no_writes_set_heap h : no_writes (set_heap h).
Proof. intros s. reflexivity. Qed.
Lemma no_writes_set_capacity c : no_writes (set_capacity c).
Proof. intros s. reflexivity. Qed.
Lemma no_writes_emit e : (∀ i, e ≠ Write i) → no_writes (emit e).
Proof. intros He s. destruct e; try reflexivity. now destruct (He i). Qed.

Create HintDb no_writes.
#[local] Hint Resolve no_writes_ret no_writes_throw no_writes_undefined
  no_writes_get no_writes_int no_writes_load no_writes_set_heap
  no_writes_set_capacity : no_writes.

Ltac no_writes_step :=
  match goal with
  | |- no_writes (bind _ _) => apply no_writes_bind; [|intros ?]
  | |- no_writes (if ?b then _ else _) => destruct b
  | |- no_writes (emit _) => apply no_writes_emit; discriminate
  | |- no_writes _ => solve [auto with no_writes]
  end.

Lemma no_writes_copy_loop idx : ∀ newHeap, no_writes (copy_loop idx newHeap).
Proof.
  induction idx as [|i idx IH]; intros newHeap; cbn [copy_loop];
    [auto with no_writes|].
  repeat no_writes_step; apply IH.
Qed.

Lemma no_writes_resize newCapacity : no_writes (resize newCapacity).
Proof.
  unfold resize, new_array, static_cast_int.
  repeat (no_writes_step || apply no_writes_copy_loop).
Qed.

Lemma keeps_size_throw {A} msg : keeps_size (@throw A msg).
Proof. intros s. reflexivity. Qed.
Lemma keeps_size_emit e : keeps_size (emit e).
Proof. intros s. reflexivity. Qed.
Lemma keeps_size_set_heap h : keeps_size (set_heap h).
Proof. intros s. reflexivity. Qed.
Lemma keeps_size_set_capacity c : keeps_size (set_capacity c).
Proof. intros s. reflexivity. Qed.

#[local] Hint Resolve keeps_size_throw keeps_size_emit keeps_size_set_heap
  keeps_size_set_capacity : keeps_size.

Lemma keeps_size_copy_loop idx : ∀ newHeap, keeps_size (copy_loop idx newHeap).
Proof.
  induction idx as [|i idx IH]; intros newHeap; cbn [copy_loop];
    [auto with keeps_size|].
  repeat keeps_size_step; apply IH.
Qed.

Lemma keeps_size_resize newCapacity : keeps_size (resize newCapacity).
Proof.
  unfold resize, new_array.
  repeat (keeps_size_step || apply keeps_size_copy_loop).
Qed.

Lemma cost_bind {A B} (m : M A) (k : A → M B) s a b Q :
  0 ≤ b →
  cost m s a (λ x s1, cost (k x) s1 b Q) →
  cost (bind m k) s (a + b) Q.
Proof.
  intros Hb [Hw Hk]. split.
  - rewrite events_bind, writes_app.
    destruct (result (m s)) as [x| | |]; cbn [writes]; [|lia..].
    destruct (Hk x eq_refl) as [Hw' _]. lia.
  - intros y. rewrite result_bind, after_bind.
    destruct (result (m s)) as [x| | |]; try discriminate.
    destruct (Hk x eq_refl) as [_ HQ]. apply HQ.
Qed.

Lemma cost_bind0 {A B} (m : M A) (k : A → M B) s b Q :
  0 ≤ b →
  cost m s 0 (λ x s1, cost (k x) s1 b Q) →
  cost (bind m k) s b Q.
Proof. intros Hb H. now apply (cost_bind m k s 0 b). Qed.

Lemma cost_mono {A} (m : M A) s b b' (Q Q' : A → HeapPQueue → Prop) :
  cost m s b Q → b ≤ b' → (∀ a s', Q a s' → Q' a s') → cost m s b' Q'.
Proof. intros [Hw HQ] Hb HQQ. split; [lia | auto]. Qed.

Lemma cost_quiet {A} (m : M A) s :
  no_writes m → keeps_size m →
  cost m s 0 (λ _ s', currentSize s' = currentSize s).
Proof. intros Hw Hs. split; [now rewrite Hw | intros _ _; apply Hs]. Qed.

Lemma cost_ret {A} (a : A) s b (Q : A → HeapPQueue → Prop) :
  0 ≤ b → Q a s → cost (ret a) s b Q.
Proof. intros Hb HQ. split; [exact Hb | now intros a' [= <-]]. Qed.

Lemma cost_get {A} (f : HeapPQueue → A) s b (Q : A → HeapPQueue → Prop) :
  0 ≤ b → Q (f s) s → cost (get f) s b Q.
Proof. intros Hb HQ. split; [exact Hb | now intros a' [= <-]]. Qed.

Lemma cost_int z s b (Q : Z → HeapPQueue → Prop) :
  0 ≤ b → Q z s → cost (int_ z) s b Q.
Proof.
  intros Hb HQ. split; [now rewrite no_writes_int|].
  intros x Hx. destruct (int_result _ _ _ Hx) as [-> Hz].
  now rewrite int_in.
Qed.

Lemma cost_load i s b (Q : DataPoint → HeapPQueue → Prop) :
  0 ≤ b → (∀ d, Q d s) → cost (load i) s b Q.
Proof.
  intros Hb HQ. split; [now rewrite no_writes_load|].
  intros d _. unfold load. now destruct (cell (heap s) i).
Qed.

Lemma cost_parent i s b (Q : Z → HeapPQueue → Prop) :
  0 ≤ b → Q ((i - 1) ÷ 2) s → cost (parent i) s b Q.
Proof.
  intros Hb HQ. unfold parent. apply cost_bind0; [assumption|].
  apply cost_int; [lia|]. now apply cost_ret.
Qed.

Lemma cost_leftChild i s b (Q : Z → HeapPQueue → Prop) :
  0 ≤ b → Q (2 * i + 1) s → cost (leftChild i) s b Q.
Proof.
  intros Hb HQ. unfold leftChild. apply cost_bind0; [assumption|].
  apply cost_int; [lia|]. now apply cost_int.
Qed.

Lemma cost_rightChild i s b (Q : Z → HeapPQueue → Prop) :
  0 ≤ b → Q (2 * i + 2) s → cost (rightChild i) s b Q.
Proof.
  intros Hb HQ. unfold rightChild. apply cost_bind0; [assumption|].
  apply cost_int; [lia|]. now apply cost_int.
Qed.

Lemma cost_store i d s (Q : unit → HeapPQueue → Prop) :
  (∀ s', currentSize s' = currentSize s → Q tt s') → cost (store i d) s 1 Q.
Proof.
  intros HQ. unfold store. split.
  - destruct (in_bounds (heap s) i); cbn; lia.
  - intros []. destruct (in_bounds (heap s) i); [|discriminate].
    intros _. now apply HQ.
Qed.

Lemma cost_swap i j s (Q : unit → HeapPQueue → Prop) :
  (∀ s', currentSize s' = currentSize s → Q tt s') → cost (swap i j) s 2 Q.
Proof.
  intros HQ. unfold swap.
  apply cost_bind0; [lia|]. apply cost_load; [lia|]. intros a.
  apply cost_bind0; [lia|]. apply cost_load; [lia|]. intros b.
  apply (cost_bind _ _ _ 1 1); [lia|].
  apply cost_store. intros s1 H1.
  apply cost_store. intros s2 H2. apply HQ. congruence.
Qed.

Lemma log2_parent i : 1 ≤ i → Z.log2 (i + 1) = 1 + Z.log2 ((i - 1) ÷ 2 + 1).
Proof.
  intros Hi. set (p := (i - 1) ÷ 2).
  assert (0 ≤ p ∧ (i + 1 = 2 * (p + 1) ∨ i + 1 = 2 * (p + 1) + 1)) as [Hp [E|E]]
    by (unfold p; zlia); rewrite E.
  - rewrite Z.log2_double by lia. lia.
  - rewrite Z.log2_succ_double by lia. lia.
Qed.

Lemma bubbleUp_loop_cost fuel : ∀ index s,
  cost (bubbleUp_loop fuel index) s (2 * Z.log2 (index + 1)) (λ _ _, True).
Proof.
  induction fuel as [|fuel IH]; intros index s;
    pose proof (Z.log2_nonneg (index + 1)) as Hnn; cbn [bubbleUp_loop].
  - split; [cbn; lia | discriminate].
  - destruct (index >? 0) eqn:E; [apply Z.gtb_lt in E | now apply cost_ret; [lia|]].
    apply cost_bind0; [lia|]. apply cost_load; [lia|]. intros a.
    apply cost_bind0; [lia|]. apply cost_parent; [lia|].
    apply cost_bind0; [lia|]. apply cost_load; [lia|]. intros b.
    destruct (weight a <? weight b); [|now apply cost_ret; [lia|]].
    apply cost_bind0; [lia|]. apply cost_parent; [lia|].
    rewrite (log2_parent index) by lia.
    pose proof (Z.log2_nonneg ((index - 1) ÷ 2 + 1)) as Hnn'.
    replace (2 * (1 + Z.log2 ((index - 1) ÷ 2 + 1)))
      with (2 + 2 * Z.log2 ((index - 1) ÷ 2 + 1)) by lia.
    apply cost_bind; [lia|]. apply cost_swap. intros s1 _.
    apply cost_bind0; [lia|]. apply cost_parent; [lia|].
    apply IH.
Qed.

Lemma log2_child i c n :
  0 ≤ i → c = 2 * i + 1 ∨ c = 2 * i + 2 → c < n →
  1 + Z.log2 (i + 1) = Z.log2 (c + 1) ∧ Z.log2 (c + 1) ≤ Z.log2 n.
Proof.
  intros Hi Hc Hn. split.
  - destruct Hc as [-> | ->].
    + replace (2 * i + 1 + 1) with (2 * (i + 1)) by lia.
      rewrite Z.log2_double by lia. lia.
    + replace (2 * i + 2 + 1) with (2 * (i + 1) + 1) by lia.
      rewrite Z.log2_succ_double by lia. lia.
  - apply Z.log2_le_mono. lia.
Qed.

Lemma bubbleDown_loop_cost fuel : ∀ n index s,
  0 ≤ index →
  cost (bubbleDown_loop fuel n index) s
       (2 * Z.max 0 (Z.log2 n - Z.log2 (index + 1)))
       (λ _ s', currentSize s' = currentSize s).
Proof.
  induction fuel as [|fuel IH]; intros n index s Hi; cbn [bubbleDown_loop].
  - split; [cbn; lia | discriminate].
  - cbv zeta.
    set (b := 2 * Z.max 0 (Z.log2 n - Z.log2 (index + 1))).
    assert (0 ≤ b) as Hb by (unfold b; lia).
    apply cost_bind0; [lia|]. apply cost_leftChild; [lia|].
    apply cost_bind0; [lia|]. apply cost_rightChild; [lia|].
    apply cost_bind0; [lia|].
    apply (cost_mono _ _ 0 0 (λ x s', s' = s ∧
             (x = index ∨ x = 2 * index + 1 ∧ 2 * index + 1 < n))); [|lia|].
    { destruct (2 * index + 1 <? n) eqn:E; [apply Z.ltb_lt in E|].
      - apply cost_bind0; [lia|]. apply cost_load; [lia|]. intros a.
        apply cost_bind0; [lia|]. apply cost_load; [lia|]. intros c.
        apply cost_ret; [lia|]. split; [reflexivity|].
        destruct (weight a <? weight c); auto.
      - apply cost_ret; [lia|]. auto. }
    cbn beta. intros x s1 [-> Hx].
    apply cost_bind0; [lia|].
    apply (cost_mono _ _ 0 0 (λ y s', s' = s ∧
             (y = index ∨ (y = 2 * index + 1 ∨ y = 2 * index + 2) ∧ y < n))); [|lia|].
    { destruct (2 * index + 2 <? n) eqn:E; [apply Z.ltb_lt in E|].
      - apply cost_bind0; [lia|]. apply cost_load; [lia|]. intros a.
        apply cost_bind0; [lia|]. apply cost_load; [lia|]. intros c.
        apply cost_ret; [lia|]. split; [reflexivity|].
        destruct (weight a <? weight c); [right; lia|].
        destruct Hx as [->|[-> ?]]; [left | right]; lia.
      - apply cost_ret; [lia|]. split; [reflexivity|].
        destruct Hx as [->|[-> ?]]; [left | right]; lia. }
    cbn beta. intros y s2 [-> Hy].
    destruct (negb (y =? index)) eqn:E; [|now apply cost_ret].
    apply negb_true_iff, Z.eqb_neq in E.
    destruct Hy as [->|[Hy Hn]]; [contradiction|].
    destruct (log2_child index y n Hi Hy Hn) as [Hl1 Hl2].
    replace b with (2 + 2 * Z.max 0 (Z.log2 n - Z.log2 (y + 1))) by (unfold b; lia).
    apply cost_bind; [lia|]. apply cost_swap. intros s3 H3.
    eapply cost_mono; [apply IH; lia | lia |].
    cbn beta. intros _ s4 H4. congruence.
Qed.

Lemma cost_no_writes {A} (m : M A) s b :
  no_writes m → 0 ≤ b → cost m s b (λ _ _, True).
Proof. intros Hw Hb. split; [now rewrite Hw | auto]. Qed.

Lemma cost_set_currentSize n s b (Q : unit → HeapPQueue → Prop) :
  0 ≤ b → Q tt (with_currentSize n s) → cost (set_currentSize n) s b Q.
Proof. intros Hb HQ. split; [exact Hb | now intros []]. Qed.

Lemma bubbleUp_cost index s :
  cost (bubbleUp index) s (2 * Z.log2 (index + 1)) (λ _ _, True).
Proof. apply bubbleUp_loop_cost. Qed.

Lemma bubbleDown_cost index s :
  0 ≤ index →
  cost (bubbleDown index) s
       (2 * Z.max 0 (Z.log2 (currentSize s) - Z.log2 (index + 1)))
       (λ _ s', currentSize s' = currentSize s).
Proof.
  intros Hi. unfold bubbleDown. apply cost_bind0; [lia|].
  apply cost_get; [lia|]. now apply bubbleDown_loop_cost.
Qed.

(** [enqueue] assigns slots of the buffer at most 1 + 2 * floor(log2
    (currentSize + 1)) times, from any state and with any outcome: the
    store of the new element and two assignments for each swap of
    [bubbleUp], which moves the index to its parent at most
    floor(log2 (index + 1)) times. *)
Theorem enqueue_writes data s :
  writes (events (enqueue data s)) ≤ 1 + 2 * Z.log2 (currentSize s + 1).
Proof.
  pose proof (Z.log2_nonneg (currentSize s + 1)) as Hnn.
  enough (cost (enqueue data) s (1 + 2 * Z.log2 (currentSize s + 1)) (λ _ _, True))
    as [H _] by exact H.
  unfold enqueue.
  apply cost_bind0; [lia|]. unfold size. apply cost_get; [lia|].
  apply cost_bind0; [lia|]. apply cost_get; [lia|].
  apply cost_bind0; [lia|].
  eapply cost_mono; [apply cost_quiet | lia |].
  { unfold static_cast_int.
    repeat (no_writes_step || apply no_writes_resize). }
  { unfold static_cast_int.
    repeat (keeps_size_step || apply keeps_size_resize). }
  cbn beta. intros _ s1 H1.
  apply cost_bind0; [lia|]. apply cost_get; [lia|]. rewrite H1.
  apply cost_bind; [lia|]. apply cost_store. intros s2 H2.
  apply cost_bind0; [lia|]. apply cost_int; [lia|].
  apply cost_bind0; [lia|]. apply cost_set_currentSize; [lia|].
  apply cost_bind0; [lia|]. apply cost_get; [lia|].
  cbn [currentSize with_currentSize].
  apply cost_bind0; [lia|]. apply cost_int; [lia|].
  replace (Z.log2 (currentSize s + 1))
    with (Z.log2 (currentSize s + 1 - 1 + 1)) by (f_equal; lia).
  apply bubbleUp_cost.
Qed.

(** [dequeue] assigns slots of the buffer at most 1 + 2 * floor(log2
    (currentSize - 1)) times, from any state and with any outcome: the
    move of the last element to the root and two assignments for each
    swap of [bubbleDown], which moves the index to a child at most
    floor(log2 (currentSize - 1)) times. *)
Theorem dequeue_writes s :
  writes (events (dequeue s)) ≤ 1 + 2 * Z.log2 (currentSize s - 1).
Proof.
  pose proof (Z.log2_nonneg (currentSize s - 1)) as Hnn.
  enough (cost dequeue s (1 + 2 * Z.log2 (currentSize s - 1)) (λ _ _, True))
    as [H _] by exact H.
  unfold dequeue.
  apply cost_bind0; [lia|]. unfold isEmpty.
  apply cost_bind0; [lia|]. apply cost_get; [lia|]. apply cost_ret; [lia|].
  apply cost_bind0; [lia|].
  destruct (currentSize s =? 0); [split; [cbn; lia | discriminate]|].
  apply cost_ret; [lia|].
  apply cost_bind0; [lia|]. apply cost_load; [lia|]. intros root.
  apply cost_bind0; [lia|]. apply cost_get; [lia|].
  apply cost_bind0; [lia|]. apply cost_int; [lia|].
  apply cost_bind0; [lia|]. apply cost_load; [lia|]. intros last.
  apply cost_bind; [lia|]. apply cost_store. intros s1 H1.
  apply cost_bind0; [lia|]. apply cost_get; [lia|]. rewrite H1.
  apply cost_bind0; [lia|]. apply cost_int; [lia|].
  apply cost_bind0; [lia|]. apply cost_set_currentSize; [lia|].
  replace (2 * Z.log2 (currentSize s - 1))
    with (2 * Z.max 0 (Z.log2 (currentSize s - 1) - Z.log2 (0 + 1)) + 0)
    by (change (Z.log2 (0 + 1)) with 0; lia).
  apply cost_bind; [lia|].
  eapply cost_mono; [apply bubbleDown_cost; lia | cbn; lia |].
  cbn beta. intros _ s2 _.
  apply cost_no_writes; [|lia].
  unfold size, static_cast_int.
  repeat (no_writes_step || apply no_writes_resize).
Qed.

(** ** Allocations and releases *)

Lemma calm_emit e : (∀ n, e ≠ Alloc n) → e ≠ Free → calm (emit e).
Proof.
  intros Ha Hf s. destruct e; cbn; auto.
  - now destruct (Ha n).
  - now destruct Hf.
Qed.

Lemma calm_copy_loop idx : ∀ newHeap, calm (copy_loop idx newHeap).
Proof.
  induction idx as [|i idx IH]; intros newHeap; cbn [copy_loop];
    [auto with calm|].
  apply calm_bind; [apply calm_load|]. intros d.
  destruct (in_bounds newHeap i); [|apply calm_undefined].
  apply calm_bind; [now apply calm_emit|]. intros _. apply IH.
Qed.

Lemma load_after i s : after (load i s) = s.
Proof. unfold load. now destruct (cell (heap s) i). Qed.

Lemma copy_loop_after idx : ∀ newHeap s, after (copy_loop idx newHeap s) = s.
Proof.
  induction idx as [|i idx IH]; intros newHeap s; cbn [copy_loop];
    [reflexivity|].
  rewrite after_bind, load_after.
  destruct (result (load i s)) as [d| | |]; try reflexivity.
  destruct (in_bounds newHeap i); [|reflexivity].
  rewrite after_bind. cbn [emit result after]. apply IH.
Qed.

Lemma bind_case {A B} (m : M A) (k : A → M B) s :
  bind m k s =
  match result (m s) with
  | Done a =>
      MkRun (result (k a (after (m s)))) (after (k a (after (m s))))
            (events (m s) ++ events (k a (after (m s))))
  | Throw msg => MkRun (Throw msg) (after (m s)) (events (m s))
  | Undefined => MkRun Undefined (after (m s)) (events (m s))
  | OutOfFuel => MkRun OutOfFuel (after (m s)) (events (m s))
  end.
Proof. reflexivity. Qed.

(** [resize] unfolded, but for its copy loop. *)
Lemma resize_run newCapacity s :
  resize newCapacity s =
  if newCapacity <? currentSize s then MkRun (Throw msg_resize) s []
  else if newCapacity <? 0 then MkRun (Throw msg_new) s []
  else
    let c := copy_loop (seqZ 0 (currentSize s))
                       (replicate (Z.to_nat newCapacity) None) s in
    match result c with
    | Done h =>
        MkRun (Done tt) (with_capacity newCapacity (with_heap h s))
              (Alloc newCapacity :: events c ++ [Free])
    | Throw msg => MkRun (Throw msg) s (Alloc newCapacity :: events c)
    | Undefined => MkRun Undefined s (Alloc newCapacity :: events c)
    | OutOfFuel => MkRun OutOfFuel s (Alloc newCapacity :: events c)
    end.
Proof.
  unfold resize. rewrite (bind_pure_eq (get currentSize) _ s _ eq_refl).
  destruct (newCapacity <? currentSize s).
  { now rewrite (bind_throw_eq (throw msg_resize) _ s msg_resize s [] eq_refl). }
  rewrite (bind_pure_eq (ret tt) _ s tt eq_refl).
  unfold new_array. destruct (newCapacity <? 0).
  { now rewrite (bind_throw_eq (throw msg_new) _ s msg_new s [] eq_refl). }
  rewrite bind_case. cbn [bind emit ret result after events app].
  rewrite (bind_pure_eq (get currentSize) _ s _ eq_refl).
  rewrite bind_case. cbv zeta.
  rewrite copy_loop_after.
  destruct (result (copy_loop (seqZ 0 (currentSize s))
                      (replicate (Z.to_nat newCapacity) None) s)); reflexivity.
Qed.

Lemma copy_loop_quiet idx newHeap s :
  allocations (events (copy_loop idx newHeap s)) = [] ∧
  frees (events (copy_loop idx newHeap s)) = 0%nat.
Proof. destruct (calm_copy_loop idx newHeap s) as (? & ? & _). auto. Qed.

Lemma resize_log newCapacity s :
  allocations (events (resize newCapacity s)) =
    (if (newCapacity <? currentSize s) || (newCapacity <? 0)
     then [] else [newCapacity]) ∧
  frees (events (resize newCapacity s)) =
    match result (resize newCapacity s) with Done _ => 1%nat | _ => 0%nat end.
Proof.
  rewrite resize_run.
  destruct (newCapacity <? currentSize s); [auto|].
  destruct (newCapacity <? 0); [auto|]. cbv zeta. cbn [orb].
  set (c := copy_loop _ _ s).
  destruct (copy_loop_quiet (seqZ 0 (currentSize s))
              (replicate (Z.to_nat newCapacity) None) s) as [Ha Hf].
  fold c in Ha, Hf.
  destruct (result c); cbn [result events];
    change (Alloc newCapacity :: ?l) with ([Alloc newCapacity] ++ l);
    rewrite ?allocations_app, ?frees_app, Ha, Hf; auto.
Qed.

Lemma ledger_bind {A B} (m : M A) (k : A → M B) s Q :
  ledger m s (λ a s1 l1 f1,
    ledger (k a) s1 (λ b s2 l2 f2, Q b s2 (l1 ++ l2) (f1 + f2)%nat)) →
  ledger (bind m k) s Q.
Proof.
  intros H b Hb. apply bind_done_inv in Hb as (a & Ha & Hb & Haf & Hev).
  rewrite Haf, Hev, allocations_app, frees_app. now apply (H a Ha b).
Qed.

Lemma ledger_ret {A} (a : A) s Q : Q a s [] 0%nat → ledger (ret a) s Q.
Proof. now intros HQ a' [= <-]. Qed.

Lemma ledger_get {A} (f : HeapPQueue → A) s Q :
  Q (f s) s [] 0%nat → ledger (get f) s Q.
Proof. now intros HQ a' [= <-]. Qed.

Lemma ledger_int z s Q :
  (INT_MIN ≤ z ≤ INT_MAX → Q z s [] 0%nat) → ledger (int_ z) s Q.
Proof.
  intros HQ x Hx. destruct (int_result _ _ _ Hx) as [-> Hz].
  rewrite int_in by assumption. now apply HQ.
Qed.

Lemma ledger_load i s Q :
  (∀ d, cell (heap s) i = Some d → Q d s [] 0%nat) → ledger (load i) s Q.
Proof.
  intros HQ d. unfold load. destruct (cell (heap s) i) as [d'|]; [|discriminate].
  intros [= <-]. now apply HQ.
Qed.

Lemma ledger_store i d s Q :
  Q tt (with_heap (<[Z.to_nat i := Some d]> (heap s)) s) [] 0%nat →
  ledger (store i d) s Q.
Proof.
  intros HQ []. unfold store. destruct (in_bounds (heap s) i); [|discriminate].
  intros _. exact HQ.
Qed.

Lemma ledger_set_currentSize n s Q :
  Q tt (with_currentSize n s) [] 0%nat → ledger (set_currentSize n) s Q.
Proof. now intros HQ []. Qed.

Lemma ledger_calm {A} (m : M A) s Q :
  calm m → keeps_size m → keeps_factors m →
  (∀ a s', capacity s' = capacity s → currentSize s' = currentSize s →
           growFactor s' = growFactor s → shrinkThreshold s' = shrinkThreshold s →
           Q a s' [] 0%nat) →
  ledger m s Q.
Proof.
  intros Hc Hs Hf HQ a _. destruct (Hc s) as (-> & -> & Hcap & _).
  destruct (Hf s) as [Hg Ht]. now apply HQ.
Qed.

Lemma ledger_resize newCapacity s Q :
  currentSize s ≤ newCapacity → 0 ≤ newCapacity →
  Q tt (with_capacity newCapacity (with_heap (heap (after (resize newCapacity s))) s))
    [newCapacity] 1%nat →
  ledger (resize newCapacity) s Q.
Proof.
  intros Hn H0 HQ [] Hr.
  destruct (resize_log newCapacity s) as [Ha Hf]. rewrite Ha, Hf, Hr.
  replace (newCapacity <? currentSize s) with false by (symmetry; apply Z.ltb_ge; lia).
  replace (newCapacity <? 0) with false by (symmetry; apply Z.ltb_ge; lia).
  cbn [orb].
  enough (after (resize newCapacity s)
          = with_capacity newCapacity
              (with_heap (heap (after (resize newCapacity s))) s)) as E
    by (rewrite E; exact HQ).
  revert Hr. rewrite resize_run.
  replace (newCapacity <? currentSize s) with false by (symmetry; apply Z.ltb_ge; lia).
  replace (newCapacity <? 0) with false by (symmetry; apply Z.ltb_ge; lia).
  cbv zeta.
  now destruct (result (copy_loop (seqZ 0 (currentSize s))
                          (replicate (Z.to_nat newCapacity) None) s)).
Qed.

Lemma ledger_quiet {A} (m : M A) s Q :
  calm m → (∀ a s', Q a s' [] 0%nat) → ledger m s Q.
Proof. intros Hc HQ a _. destruct (Hc s) as (-> & -> & _). apply HQ. Qed.

Lemma keeps_bubbleDown i : keeps_factors (bubbleDown i).
Proof.
  unfold bubbleDown. apply keeps_bind; [apply keeps_get|].
  intros n. apply keeps_bubbleDown_loop.
Qed.

Lemma enqueue_ledger data s :
  growFactor s = (2 # 1)%Q → 0 ≤ currentSize s ≤ capacity s →
  ledger (enqueue data) s
    (λ _ _ l f,
       l = (if currentSize s =? capacity s then [2 * capacity s] else []) ∧
       f = (if currentSize s =? capacity s then 1%nat else 0%nat)).
Proof.
  intros Hg Hsz. unfold enqueue.
  assert (calm (let/m n := get currentSize in
                     store n data ;;;
                     let/m n' := int_ (n + 1) in
                     set_currentSize n' ;;;
                     let/m n := get currentSize in
                     let/m i := int_ (n - 1) in
                     bubbleUp i)) as Hrest by repeat calm_step.
  apply ledger_bind. unfold size. apply ledger_get.
  apply ledger_bind. apply ledger_get.
  apply ledger_bind.
  destruct (currentSize s =? capacity s) eqn:E.
  - apply ledger_bind. apply ledger_get. rewrite Hg.
    apply ledger_bind. unfold static_cast_int. rewrite Qtrunc_grow.
    apply ledger_int. intros _.
    apply ledger_resize; [lia | lia |].
    apply ledger_quiet; [apply Hrest|]. intros _ _. cbn. auto.
  - apply ledger_ret.
    apply ledger_quiet; [apply Hrest|]. intros _ _. cbn. auto.
Qed.

Lemma dequeue_ledger s :
  growFactor s = (2 # 1)%Q → shrinkThreshold s = (1 # 4)%Q →
  0 < currentSize s → 0 < capacity s →
  ledger dequeue s
    (λ _ _ l f,
       l = (if 4 * (currentSize s - 1) <? capacity s
            then [Z.max INITIAL_CAPACITY (capacity s ÷ 2)] else []) ∧
       f = (if 4 * (currentSize s - 1) <? capacity s then 1%nat else 0%nat)).
Proof.
  intros Hg Ht Hn Hc. unfold dequeue.
  apply ledger_bind. unfold isEmpty.
  apply ledger_bind. apply ledger_get. apply ledger_ret.
  replace (currentSize s =? 0) with false by (symmetry; apply Z.eqb_neq; lia).
  apply ledger_bind. apply ledger_ret.
  apply ledger_bind. apply ledger_load. intros root _.
  apply ledger_bind. apply ledger_get.
  apply ledger_bind. apply ledger_int. intros _.
  apply ledger_bind. apply ledger_load. intros last _.
  apply ledger_bind. apply ledger_store.
  apply ledger_bind. apply ledger_get. cbn [currentSize with_heap].
  apply ledger_bind. apply ledger_int. intros _.
  apply ledger_bind. apply ledger_set_currentSize.
  apply ledger_bind.
  apply ledger_calm;
    [apply calm_bubbleDown | apply keeps_size_bubbleDown | apply keeps_bubbleDown |].
  cbn [capacity currentSize growFactor shrinkThreshold with_currentSize with_heap].
  intros _ s1 Hc1 Hn1 Hg1 Ht1.
  apply ledger_bind. unfold size. apply ledger_get. rewrite Hn1.
  apply ledger_bind. apply ledger_get. rewrite Ht1, Ht.
  apply ledger_bind. apply ledger_get. rewrite Hc1.
  rewrite Qltb_shrink.
  apply ledger_bind.
  destruct (4 * (currentSize s - 1) <? capacity s) eqn:E.
  - apply Z.ltb_lt in E.
    apply ledger_bind. apply ledger_get. rewrite Hc1.
    apply ledger_bind. apply ledger_get. rewrite Hg1, Hg.
    apply ledger_bind. unfold static_cast_int. rewrite Qtrunc_shrink.
    apply ledger_int. intros _.
    apply ledger_resize.
    + rewrite Hn1. clear -E Hn. zlia.
    + unfold INITIAL_CAPACITY. lia.
    + apply ledger_ret. cbn. auto.
  - apply ledger_ret. apply ledger_ret. cbn. auto.
Qed.

(** ** [resize] *)

(** [resize(newCapacity)] on a queue that satisfies the class invariant,
    with [newCapacity] at least [currentSize], returns: it allocates one
    buffer of [newCapacity] slots and releases one buffer; [currentSize]
    and the resize factors are as before, [capacity] is [newCapacity], and
    the live slots hold what they held, so the heap order is kept. *)
Theorem resize_contract newCapacity s :
  Inv s → currentSize s ≤ newCapacity →
  let r := resize newCapacity s in
  result r = Done tt ∧
  allocations (events r) = [newCapacity] ∧ frees (events r) = 1%nat ∧
  after r = with_capacity newCapacity (with_heap (heap (after r)) s) ∧
  Z.of_nat (length (heap (after r))) = newCapacity ∧
  (∀ i, 0 ≤ i < currentSize s → cell (heap (after r)) i = cell (heap s) i) ∧
  live (after r) = live s ∧
  heap_property (after r).
Proof.
  intros HI Hk r. pose proof (inv_size s HI) as Hsz.
  destruct (wp_total _ _ _
    (resize_spec (U := False) newCapacity s
       (λ _ s', ∃ h', s' = with_capacity newCapacity (with_heap h' s) ∧
                      Z.of_nat (length h') = newCapacity ∧
                      take (Z.to_nat (currentSize s)) h'
                      = take (Z.to_nat (currentSize s)) (heap s))
       ltac:(lia) ltac:(rewrite (inv_len s HI); lia) (inv_init s HI)
       ltac:(intros h' Hl Htake; exists h'; auto)))
    as ([] & Hr & h' & Hafter & Hlen & Htake).
  fold r in Hr, Hafter.
  destruct (resize_log newCapacity s) as [Ha Hf]. fold r in Ha, Hf.
  rewrite Hr in Hf.
  replace (newCapacity <? currentSize s) with false in Ha
    by (symmetry; apply Z.ltb_ge; lia).
  replace (newCapacity <? 0) with false in Ha by (symmetry; apply Z.ltb_ge; lia).
  assert (heap (after r) = h') as Hh by now rewrite Hafter.
  assert (∀ i, 0 ≤ i < currentSize s → cell (heap (after r)) i = cell (heap s) i)
    as Hagree by (intros i Hi; rewrite Hh; now apply (take_cell _ _ (currentSize s))).
  split; [assumption|]. split; [assumption|]. split; [assumption|].
  split; [now rewrite Hh|]. split; [now rewrite Hh|]. split; [assumption|].
  split.
  - unfold live. rewrite Hafter. cbn [heap currentSize with_capacity with_heap].
    now apply contents_take.
  - intros i Hi.
    assert (currentSize (after r) = currentSize s) as Hn by now rewrite Hafter.
    rewrite Hn in Hi.
    destruct (Inv_heap_property s HI i Hi) as (a & b & Hca & Hcb & Hab).
    exists a, b. rewrite !Hagree by (clear -Hi; zlia). auto.
Qed.

(** [enqueue] on a reachable queue of fewer than 1677721600 elements
    allocates a buffer exactly when the queue is full, of twice the
    capacity, and then releases one buffer; otherwise it allocates and
    releases nothing. *)
Theorem enqueue_reallocates s data :
  reachable s → currentSize s < MAX_CAPACITY →
  let r := enqueue data s in
  result r = Done tt ∧
  allocations (events r)
  = (if currentSize s =? capacity s then [2 * capacity s] else []) ∧
  frees (events r) = length (allocations (events r)).
Proof.
  intros HI%reachable_Inv Hn r.
  destruct (wp_total _ _ _ (enqueue_spec (U := False) data s HI (or_introl Hn)))
    as ([] & Hr & _).
  fold r in Hr. split; [assumption|].
  destruct (enqueue_ledger data s (inv_grow s HI) (inv_size s HI) tt Hr) as [Ha Hf].
  fold r in Ha, Hf. rewrite Hf, Ha.
  split; [reflexivity|]. now destruct (currentSize s =? capacity s).
Qed.

(** [dequeue] on a reachable queue of at least one and at most 2^30
    elements allocates a buffer exactly when the decremented size is below
    a quarter of the capacity, of [max(INITIAL_CAPACITY, capacity / 2)]
    slots, and then releases one buffer; otherwise it allocates and
    releases nothing. *)
Theorem dequeue_reallocates s :
  reachable s → 0 < currentSize s → currentSize s ≤ 1073741824 →
  let r := dequeue s in
  (∃ d, result r = Done d) ∧
  allocations (events r)
  = (if 4 * (currentSize s - 1) <? capacity s
     then [Z.max INITIAL_CAPACITY (capacity s ÷ 2)] else []) ∧
  frees (events r) = length (allocations (events r)).
Proof.
  intros HI%reachable_Inv Hn Hmax r.
  pose proof (capacity_form_bounds _ (inv_cap s HI)) as Hcb.
  destruct (wp_total _ _ _ (dequeue_spec (U := False) s HI Hn (or_introl Hmax)))
    as (d & Hr & _ & _ & _ & _ & Hcap).
  fold r in Hr, Hcap. split; [eauto|].
  destruct (dequeue_ledger s (inv_grow s HI) (inv_shrink s HI) Hn ltac:(ulia) d Hr)
    as [Ha Hf].
  fold r in Ha, Hf. rewrite Hf, Ha.
  split; [reflexivity|]. now destruct (4 * (currentSize s - 1) <? capacity s).
Qed.

(** ** Every buffer is released once *)

Lemma buffers_app evs : ∀ n evs',
  buffers n (evs ++ evs') = buffers n evs ≫= λ n', buffers n' evs'.
Proof.
  induction evs as [|e evs IH]; intros n evs'; [reflexivity|].
  destruct e; cbn [app buffers]; try apply IH.
  now destruct n.
Qed.

Lemma buffers_quiet evs : ∀ n,
  allocations evs = [] → frees evs = 0%nat → buffers n evs = Some n.
Proof.
  induction evs as [|e evs IH]; intros n Ha Hf; [reflexivity|].
  destruct e; cbn [buffers]; try (now apply IH); discriminate.
Qed.

Lemma paired_calm {A} (m : M A) : calm m → paired m.
Proof.
  intros Hc s n _. destruct (Hc s) as (Ha & Hf & _). now apply buffers_quiet.
Qed.

Lemma paired_bind {A B} (m : M A) (k : A → M B) :
  paired m → (∀ a, paired (k a)) → paired (bind m k).
Proof.
  intros Hm Hk s n. rewrite result_bind, events_bind. specialize (Hm s n).
  destruct (result (m s)) as [a| | |]; intros Hc; try discriminate.
  - rewrite buffers_app, Hm by reflexivity. now apply Hk.
  - rewrite app_nil_r. now apply Hm.
Qed.

Lemma paired_resize newCapacity : paired (resize newCapacity).
Proof.
  intros s n. rewrite resize_run.
  destruct (newCapacity <? currentSize s); [reflexivity|].
  destruct (newCapacity <? 0); [reflexivity|]. cbv zeta.
  destruct (copy_loop_quiet (seqZ 0 (currentSize s))
              (replicate (Z.to_nat newCapacity) None) s) as [Ha Hf].
  destruct (result (copy_loop (seqZ 0 (currentSize s))
                      (replicate (Z.to_nat newCapacity) None) s)) as [h|msg| |] eqn:E;
    cbn [result events buffers]; intros Hc; try discriminate.
  - now rewrite buffers_app, (buffers_quiet _ _ Ha Hf).
  - now apply copy_loop_no_throw in E.
Qed.

Ltac paired_step :=
  match goal with
  | |- paired (bind _ _) => apply paired_bind; [|intros ?]
  | |- paired (if ?b then _ else _) => destruct b
  | |- paired (resize _) => apply paired_resize
  | |- paired _ => solve [apply paired_calm; auto with calm]
  end.

Lemma paired_enqueue data : paired (enqueue data).
Proof. unfold enqueue, size, static_cast_int. repeat paired_step. Qed.

Lemma paired_dequeue : paired dequeue.
Proof. unfold dequeue, isEmpty, size, static_cast_int. repeat paired_step. Qed.

Lemma paired_invoke c : paired (invoke c).
Proof.
  destruct c; cbn [invoke]; (apply paired_bind; [|intros ?; paired_step]).
  - apply paired_enqueue.
  - apply paired_dequeue.
  - unfold peek, isEmpty. repeat paired_step.
  - unfold size. paired_step.
  - unfold isEmpty. repeat paired_step.
Qed.

Lemma run_log_paired cs : ∀ s s' evs n,
  run_log cs s = Some (s', evs) → buffers (S n) evs = Some (S n).
Proof.
  induction cs as [|c cs IH]; intros s s' evs n; cbn [run_log].
  - now intros [= _ <-].
  - cbv zeta. destruct (completes (result (invoke c s))) eqn:Hc; [|discriminate].
    destruct (run_log cs (after (invoke c s))) as [[s1 evs1]|] eqn:E; [|discriminate].
    intros [= _ <-]. rewrite buffers_app, (paired_invoke c s n Hc).
    now apply (IH _ _ _ _ E).
Qed.

Lemma run_log_defined cs : ∀ s,
  Inv s → currentSize s + Z.of_nat (length cs) ≤ 1073741824 →
  ∃ s' evs, run_log cs s = Some (s', evs).
Proof.
  induction cs as [|c cs IH]; intros s HI Hn; cbn [run_log].
  - eauto.
  - cbn [length] in Hn. pose proof (inv_size s HI) as Hsz. cbv zeta.
    pose proof (invoke_completes s c HI ltac:(lia)) as Hc. rewrite Hc.
    destruct (IH (after (invoke c s))) as (s' & evs & ->).
    + now apply call_Inv.
    + pose proof (invoke_size_le s c HI Hc). lia.
    + eauto.
Qed.

(** Over the life of a queue every buffer is released exactly once.  A
    sequence of at most 2^30 calls on a fresh queue runs to its end, and
    for every sequence of calls that does (calls that throw included):
    from the constructor's allocation on, no [delete[]] finds no buffer
    alive, one buffer is alive after the last call, and none after the
    destructor, which leaves the null pointer. *)
Theorem lifetime_paired cs :
  (Z.of_nat (length cs) ≤ 1073741824 →
   ∃ s' evs, run_log cs (after construct) = Some (s', evs)) ∧
  ∀ s' evs, run_log cs (after construct) = Some (s', evs) →
    buffers 0 (events construct ++ evs) = Some 1%nat ∧
    buffers 0 (events construct ++ evs ++ events (destroy s')) = Some 0%nat ∧
    result (destroy s') = Done tt ∧
    heap (after (destroy s')) = [].
Proof.
  split.
  - intros Hn. apply run_log_defined; [apply Inv_new | cbn; lia].
  - intros s' evs H. pose proof (run_log_paired cs _ _ _ 0%nat H) as Hb.
    cbn [construct events app buffers].
    split; [assumption|]. split; [|split; reflexivity].
    now rewrite buffers_app, Hb.
Qed.

(** ** Compositions *)

Lemma enqueue_seqs_spec {U} dataPoints : ∀ s,
  Inv s →
  currentSize s + Z.of_nat (length (concat dataPoints)) ≤ MAX_CAPACITY ∨ U →
  wp_or U (enqueue_seqs dataPoints) s
     (λ _ s', Inv s' ∧
              currentSize s' = currentSize s + Z.of_nat (length (concat dataPoints)) ∧
              live s' ≡ₚ concat dataPoints ++ live s).
Proof.
  induction dataPoints as [|seq rest IH]; intros s HI Hmax;
    cbn [enqueue_seqs concat].
  - apply wp_ret. cbn. split; [assumption|]. split; [lia | reflexivity].
  - cbn [concat] in Hmax. rewrite length_app in Hmax.
    apply wp_bind. eapply wp_mono.
    + apply enqueue_all_spec; [assumption|].
      destruct Hmax; [left; lia | now right].
    + cbn beta. intros _ s1 (HI1 & Hn1 & Hl1).
      eapply wp_mono.
      * apply IH; [assumption|]. destruct Hmax; [left; lia | now right].
      * cbn beta. intros _ s2 (HI2 & Hn2 & Hl2).
        split; [assumption|]. split; [rewrite length_app; lia|].
        rewrite Hl2, Hl1, (assoc_L (++)).
        apply Permutation_app_tail, Permutation_app_comm.
Qed.

(** [combine] of [Demos/NPSGUI.cpp] sorts: for sequences of at most 2^30
    points in all, it returns the points of all the sequences, each as
    often as it occurs, in non-decreasing order of weight, and its queue
    is empty at the end. *)
Theorem combine_sorts dataPoints :
  Z.of_nat (length (concat dataPoints)) ≤ 1073741824 →
  ∃ out, result (combine dataPoints) = Done out ∧
         Sorted Z.le (weight <$> out) ∧
         out ≡ₚ concat dataPoints ∧
         currentSize (after (combine dataPoints)) = 0.
Proof.
  intros Hlen. unfold combine.
  destruct (wp_total (enqueue_seqs dataPoints ;;; drain) HeapPQueue_new
    (λ out s', Sorted Z.le (weight <$> out) ∧ out ≡ₚ concat dataPoints ∧
               currentSize s' = 0)) as (out & Hout & HQ); [|eauto].
  apply wp_bind. eapply wp_mono.
  - apply enqueue_seqs_spec; [apply Inv_new | left; cbn; ulia].
  - cbn beta. intros _ s1 (HI1 & Hn1 & Hl1). cbn in Hn1.
    eapply wp_mono; [apply drain_spec; [assumption | left; lia]|].
    cbn beta. intros out s2 (_ & H0 & Hperm & Hsorted).
    split; [now apply StronglySorted_Sorted|]. split; [|assumption].
    rewrite Hperm, Hl1. unfold live. cbn. now rewrite app_nil_r.
Qed.

(** [enqueue] followed by [dequeue] on a reachable queue of fewer than
    2^30 elements returns an element of least weight among the new element
    and the old ones and leaves the others, as many as before; on the
    empty queue it returns the new element and leaves the queue empty. *)
Theorem enqueue_then_dequeue s data :
  reachable s → currentSize s < 1073741824 →
  let r := (enqueue data ;;; dequeue) s in
  ∃ d, result r = Done d ∧
       currentSize (after r) = currentSize s ∧
       data :: live s ≡ₚ d :: live (after r) ∧
       (∀ x, x ∈ data :: live s → weight d ≤ weight x) ∧
       (currentSize s = 0 → d = data ∧ live (after r) = []).
Proof.
  intros HI%reachable_Inv Hn r. pose proof (inv_size s HI) as Hsz.
  destruct (wp_total (enqueue data ;;; dequeue) s
    (λ d s', currentSize s' = currentSize s ∧
             data :: live s ≡ₚ d :: live s' ∧
             ∀ x, x ∈ data :: live s → weight d ≤ weight x))
    as (d & Hd & Hsize & Hperm & Hmin).
  { apply wp_bind. eapply wp_mono.
    - apply enqueue_spec; [assumption | left; ulia].
    - cbn beta. intros _ s1 (HI1 & Hn1 & Hl1 & _).
      eapply wp_mono; [apply dequeue_spec; [assumption | lia | left; lia]|].
      cbn beta. intros d s2 (_ & Hn2 & Hroot & Hl2 & _).
      split; [lia|]. split; [now rewrite <- Hl1|].
      intros x Hx. apply (Inv_root_min s1); [assumption | assumption |].
      now rewrite Hl1. }
  fold r in Hd, Hsize, Hperm. exists d.
  split; [assumption|]. split; [assumption|]. split; [assumption|].
  split; [assumption|].
  intros H0. unfold live at 1 in Hperm. rewrite H0 in Hperm. cbn in Hperm.
  pose proof (Permutation_length Hperm) as Hl. cbn in Hl.
  destruct (live (after r)); [|discriminate].
  apply Permutation_singleton_l in Hperm. now injection Hperm as ->.
Qed.

(** [enqueue] of an element that is not lighter than the element at the
    parent of the first free slot puts it into that slot and leaves every
    other live slot as it was: [bubbleUp] swaps nothing. *)
Theorem enqueue_in_place s data :
  reachable s → currentSize s < MAX_CAPACITY →
  (0 < currentSize s →
   ∃ p, cell (heap s) ((currentSize s - 1) ÷ 2) = Some p ∧ weight p ≤ weight data) →
  let r := enqueue data s in
  result r = Done tt ∧
  cell (heap (after r)) (currentSize s) = Some data ∧
  ∀ i, 0 ≤ i < currentSize s → cell (heap (after r)) i = cell (heap s) i.
Proof.
  intros HI%reachable_Inv Hn Hp r. pose proof (inv_size s HI) as Hsz.
  destruct (wp_total _ _ _ (enqueue_spec (U := False) data s HI (or_introl Hn)))
    as ([] & Hr & _ & _ & _ & _ & Hpos).
  fold r in Hr, Hpos. split; [assumption|]. apply Hpos.
  destruct (decide (currentSize s = 0)) as [E|E]; [now left | right].
  destruct (Hp ltac:(lia)) as (p & Hc & Hle).
  rewrite quot_par in Hc by lia. now rewrite (wt_cell _ _ _ Hc).
Qed.

(** ** [printDebugInfo] *)

Lemma Forall_is_Some_omap {A} (l : list (option A)) :
  Forall is_Some l → l = Some <$> omap id l.
Proof.
  induction 1 as [|x l [a ->] _ IH]; [reflexivity|].
  cbn. now rewrite <- IH.
Qed.

Lemma contents_Some h n :
  n ≤ Z.of_nat (length h) → initialised h n →
  take (Z.to_nat n) h = Some <$> contents h n.
Proof.
  intros Hn Hin. apply Forall_is_Some_omap. now apply initialised_Forall.
Qed.

Lemma contents_length h n :
  0 ≤ n ≤ Z.of_nat (length h) → initialised h n →
  Z.of_nat (length (contents h n)) = n.
Proof.
  intros Hn Hin.
  rewrite <- (length_fmap Some), <- contents_Some by (assumption || lia).
  rewrite length_take. lia.
Qed.

Lemma contents_lookup h n i d :
  n ≤ Z.of_nat (length h) → initialised h n → 0 ≤ i < n →
  cell h i = Some d → contents h n !! Z.to_nat i = Some d.
Proof.
  intros Hn Hin Hi [_ Hc]%cell_Some.
  pose proof (contents_Some h n Hn Hin) as E.
  assert (take (Z.to_nat n) h !! Z.to_nat i = Some (Some d)) as Ht
    by (rewrite lookup_take_lt by lia; assumption).
  rewrite E, list_lookup_fmap in Ht.
  destruct (contents h n !! Z.to_nat i) as [x|]; [|discriminate].
  cbn in Ht. now injection Ht as ->.
Qed.

(** The level that [printDebugInfo] has reached when it comes to index
    [i], and the test it makes there. *)
Lemma level_step i :
  1 ≤ i →
  (i =? 2 ^ (Z.log2 i + 1) - 1) = row_start i ∧
  Z.log2 (i + 1) + 1
  = (if i =? 2 ^ (Z.log2 i + 1) - 1 then Z.log2 i + 1 + 1 else Z.log2 i + 1).
Proof.
  intros Hi. pose proof (Z.log2_spec i ltac:(lia)) as [Hlo Hhi].
  pose proof (Z.log2_nonneg i) as Hnn.
  replace (Z.succ (Z.log2 i)) with (Z.log2 i + 1) in Hhi by lia.
  unfold row_start. replace (0 <? i) with true by (symmetry; apply Z.ltb_lt; lia).
  cbn [andb].
  destruct (i =? 2 ^ (Z.log2 i + 1) - 1) eqn:E;
    [apply Z.eqb_eq in E | apply Z.eqb_neq in E].
  - assert (i + 1 = 2 ^ (Z.log2 i + 1)) as E1 by lia.
    assert (Z.log2 (i + 1) = Z.log2 i + 1) as El
      by (rewrite E1; apply Z.log2_pow2; lia).
    split; [|lia]. symmetry. apply Z.eqb_eq. rewrite El. lia.
  - assert (Z.log2 (i + 1) = Z.log2 i) as El
      by (apply Z.log2_unique; [lia|]; replace (Z.succ (Z.log2 i))
            with (Z.log2 i + 1) by lia; lia).
    split; [|lia]. symmetry. apply Z.eqb_neq. rewrite El. lia.
Qed.

Lemma log2_level i : 1 ≤ i → i < 1073741824 → 0 ≤ Z.log2 i ≤ 29.
Proof.
  intros H1 Hi. split; [apply Z.log2_nonneg|].
  enough (Z.log2 i < 30) by lia.
  apply Z.log2_lt_pow2; [lia|]. exact Hi.
Qed.

Lemma printDebugInfo_loop_spec fuel : ∀ i level s,
  Inv s → currentSize s ≤ 1073741824 →
  0 ≤ i ≤ currentSize s →
  level = (if i =? 0 then 0 else Z.log2 i + 1) →
  (Z.to_nat (currentSize s - i) < fuel)%nat →
  wp_or False (printDebugInfo_loop fuel i level) s
     (λ out s', s' = s ∧ out = tree_view i (drop (Z.to_nat i) (live s))).
Proof.
  induction fuel as [|fuel IH]; intros i level s HI Hmax Hi Hlevel Hfuel; [lia|].
  pose proof (inv_size s HI) as Hsz.
  pose proof (inv_len s HI) as Hlen.
  cbn [printDebugInfo_loop]. apply wp_bind. apply wp_get.
  destruct (i <? currentSize s) eqn:E; [apply Z.ltb_lt in E | apply Z.ltb_ge in E].
  - assert (0 ≤ level ≤ 30 ∧ 1 ≤ 2 ^ level ≤ 1073741824) as [Hl Hp].
    { destruct (i =? 0) eqn:E0; [subst level; split; [lia | cbn; lia]|].
      apply Z.eqb_neq in E0. pose proof (log2_level i ltac:(lia) ltac:(lia)).
      split; [lia|].
      pose proof (Z.pow_pos_nonneg 2 level ltac:(lia) ltac:(lia)).
      split; [lia|].
      change 1073741824 with (2 ^ 30). apply Z.pow_le_mono_r; lia. }
    apply wp_bind. unfold shift_left.
    replace (0 <=? level) with true by (symmetry; apply Z.leb_le; lia).
    replace (level <? 32) with true by (symmetry; apply Z.ltb_lt; lia).
    cbn [andb]. rewrite Z.shiftl_1_l.
    apply wp_int; [ulia|].
    apply wp_bind. apply wp_int; [ulia|].
    apply wp_bind.
    apply (wp_mono _ _ (λ br s', s' = s ∧
             br.1 = (if row_start i then [Endl] else []) ∧
             br.2 = (if i + 1 =? 0 then 0 else Z.log2 (i + 1) + 1))).
    { replace (i + 1 =? 0) with false by (symmetry; apply Z.eqb_neq; lia).
      destruct (i =? 0) eqn:E0; [apply Z.eqb_eq in E0 | apply Z.eqb_neq in E0].
      - subst i level. cbn [Z.pow Z.pow_pos Pos.iter Z.mul Z.sub Z.eqb Z.add
                              Z.opp Z.pos_sub Z.gtb Z.compare].
        apply wp_bind. apply wp_int; [ulia|]. apply wp_ret.
        split; [reflexivity|]. split; reflexivity.
      - destruct (level_step i ltac:(lia)) as [Htest Hnext]. subst level.
        rewrite Htest in *.
        destruct (row_start i) eqn:Er.
        + apply wp_bind. apply wp_int; [ulia|]. apply wp_ret.
          split; [reflexivity|]. cbn [fst snd]. split; [|symmetry; exact Hnext].
          replace (Z.log2 i + 1 >? 0) with true; [reflexivity|].
          symmetry. apply Z.gtb_lt. pose proof (Z.log2_nonneg i). lia.
        + apply wp_ret. split; [reflexivity|]. cbn [fst snd].
          split; [reflexivity | symmetry; exact Hnext]. }
    cbn beta. intros br s' (-> & Hbr1 & Hbr2).
    apply wp_bind. apply (wp_load_init (currentSize s)); [apply (inv_init s HI) | lia |].
    intros d Hd _.
    apply wp_bind. apply wp_int; [ulia|].
    apply wp_bind. eapply wp_mono.
    + apply IH; [assumption | assumption | lia | exact Hbr2 | lia].
    + cbn beta. intros rest s' [-> ->]. apply wp_ret. split; [reflexivity|].
      rewrite Hbr1.
      rewrite (drop_S (live s) d (Z.to_nat i)).
      * cbn [tree_view]. replace (Z.to_nat (i + 1)) with (S (Z.to_nat i)) by lia.
        reflexivity.
      * apply contents_lookup; [lia | apply (inv_init s HI) | lia | assumption].
  - apply wp_ret. split; [reflexivity|].
    rewrite drop_ge; [reflexivity|].
    pose proof (contents_length (heap s) (currentSize s) ltac:(lia) (inv_init s HI)).
    unfold live. lia.
Qed.

(** [printDebugInfo] on a reachable queue of at most 2^30 elements
    returns and leaves the queue as it is; it prints the header line, the
    live elements in index order, each followed by a space, with a line
    break before the elements at the indices 1, 3, 7, ..., 2^k - 1, and a
    final line break. *)
Theorem printDebugInfo_output s :
  reachable s → currentSize s ≤ 1073741824 →
  result (printDebugInfo s)
  = Done ([Text "Heap contents (tree view):"; Endl]
          ++ tree_view 0 (live s) ++ [Endl]) ∧
  after (printDebugInfo s) = s.
Proof.
  intros HI%reachable_Inv Hmax. pose proof (inv_size s HI) as Hsz.
  destruct (wp_total printDebugInfo s
    (λ out s', out = [Text "Heap contents (tree view):"; Endl]
                     ++ tree_view 0 (live s) ++ [Endl] ∧ s' = s))
    as (out & Hout & -> & Hs); [|now rewrite Hout].
  unfold printDebugInfo. cbv zeta.
  apply wp_bind. apply wp_get.
  apply wp_bind. eapply wp_mono.
  - apply printDebugInfo_loop_spec; [assumption | assumption | lia | reflexivity | lia].
  - cbn beta. intros body s' [-> ->]. apply wp_ret. split; reflexivity.
Qed.

(** ** [bubbleUp] and [bubbleDown] on their own *)

Lemma ordered_heap_property s :
  initialised (heap s) (currentSize s) → ordered (wt (heap s)) (currentSize s) →
  heap_property s.
Proof.
  intros Hin Hord i Hi. pose proof (par_lt i ltac:(lia)) as Hp.
  rewrite quot_par by lia.
  destruct (Hin (par i) ltac:(lia)) as [a Ha].
  destruct (Hin i ltac:(lia)) as [b Hb].
  exists a, b. split; [assumption|]. split; [assumption|].
  pose proof (Hord i Hi) as Ho. unfold wt in Ho. now rewrite Ha, Hb in Ho.
Qed.

(** [bubbleUp(currentSize - 1)] restores the heap: when the live slots
    are assigned and all but the last are in heap order, it returns with
    the live slots in heap order, holding the same elements; it changes
    nothing but the buffer. *)
Theorem bubbleUp_restores s :
  1 ≤ currentSize s ≤ Z.of_nat (length (heap s)) → currentSize s ≤ INT_MAX →
  initialised (heap s) (currentSize s) →
  ordered (wt (heap s)) (currentSize s - 1) →
  let r := bubbleUp (currentSize s - 1) s in
  result r = Done tt ∧
  after r = with_heap (heap (after r)) s ∧
  heap_property (after r) ∧
  live (after r) ≡ₚ live s.
Proof.
  intros Hn Hmax Hin Hord r.
  destruct (wp_total _ _ _
    (bubbleUp_spec (U := False) (currentSize s) (currentSize s - 1) s
       ltac:(lia) ltac:(lia) Hmax Hin
       ltac:(replace (currentSize s) with (currentSize s - 1 + 1) at 1 by lia;
             apply (ordered_up_inv (wt (heap s))); [lia | assumption | reflexivity])))
    as ([] & Hr & h' & Hafter & Hre & Hord' & _).
  fold r in Hr, Hafter.
  assert (heap (after r) = h') as Hh by now rewrite Hafter.
  split; [assumption|]. split; [now rewrite Hh|]. split.
  - apply ordered_heap_property; rewrite Hafter; cbn [heap currentSize with_heap].
    + now apply (rearranged_initialised (currentSize s) (heap s)); [lia | |].
    + assumption.
  - unfold live. rewrite Hafter. cbn [heap currentSize with_heap].
    now apply rearranged_contents.
Qed.

(** [bubbleDown(0)] restores the heap: when the live slots, at most
    2^30 - 1, are assigned and every slot whose parent is not the root is
    in order with its parent, it returns with the live slots in heap order,
    holding the same elements; it changes nothing but the buffer. *)
Theorem bubbleDown_restores s :
  0 ≤ currentSize s ≤ Z.of_nat (length (heap s)) → currentSize s ≤ 1073741823 →
  initialised (heap s) (currentSize s) →
  (∀ i, 3 ≤ i < currentSize s →
        wt (heap s) ((i - 1) ÷ 2) ≤ wt (heap s) i) →
  let r := bubbleDown 0 s in
  result r = Done tt ∧
  after r = with_heap (heap (after r)) s ∧
  heap_property (after r) ∧
  live (after r) ≡ₚ live s.
Proof.
  intros Hn Hmax Hin Hord r.
  assert (down_inv (wt (heap s)) (currentSize s) 0) as Hdown.
  { split; [|lia]. intros i Hi Hp. rewrite <- quot_par by lia. apply Hord.
    pose proof (par_children i 0 ltac:(lia)). lia. }
  destruct (wp_total _ _ _
    (bubbleDown_spec (U := False) (currentSize s) s eq_refl ltac:(lia) ltac:(lia)
       (or_introl Hmax) Hin Hdown))
    as ([] & Hr & h' & Hafter & Hre & Hord').
  fold r in Hr, Hafter.
  assert (heap (after r) = h') as Hh by now rewrite Hafter.
  split; [assumption|]. split; [now rewrite Hh|]. split.
  - apply ordered_heap_property; rewrite Hafter; cbn [heap currentSize with_heap].
    + now apply (rearranged_initialised (currentSize s) (heap s)); [lia | |].
    + assumption.
  - unfold live. rewrite Hafter. cbn [heap currentSize with_heap].
    now apply rearranged_contents.
Qed.

(** ** Alternating calls at a full queue *)

Lemma invoke_enqueue_run data s :
  result (enqueue data s) = Done tt →
  invoke (Enqueue data) s
  = MkRun (Done Void) (after (enqueue data s)) (events (enqueue data s)).
Proof.
  intros H. cbn [invoke]. rewrite bind_case, H. cbn [ret result after events].
  now rewrite app_nil_r.
Qed.

Lemma invoke_dequeue_run s d :
  result (dequeue s) = Done d →
  invoke Dequeue s
  = MkRun (Done (Point d)) (after (dequeue s)) (events (dequeue s)).
Proof.
  intros H. cbn [invoke]. rewrite bind_case, H. cbn [ret result after events].
  now rewrite app_nil_r.
Qed.

Lemma enqueue_step s data :
  reachable s → currentSize s < MAX_CAPACITY →
  let r := invoke (Enqueue data) s in
  result r = Done Void ∧ reachable (after r) ∧
  currentSize (after r) = currentSize s + 1 ∧
  capacity (after r)
  = (if currentSize s =? capacity s then 2 * capacity s else capacity s) ∧
  allocations (events r)
  = (if currentSize s =? capacity s then [2 * capacity s] else []) ∧
  frees (events r) = (if currentSize s =? capacity s then 1%nat else 0%nat).
Proof.
  intros Hs Hn r. pose proof (reachable_Inv s Hs) as HI.
  destruct (wp_total _ _ _ (enqueue_spec (U := False) data s HI (or_introl Hn)))
    as ([] & Hr & _ & Hsize & _ & Hcap & _).
  destruct (enqueue_ledger data s (inv_grow s HI) (inv_size s HI) tt Hr) as [Ha Hf].
  assert (reachable (after r)) as Hreach
    by (apply reachable_call; [assumption|];
        now rewrite (invoke_enqueue_run data s Hr)).
  unfold r in *. rewrite (invoke_enqueue_run data s Hr) in *.
  cbn [result after events] in *. auto 10.
Qed.

Lemma dequeue_step s :
  reachable s → 0 < currentSize s → currentSize s ≤ 1073741824 →
  let r := invoke Dequeue s in
  (∃ d, result r = Done (Point d)) ∧ reachable (after r) ∧
  currentSize (after r) = currentSize s - 1 ∧
  capacity (after r)
  = (if 4 * (currentSize s - 1) <? capacity s
     then Z.max INITIAL_CAPACITY (capacity s ÷ 2) else capacity s) ∧
  allocations (events r)
  = (if 4 * (currentSize s - 1) <? capacity s
     then [Z.max INITIAL_CAPACITY (capacity s ÷ 2)] else []) ∧
  frees (events r)
  = (if 4 * (currentSize s - 1) <? capacity s then 1%nat else 0%nat).
Proof.
  intros Hs Hn Hmax r. pose proof (reachable_Inv s Hs) as HI.
  pose proof (capacity_form_bounds _ (inv_cap s HI)) as Hcb.
  destruct (wp_total _ _ _ (dequeue_spec (U := False) s HI Hn (or_introl Hmax)))
    as (d & Hr & _ & Hsize & _ & _ & Hcap).
  destruct (dequeue_ledger s (inv_grow s HI) (inv_shrink s HI) Hn ltac:(ulia) d Hr)
    as [Ha Hf].
  assert (reachable (after r)) as Hreach
    by (apply reachable_call; [assumption|];
        now rewrite (invoke_dequeue_run s d Hr)).
  unfold r in *. rewrite (invoke_dequeue_run s d Hr) in *.
  cbn [result after events] in *. eauto 10.
Qed.

Lemma run_log_cons c cs s s' evs :
  completes (result (invoke c s)) = true →
  run_log cs (after (invoke c s)) = Some (s', evs) →
  run_log (c :: cs) s = Some (s', events (invoke c s) ++ evs).
Proof. intros Hc Hrest. cbn [run_log]. cbv zeta. now rewrite Hc, Hrest. Qed.

Lemma alternating_quiet ds : ∀ s,
  reachable s → currentSize s < capacity s → capacity s ≤ 4 * currentSize s →
  currentSize s < 1073741824 →
  ∃ s' evs, run_log (alternating ds) s = Some (s', evs) ∧
            allocations evs = [] ∧ frees evs = 0%nat ∧
            currentSize s' = currentSize s ∧ capacity s' = capacity s.
Proof.
  induction ds as [|d ds IH]; intros s Hs Hfree Hload Hmax.
  - exists s, []. auto.
  - pose proof (capacity_form_bounds _ (inv_cap s (reachable_Inv s Hs))) as Hcb.
    destruct (enqueue_step s d Hs ltac:(lia)) as (Hr1 & Hs1 & Hn1 & Hc1 & Ha1 & Hf1).
    replace (currentSize s =? capacity s) with false in Hc1, Ha1, Hf1
      by (symmetry; apply Z.eqb_neq; lia).
    set (s1 := after (invoke (Enqueue d) s)) in *.
    destruct (dequeue_step s1 Hs1 ltac:(lia) ltac:(lia))
      as ([x Hr2] & Hs2 & Hn2 & Hc2 & Ha2 & Hf2).
    replace (4 * (currentSize s1 - 1) <? capacity s1) with false in Hc2, Ha2, Hf2
      by (symmetry; apply Z.ltb_ge; lia).
    set (s2 := after (invoke Dequeue s1)) in *.
    destruct (IH s2 Hs2 ltac:(lia) ltac:(lia) ltac:(lia))
      as (s' & evs & Hrun & Ha & Hf & Hn' & Hc').
    exists s', (events (invoke (Enqueue d) s) ++ events (invoke Dequeue s1) ++ evs).
    split; [|split; [|split; [|split]]].
    + change (alternating (d :: ds))
        with (Enqueue d :: Dequeue :: alternating ds).
      apply run_log_cons; [now rewrite Hr1|].
      apply run_log_cons; [fold s1; now rewrite Hr2 | exact Hrun].
    + now rewrite !allocations_app, Ha1, Ha2, Ha.
    + now rewrite !frees_app, Hf1, Hf2, Hf.
    + lia.
    + lia.
Qed.

(** No thrashing at the boundary.  From a reachable full queue of fewer
    than 1677721600 elements, enqueuing and dequeuing in alternation, any
    number of times, runs to its end and reallocates once: the first
    enqueue grows the buffer to twice the capacity, and no later call
    allocates or releases a buffer. *)
Theorem no_thrash_after_grow s ds :
  reachable s → currentSize s = capacity s → currentSize s < MAX_CAPACITY →
  ds ≠ [] →
  ∃ s' evs, run_log (alternating ds) s = Some (s', evs) ∧
            allocations evs = [2 * capacity s] ∧ frees evs = 1%nat ∧
            currentSize s' = currentSize s ∧ capacity s' = 2 * capacity s.
Proof.
  intros Hs Hfull Hmax Hds. destruct ds as [|d ds]; [contradiction|].
  pose proof (reachable_Inv s Hs) as HI.
  pose proof (capacity_form_bounds _ (inv_cap s HI)) as Hcb.
  pose proof (capacity_form_bounds _
                (capacity_form_double _ (inv_cap s HI) ltac:(lia))) as Hcb2.
  destruct (enqueue_step s d Hs Hmax) as (Hr1 & Hs1 & Hn1 & Hc1 & Ha1 & Hf1).
  replace (currentSize s =? capacity s) with true in Hc1, Ha1, Hf1
    by (symmetry; apply Z.eqb_eq; lia).
  set (s1 := after (invoke (Enqueue d) s)) in *.
  destruct (dequeue_step s1 Hs1 ltac:(ulia) ltac:(ulia))
    as ([x Hr2] & Hs2 & Hn2 & Hc2 & Ha2 & Hf2).
  replace (4 * (currentSize s1 - 1) <? capacity s1) with false in Hc2, Ha2, Hf2
    by (symmetry; apply Z.ltb_ge; ulia).
  set (s2 := after (invoke Dequeue s1)) in *.
  destruct (alternating_quiet ds s2 Hs2 ltac:(ulia) ltac:(ulia) ltac:(ulia))
    as (s' & evs & Hrun & Ha & Hf & Hn' & Hc').
  exists s', (events (invoke (Enqueue d) s) ++ events (invoke Dequeue s1) ++ evs).
  split; [|split; [|split; [|split]]].
  - change (alternating (d :: ds))
      with (Enqueue d :: Dequeue :: alternating ds).
    apply run_log_cons; [now rewrite Hr1|].
    apply run_log_cons; [fold s1; now rewrite Hr2 | exact Hrun].
  - now rewrite !allocations_app, Ha1, Ha2, Ha.
  - now rewrite !frees_app, Hf1, Hf2, Hf.
  - lia.
  - lia.
Qed.

(** At the smallest capacity the shrink test still fires.  From a
    reachable queue of capacity [INITIAL_CAPACITY] with fewer than 25
    elements, enqueuing and dequeuing in alternation runs to its end, and
    every dequeue replaces the buffer by a new one of the same capacity:
    the run allocates [INITIAL_CAPACITY] slots once for each dequeue, and
    releases as many buffers. *)
Theorem floor_dequeue_reallocates ds : ∀ s,
  reachable s → capacity s = INITIAL_CAPACITY → currentSize s < 25 →
  ∃ s' evs, run_log (alternating ds) s = Some (s', evs) ∧
            allocations evs = replicate (length ds) INITIAL_CAPACITY ∧
            frees evs = length ds ∧
            currentSize s' = currentSize s ∧ capacity s' = INITIAL_CAPACITY.
Proof.
  induction ds as [|d ds IH]; intros s Hs Hcap Hn.
  - exists s, []. auto.
  - pose proof (inv_size s (reachable_Inv s Hs)) as Hsz.
    destruct (enqueue_step s d Hs ltac:(ulia)) as (Hr1 & Hs1 & Hn1 & Hc1 & Ha1 & Hf1).
    replace (currentSize s =? capacity s) with false in Hc1, Ha1, Hf1
      by (symmetry; apply Z.eqb_neq; ulia).
    set (s1 := after (invoke (Enqueue d) s)) in *.
    destruct (dequeue_step s1 Hs1 ltac:(lia) ltac:(lia))
      as ([x Hr2] & Hs2 & Hn2 & Hc2 & Ha2 & Hf2).
    replace (4 * (currentSize s1 - 1) <? capacity s1) with true in Hc2, Ha2, Hf2
      by (symmetry; apply Z.ltb_lt; ulia).
    rewrite Hc1, Hcap in Hc2, Ha2.
    change (Z.max INITIAL_CAPACITY (INITIAL_CAPACITY ÷ 2))
      with INITIAL_CAPACITY in Hc2, Ha2.
    set (s2 := after (invoke Dequeue s1)) in *.
    destruct (IH s2 Hs2 Hc2 ltac:(lia)) as (s' & evs & Hrun & Ha & Hf & Hn' & Hc').
    exists s', (events (invoke (Enqueue d) s) ++ events (invoke Dequeue s1) ++ evs).
    split; [|split; [|split; [|split]]].
    + change (alternating (d :: ds))
        with (Enqueue d :: Dequeue :: alternating ds).
      apply run_log_cons; [now rewrite Hr1|].
      apply run_log_cons; [fold s1; now rewrite Hr2 | exact Hrun].
    + now rewrite !allocations_app, Ha1, Ha2, Ha.
    + now rewrite !frees_app, Hf1, Hf2, Hf.
    + lia.
    + assumption.
Qed.

(** ** The buffers of a run of enqueues *)

Lemma enqueue_run_step s data :
  reachable s → currentSize s < MAX_CAPACITY →
  let r := enqueue data s in
  result r = Done tt ∧ reachable (after r) ∧
  currentSize (after r) = currentSize s + 1 ∧
  capacity (after r)
  = (if currentSize s =? capacity s then 2 * capacity s else capacity s) ∧
  allocations (events r)
  = (if currentSize s =? capacity s then [2 * capacity s] else []).
Proof.
  intros Hs Hn r.
  destruct (enqueue_step s data Hs Hn) as (Hr & Hreach & Hsize & Hcap & Ha & _).
  assert (result r = Done tt) as Hr'.
  { unfold r. destruct (result (enqueue data s)) as [[]| | |] eqn:E;
      [reflexivity|..]; cbn [invoke] in Hr; rewrite result_bind, E in Hr;
      discriminate. }
  rewrite (invoke_enqueue_run data s Hr') in *.
  cbn [result after events] in *. auto.
Qed.

Lemma sum_doubling (k : nat) : ∀ j,
  0 ≤ j →
  foldr Z.add 0 ((λ i, INITIAL_CAPACITY * 2 ^ i) <$> seqZ j (Z.of_nat k))
  = INITIAL_CAPACITY * (2 ^ (j + Z.of_nat k) - 2 ^ j).
Proof.
  induction k as [|k IH]; intros j Hj.
  - rewrite seqZ_nil by lia. change (Z.of_nat 0) with 0.
    rewrite Z.add_0_r. cbn [fmap list_fmap foldr]. lia.
  - rewrite seqZ_cons by lia. rewrite fmap_cons. cbn [foldr].
    replace (Z.pred (Z.of_nat (S k))) with (Z.of_nat k) by lia.
    rewrite IH by lia.
    replace (Z.succ j + Z.of_nat k) with (j + Z.of_nat (S k)) by lia.
    replace (2 ^ Z.succ j) with (2 * 2 ^ j) by (rewrite Z.pow_succ_r; lia).
    lia.
Qed.

Lemma enqueue_all_doubles sequence : ∀ s k,
  reachable s → 0 ≤ k → capacity s = INITIAL_CAPACITY * 2 ^ k →
  currentSize s + Z.of_nat (length sequence) ≤ MAX_CAPACITY →
  k = 0 ∨ capacity s < 2 * currentSize s →
  let r := enqueue_all sequence s in
  ∃ k', k ≤ k' ∧ result r = Done tt ∧
        allocations (events r)
        = (λ i, INITIAL_CAPACITY * 2 ^ i) <$> seqZ (k + 1) (k' - k) ∧
        capacity (after r) = INITIAL_CAPACITY * 2 ^ k' ∧
        (k' = 0 ∨
         capacity (after r) < 2 * (currentSize s + Z.of_nat (length sequence))).
Proof.
  induction sequence as [|d rest IH]; intros s k Hs Hk Hcap Hlen Htight r.
  - exists k. unfold r. cbn [enqueue_all ret result after events length].
    rewrite Z.sub_diag, seqZ_nil by lia.
    split; [lia|]. split; [reflexivity|]. split; [reflexivity|].
    split; [assumption|]. destruct Htight; [now left | right; lia].
  - cbn [length] in Hlen.
    destruct (enqueue_run_step s d Hs ltac:(lia)) as (Hr1 & Hs1 & Hn1 & Hc1 & Ha1).
    set (s1 := after (enqueue d s)) in *.
    assert (∃ k1, (k1 = k ∨ k1 = k + 1) ∧ capacity s1 = INITIAL_CAPACITY * 2 ^ k1 ∧
                  allocations (events (enqueue d s))
                  = (λ i, INITIAL_CAPACITY * 2 ^ i) <$> seqZ (k + 1) (k1 - k) ∧
                  (k1 = 0 ∨ capacity s1 < 2 * currentSize s1))
      as (k1 & Hk1 & Hcap1 & Hall1 & Htight1).
    { destruct (currentSize s =? capacity s) eqn:E;
        [apply Z.eqb_eq in E | apply Z.eqb_neq in E].
      - exists (k + 1). split; [now right|].
        replace (k + 1 - k) with 1 by lia.
        assert (2 * capacity s = INITIAL_CAPACITY * 2 ^ (k + 1)) as E2
          by (rewrite Hcap, Z.pow_add_r by lia; lia).
        rewrite Hc1, Ha1, E2.
        split; [reflexivity|]. split; [|right; lia].
        rewrite (seqZ_cons (k + 1) 1), seqZ_nil by lia. reflexivity.
      - exists k. split; [now left|]. rewrite Z.sub_diag, seqZ_nil by lia.
        rewrite Hc1, Ha1. split; [assumption|]. split; [reflexivity|].
        destruct Htight; [now left | right; lia]. }
    destruct (IH s1 k1 Hs1 ltac:(lia) Hcap1 ltac:(lia) Htight1)
      as (k' & Hk' & Hr2 & Ha2 & Hc2 & Ht2).
    exists k'. unfold r. cbn [enqueue_all].
    rewrite result_bind, events_bind, after_bind, Hr1. fold s1.
    split; [lia|]. split; [assumption|]. split; [|split].
    + rewrite allocations_app, Hall1, Ha2, <- fmap_app. f_equal.
      destruct Hk1 as [-> | ->].
      * now rewrite Z.sub_diag, seqZ_nil by lia.
      * replace (k + 1 - k) with 1 by lia.
        rewrite (seqZ_cons (k + 1) (k' - k)) by lia.
        replace (Z.succ (k + 1)) with (k + 1 + 1) by lia.
        replace (Z.pred (k' - k)) with (k' - (k + 1)) by lia.
        reflexivity.
    + assumption.
    + destruct Ht2 as [?|Ht2]; [now left | right].
      rewrite Hn1 in Ht2. cbn [length]. lia.
Qed.

(** Growth is geometric.  Enqueuing a sequence of at most 1677721600
    elements into a fresh queue allocates buffers of 200, 400, ...,
    100 * 2^k slots, in this order, where 100 * 2^k is the capacity at the
    end; unless no buffer was allocated, this capacity is less than twice
    the number of elements, and all the buffers allocated have together
    fewer slots than twice this capacity. *)
Theorem enqueue_all_growth sequence :
  Z.of_nat (length sequence) ≤ MAX_CAPACITY →
  let r := enqueue_all sequence HeapPQueue_new in
  result r = Done tt ∧
  ∃ k, 0 ≤ k ∧
       allocations (events r)
       = (λ i, INITIAL_CAPACITY * 2 ^ i) <$> seqZ 1 k ∧
       capacity (after r) = INITIAL_CAPACITY * 2 ^ k ∧
       (k = 0 ∨ capacity (after r) < 2 * Z.of_nat (length sequence)) ∧
       foldr Z.add 0 (allocations (events r)) < 2 * capacity (after r).
Proof.
  intros Hlen r.
  destruct (enqueue_all_doubles sequence HeapPQueue_new 0 reachable_new
              ltac:(lia) eq_refl ltac:(cbn; lia) (or_introl eq_refl))
    as (k & Hk & Hr & Ha & Hc & Ht).
  fold r in Hr, Ha, Hc, Ht. split; [assumption|].
  exists k. replace (k - 0) with k in Ha by lia.
  split; [assumption|]. split; [exact Ha|]. split; [assumption|].
  split; [destruct Ht as [?|Ht]; [now left | right; cbn in Ht; lia]|].
  rewrite Ha, Hc. rewrite <- (Z2Nat.id k) at 1 by lia.
  rewrite sum_doubling by lia. rewrite Z2Nat.id by lia.
  replace (2 ^ (0 + 1 + k)) with (2 * 2 ^ k)
    by (replace (0 + 1 + k) with (1 + k) by lia; rewrite Z.pow_add_r by lia; lia).
  change (2 ^ (0 + 1)) with 2.
  pose proof (Z.pow_pos_nonneg 2 k ltac:(lia) Hk). ulia.
Qed.

(** ** The calls of [resize] *)

Lemma bind_assoc_at {A B C} (m : M A) (f : A → M B) (g : B → M C) s :
  bind (bind m f) g s = bind m (λ x, bind (f x) g) s.
Proof.
  unfold bind. destruct (result (m s)) as [a| | |]; cbn [result after events];
    try reflexivity.
  destruct (result (f a (after (m s)))); cbn [result after events];
    now rewrite ?app_assoc.
Qed.

Lemma bind_cong {A B} (m : M A) (k k' : A → M B) s :
  (∀ a, result (m s) = Done a → k a (after (m s)) = k' a (after (m s))) →
  bind m k s = bind m k' s.
Proof.
  intros H. unfold bind. destruct (result (m s)) as [a| | |]; try reflexivity.
  now rewrite (H a eq_refl).
Qed.

Lemma bind_cong_m {A B} (m m' : M A) (k : A → M B) s :
  m s = m' s → bind m k s = bind m' k s.
Proof. intros H. unfold bind. now rewrite H. Qed.

Lemma resize_returns newCapacity s :
  Inv s → currentSize s ≤ newCapacity → result (resize newCapacity s) = Done tt.
Proof.
  intros HI Hk. pose proof (inv_size s HI) as Hsz.
  destruct (wp_total (resize newCapacity) s (λ _ _, True)) as ([] & Hr & _);
    [|exact Hr].
  apply resize_spec; [lia | rewrite (inv_len s HI); lia | apply (inv_init s HI) | auto].
Qed.

(** [enqueue] is its test for a full buffer, with the call of [resize]
    at twice the capacity, followed by the insertion. *)
Lemma enqueue_split data s :
  growFactor s = (2 # 1)%Q →
  (currentSize s = capacity s → INT_MIN ≤ 2 * capacity s ≤ INT_MAX) →
  enqueue data s
  = ((if currentSize s =? capacity s then resize (2 * capacity s) else ret tt) ;;;
     enqueue_insert data) s.
Proof.
  intros Hg Hrange. unfold enqueue, size.
  rewrite (bind_pure_eq (get currentSize) _ s _ eq_refl).
  rewrite (bind_pure_eq (get capacity) _ s _ eq_refl).
  apply bind_cong_m.
  destruct (currentSize s =? capacity s) eqn:E; [|reflexivity].
  apply Z.eqb_eq in E.
  rewrite (bind_pure_eq (get growFactor) _ s _ eq_refl), Hg.
  unfold static_cast_int. rewrite Qtrunc_grow.
  now rewrite (bind_pure_eq _ _ _ _ (int_in (2 * capacity s) s (Hrange E))).
Qed.

Lemma dequeue_remove_empty s :
  currentSize s = 0 → dequeue_remove s = MkRun (Throw msg_dequeue) s [].
Proof.
  intros H. unfold dequeue_remove.
  rewrite (bind_pure_eq _ _ _ _ (isEmpty_run s)), H.
  now apply bind_throw_eq.
Qed.

Lemma dequeue_remove_spec {U} s :
  Inv s → 0 < currentSize s → currentSize s ≤ 1073741824 ∨ U →
  wp_or U dequeue_remove s
     (λ root s1, Inv s1 ∧ currentSize s1 = currentSize s - 1 ∧
                 capacity s1 = capacity s ∧ cell (heap s) 0 = Some root).
Proof.
  intros [Hsz Hlen Hcap Hg Ht Hin Hord] Hn Hmax.
  pose proof (capacity_form_bounds _ Hcap) as Hcb.
  set (n := currentSize s) in *. unfold dequeue_remove.
  apply wp_bind. unfold isEmpty. apply wp_bind. apply wp_get. apply wp_ret. fold n.
  replace (n =? 0) with false by (symmetry; apply Z.eqb_neq; lia).
  apply wp_bind. apply wp_ret.
  apply wp_bind. apply (wp_load_init n); [assumption | lia |]. intros root Hroot _.
  apply wp_bind. apply wp_get. fold n.
  apply wp_bind. apply wp_int; [ulia|].
  apply wp_bind. apply (wp_load_init n); [assumption | lia |]. intros last Hlast _.
  apply wp_bind. apply wp_store; [lia|].
  apply wp_bind. apply wp_get. cbn [currentSize with_heap]. fold n.
  apply wp_bind. apply wp_int; [ulia|].
  apply wp_bind. apply wp_set_currentSize.
  set (h1 := <[Z.to_nat 0 := Some last]> (heap s)).
  assert (length h1 = length (heap s)) as Hlh1 by (unfold h1; now rewrite length_insert).
  assert (∀ i, 1 ≤ i → cell h1 i = cell (heap s) i) as Hagree.
  { intros i Hi. unfold h1. rewrite cell_insert by lia. now rewrite decide_False by lia. }
  assert (initialised h1 (n - 1)) as Hin1.
  { intros i Hi. destruct (decide (i = 0)) as [->|Hne].
    - unfold h1. rewrite cell_insert by lia. rewrite decide_True by reflexivity. eauto.
    - rewrite Hagree by lia. apply Hin. lia. }
  apply wp_bind. eapply wp_mono.
  - apply (bubbleDown_spec (n - 1)); cbn [heap currentSize with_currentSize with_heap];
      fold h1.
    + reflexivity.
    + lia.
    + lia.
    + destruct Hmax; [left; lia | now right].
    + assumption.
    + apply (ordered_down_inv (wt (heap s))).
      * now replace (n - 1 + 1) with n by lia.
      * intros i Hi. unfold wt. now rewrite Hagree by lia.
  - cbn beta. intros _ s2 (h2 & -> & Hre & Hord2).
    cbn [heap with_currentSize with_heap] in Hre. fold h1 in Hre.
    assert (initialised h2 (n - 1)) as Hin2
      by (apply (rearranged_initialised (n - 1) h1); [lia | assumption | assumption]).
    assert (length h2 = length (heap s)) as Hlh2 by (destruct Hre as [-> _]; assumption).
    apply wp_ret. split; [|split; [reflexivity | split; [reflexivity | assumption]]].
    split; cbn; (assumption || lia).
Qed.

(** [dequeue] is the removal followed by the literal rest of its body. *)
Lemma dequeue_split s :
  dequeue s
  = (let/m root := dequeue_remove in
     let/m n := size in
     let/m t := get shrinkThreshold in
     let/m c := get capacity in
     (if Qltb (inject_Z n) (t * inject_Z c)%Q then
        let/m c := get capacity in
        let/m g := get growFactor in
        let/m k := static_cast_int (inject_Z c / g)%Q in
        resize (Z.max INITIAL_CAPACITY k)
      else ret tt) ;;;
     ret root) s.
Proof.
  unfold dequeue, dequeue_remove.
  repeat (match goal with
          | |- _ = bind (bind ?m ?f) ?g ?s' => rewrite (bind_assoc_at m f g s')
          end; apply bind_cong; intros ? _; cbn beta).
  symmetry. exact (bind_pure_eq (ret _) _ _ _ eq_refl).
Qed.

(** What the shrink test and the argument of the shrink call evaluate to
    after the removal. *)
Lemma shrink_call s root :
  Inv s → result (dequeue_remove s) = Done root →
  let s1 := after (dequeue_remove s) in
  Inv s1 ∧ currentSize s1 = currentSize s - 1 ∧ capacity s1 = capacity s ∧
  Qltb (inject_Z (currentSize s1)) (shrinkThreshold s1 * inject_Z (capacity s1))%Q
  = (4 * (currentSize s - 1) <? capacity s) ∧
  static_cast_int (inject_Z (capacity s1) / growFactor s1)%Q s1
  = MkRun (Done (capacity s ÷ 2)) s1 [].
Proof.
  intros HI Hroot s1. pose proof (inv_size s HI) as Hsz.
  pose proof (capacity_form_bounds _ (inv_cap s HI)) as Hcb.
  assert (0 < currentSize s) as Hn.
  { destruct (decide (currentSize s = 0)) as [E|E]; [|lia].
    rewrite (dequeue_remove_empty s E) in Hroot. discriminate. }
  destruct (wp_or_completes _ _ _
              (dequeue_remove_spec (U := True) s HI Hn (or_intror I))
              ltac:(now rewrite Hroot))
    as (root' & _ & HI1 & Hn1 & Hc1 & _).
  fold s1 in HI1, Hn1, Hc1.
  split; [assumption|]. split; [assumption|]. split; [assumption|]. split.
  - now rewrite (inv_shrink s1 HI1), Hn1, Hc1, Qltb_shrink.
  - rewrite (inv_grow s1 HI1), Hc1. unfold static_cast_int. rewrite Qtrunc_shrink.
    apply int_in. clear -Hcb. unfold INITIAL_CAPACITY, MAX_CAPACITY, INT_MIN, INT_MAX in *.
    zlia.
Qed.

(** C5 (amended).  [resize(newCapacity)] raises the resize error exactly
    when [newCapacity < currentSize].  On a reachable queue of fewer than
    1677721600 elements, [enqueue] is the call [resize(2 * capacity)],
    made exactly when the queue is full, followed by the insertion; there
    [static_cast<int>(capacity * growFactor)] is [2 * capacity], at least
    [currentSize], and the call returns.  On a reachable queue, [dequeue]
    is the removal of the root followed by the call
    [resize(max(INITIAL_CAPACITY, capacity / 2))], made exactly when four
    times the decremented size is below the capacity; the removal returns
    on a queue of 1 to 2^30 elements, and when it returns, the shrink test
    and [static_cast<int>(capacity / growFactor)] have these values in the
    state it leaves, the argument is at least the decremented
    [currentSize], and the call returns.  No call of a public member
    function on a reachable queue raises the resize error. *)
Theorem resize_error_unreachable :
  (∀ s newCapacity,
     (∃ msg, result (resize newCapacity s) = Throw msg ∧ InvalidResizeError msg)
     ↔ newCapacity < currentSize s) ∧
  (∀ s data, reachable s → currentSize s < MAX_CAPACITY →
     enqueue data s
     = ((if currentSize s =? capacity s
         then resize (2 * capacity s) else ret tt) ;;;
        enqueue_insert data) s ∧
     (currentSize s = capacity s →
      result (static_cast_int (inject_Z (capacity s) * growFactor s)%Q s)
      = Done (2 * capacity s) ∧
      currentSize s ≤ 2 * capacity s ∧
      result (resize (2 * capacity s) s) = Done tt)) ∧
  (∀ s, reachable s →
     dequeue s
     = (let/m root := dequeue_remove in
        (if 4 * (currentSize s - 1) <? capacity s
         then resize (Z.max INITIAL_CAPACITY (capacity s ÷ 2)) else ret tt) ;;;
        ret root) s ∧
     (0 < currentSize s → currentSize s ≤ 1073741824 →
      ∃ root, result (dequeue_remove s) = Done root) ∧
     ∀ root, result (dequeue_remove s) = Done root →
       let s1 := after (dequeue_remove s) in
       currentSize s1 = currentSize s - 1 ∧
       Qltb (inject_Z (currentSize s1))
            (shrinkThreshold s1 * inject_Z (capacity s1))%Q
       = (4 * (currentSize s - 1) <? capacity s) ∧
       result (static_cast_int (inject_Z (capacity s1) / growFactor s1)%Q s1)
       = Done (capacity s ÷ 2) ∧
       (4 * (currentSize s - 1) < capacity s →
        currentSize s1 ≤ Z.max INITIAL_CAPACITY (capacity s ÷ 2) ∧
        result (resize (Z.max INITIAL_CAPACITY (capacity s ÷ 2)) s1) = Done tt)) ∧
  (∀ s c msg, reachable s → result (invoke c s) = Throw msg →
              ¬ InvalidResizeError msg).
Proof.
  split; [|split; [|split]].
  - intros s k. unfold InvalidResizeError. rewrite <- resize_throw_iff. split.
    + now intros (msg & H & ->).
    + intros H. eauto.
  - intros s data HI%reachable_Inv Hmax. pose proof (inv_size s HI) as Hsz.
    assert (currentSize s = capacity s → INT_MIN ≤ 2 * capacity s ≤ INT_MAX) as Hrange.
    { intros Hfull.
      pose proof (capacity_form_bounds _
                    (capacity_form_double _ (inv_cap s HI) ltac:(lia))). ulia. }
    split; [now apply enqueue_split; [apply (inv_grow s HI)|]|].
    intros Hfull. rewrite (inv_grow s HI). unfold static_cast_int.
    rewrite Qtrunc_grow, (int_in _ s (Hrange Hfull)).
    split; [reflexivity|]. split; [lia|].
    apply resize_returns; [assumption | lia].
  - intros s HI%reachable_Inv. pose proof (inv_size s HI) as Hsz.
    split; [|split].
    + rewrite dequeue_split. apply bind_cong. intros root Hroot.
      destruct (shrink_call s root HI Hroot) as (HI1 & Hn1 & Hc1 & Htest & Hcast).
      set (s1 := after (dequeue_remove s)) in *. unfold size.
      rewrite (bind_pure_eq (get currentSize) _ s1 _ eq_refl).
      rewrite (bind_pure_eq (get shrinkThreshold) _ s1 _ eq_refl).
      rewrite (bind_pure_eq (get capacity) _ s1 _ eq_refl).
      rewrite Htest. apply bind_cong_m.
      destruct (4 * (currentSize s - 1) <? capacity s); [|reflexivity].
      rewrite (bind_pure_eq (get capacity) _ s1 _ eq_refl).
      rewrite (bind_pure_eq (get growFactor) _ s1 _ eq_refl).
      now rewrite (bind_pure_eq _ _ _ _ Hcast).
    + intros Hn Hmax.
      destruct (wp_total _ _ _
        (dequeue_remove_spec (U := False) s HI Hn (or_introl Hmax)))
        as (root & Hroot & _).
      eauto.
    + intros root Hroot s1.
      destruct (shrink_call s root HI Hroot) as (HI1 & Hn1 & Hc1 & Htest & Hcast).
      fold s1 in HI1, Hn1, Hc1, Htest, Hcast.
      pose proof (inv_size s1 HI1) as Hsz1.
      split; [assumption|]. split; [assumption|].
      split; [now rewrite Hcast|].
      intros Htrigger.
      assert (currentSize s1 ≤ Z.max INITIAL_CAPACITY (capacity s ÷ 2)) as Hle
        by (rewrite Hn1; clear -Htrigger Hsz; zlia).
      split; [assumption|].
      now apply resize_returns.
  - intros s c msg HI%reachable_Inv Hr Hbad.
    destruct (invoke_throw_state s c msg HI Hr) as (_ & [-> | ->] & _);
      unfold InvalidResizeError, msg_peek, msg_dequeue, msg_resize in Hbad;
      discriminate.
Qed.

Lemma full_queue_reachable : reachable full_queue.
Proof.
  apply enqueue_all_reachable; [apply reachable_new | vm_compute; reflexivity].
Qed.

(** ** The theorems at concrete queues *)

Ltac reach :=
  repeat first [ apply reachable_new
               | apply reachable_call; [|vm_compute; reflexivity] ].

(** C2 at [sample_queue]. *)
Lemma reachable_heap_property_witness :
  reachable sample_queue ∧ heap_property sample_queue.
Proof.
  assert (reachable sample_queue) as H by (unfold sample_queue; reach).
  split; [exact H | exact (reachable_heap_property sample_queue H)].
Defined.

(** C8 at [sample_queue]. *)
Lemma reachable_capacity_floor_witness :
  reachable sample_queue ∧ INITIAL_CAPACITY ≤ capacity sample_queue.
Proof.
  assert (reachable sample_queue) as H by (unfold sample_queue; reach).
  split; [exact H | exact (proj2 (reachable_capacity_floor sample_queue H))].
Defined.

(** C3 at the fresh queue. *)
Lemma empty_queue_error_witness :
  currentSize HeapPQueue_new = 0 ∧
  dequeue HeapPQueue_new = MkRun (Throw msg_dequeue) HeapPQueue_new [] ∧
  peek HeapPQueue_new = MkRun (Throw msg_peek) HeapPQueue_new [].
Proof.
  pose proof (empty_queue_error_unchanged HeapPQueue_new eq_refl)
    as (Hd & _ & Hp & _).
  split; [reflexivity|]. split; [exact Hd | exact Hp].
Defined.

(** C6 at [sample_queue]. *)
Lemma peek_minimum_witness :
  reachable sample_queue ∧ 0 < currentSize sample_queue ∧
  ∃ d, peek sample_queue = MkRun (Done d) sample_queue [Read 0] ∧
       d ∈ live sample_queue ∧
       ∀ x, x ∈ live sample_queue → weight d ≤ weight x.
Proof.
  assert (reachable sample_queue) as H by (unfold sample_queue; reach).
  assert (0 < currentSize sample_queue) as Hn by (vm_compute; reflexivity).
  split; [exact H|]. split; [exact Hn|].
  exact (peek_minimum sample_queue H Hn).
Defined.

(** C9 at [sample_queue]. *)
Lemma dequeue_returns_peek_witness :
  reachable sample_queue ∧ 0 < currentSize sample_queue ∧
  ∃ d, result (dequeue sample_queue) = Done d ∧ result (peek sample_queue) = Done d.
Proof.
  assert (reachable sample_queue) as H by (unfold sample_queue; reach).
  assert (0 < currentSize sample_queue) as Hn by (vm_compute; reflexivity).
  split; [exact H|]. split; [exact Hn|].
  apply (dequeue_returns_peek sample_queue H Hn).
  vm_compute. discriminate.
Defined.

(** C7 at [sample_calls]: three enqueues and two dequeues return, one
    dequeue and one peek throw. *)
Lemma size_accounting_witness :
  ∃ s t,
    run_calls sample_calls HeapPQueue_new {| enqueued := 0; dequeued := 0 |}
      = Some (s, t) ∧
    enqueued t = 3 ∧ dequeued t = 2 ∧
    result (size s) = Done (enqueued t - dequeued t).
Proof.
  eexists _, _. split; [vm_compute; reflexivity|].
  split; [reflexivity|]. split; [reflexivity|].
  apply (size_accounting sample_calls). vm_compute. reflexivity.
Defined.

(** C1 (amended) at [sample_sequence]. *)
Lemma enqueue_all_drain_sorted_witness :
  Z.of_nat (length sample_sequence) ≤ 1073741824 ∧
  ∃ out, result (drain (after (enqueue_all sample_sequence HeapPQueue_new)))
         = Done out ∧
         Sorted Z.le (weight <$> out) ∧ out ≡ₚ sample_sequence.
Proof.
  assert (Z.of_nat (length sample_sequence) ≤ 1073741824) as H
    by (vm_compute; discriminate).
  split; [exact H|].
  destruct (enqueue_all_drain_sorted sample_sequence H)
    as (_ & out & Hout & Hsorted & Hperm & _).
  exists out. split; [exact Hout|]. split; [exact Hsorted | exact Hperm].
Defined.

(** C5 (amended) at concrete queues: [resize(1)] at [sample_queue], which
    raises the resize error; [enqueue] at [full_queue], which calls
    [resize]; [dequeue] at [sample_queue], whose shrink test fires; and
    [dequeue] at the fresh queue, which throws the empty-queue error. *)
Lemma resize_error_unreachable_witness :
  (1 < currentSize sample_queue ∧
   ∃ msg, result (resize 1 sample_queue) = Throw msg ∧ InvalidResizeError msg) ∧
  (reachable full_queue ∧ currentSize full_queue < MAX_CAPACITY ∧
   currentSize full_queue = capacity full_queue ∧
   enqueue blank full_queue
   = ((if currentSize full_queue =? capacity full_queue
       then resize (2 * capacity full_queue) else ret tt) ;;;
      enqueue_insert blank) full_queue ∧
   result (resize (2 * capacity full_queue) full_queue) = Done tt) ∧
  (reachable sample_queue ∧
   4 * (currentSize sample_queue - 1) < capacity sample_queue ∧
   result (dequeue_remove sample_queue) = Done {| name := "b"; weight := 2 |} ∧
   result (resize (Z.max INITIAL_CAPACITY (capacity sample_queue ÷ 2))
             (after (dequeue_remove sample_queue))) = Done tt) ∧
  (reachable HeapPQueue_new ∧
   result (invoke Dequeue HeapPQueue_new) = Throw msg_dequeue ∧
   ¬ InvalidResizeError msg_dequeue).
Proof.
  destruct resize_error_unreachable as (Hthrow & Hgrow & Hshrink & Hnever).
  assert (reachable sample_queue) as H by (unfold sample_queue; reach).
  split; [|split; [|split]].
  - assert (1 < currentSize sample_queue) as Hlt by (vm_compute; reflexivity).
    split; [exact Hlt | exact (proj2 (Hthrow sample_queue 1) Hlt)].
  - assert (currentSize full_queue < MAX_CAPACITY) as Hn by (vm_compute; reflexivity).
    assert (currentSize full_queue = capacity full_queue) as Hfull
      by (vm_compute; reflexivity).
    destruct (Hgrow full_queue blank full_queue_reachable Hn) as [Hsplit Harg].
    split; [exact full_queue_reachable|]. split; [exact Hn|]. split; [exact Hfull|].
    split; [exact Hsplit | exact (proj2 (proj2 (Harg Hfull)))].
  - assert (4 * (currentSize sample_queue - 1) < capacity sample_queue) as Htrigger
      by (vm_compute; reflexivity).
    assert (result (dequeue_remove sample_queue) = Done {| name := "b"; weight := 2 |})
      as Hroot by (vm_compute; reflexivity).
    destruct (Hshrink sample_queue H) as (_ & _ & Harg).
    split; [exact H|]. split; [exact Htrigger|]. split; [exact Hroot|].
    exact (proj2 (proj2 (proj2 (proj2 (Harg _ Hroot))) Htrigger)).
  - assert (result (invoke Dequeue HeapPQueue_new) = Throw msg_dequeue) as Hr
      by (vm_compute; reflexivity).
    split; [exact reachable_new|]. split; [exact Hr|].
    exact (Hnever HeapPQueue_new Dequeue msg_dequeue reachable_new Hr).
Defined.


(** [sample_calls] runs to its end. *)
Lemma fresh_run_defined_witness :
  Z.of_nat (length sample_calls) ≤ 1073741824 ∧
  ∃ s t, run_calls sample_calls HeapPQueue_new {| enqueued := 0; dequeued := 0 |}
         = Some (s, t).
Proof.
  assert (Z.of_nat (length sample_calls) ≤ 1073741824) as H
    by (vm_compute; discriminate).
  split; [exact H | exact (fresh_run_defined sample_calls H)].
Defined.

(** [enqueue] at [sample_queue]. *)
Lemma enqueue_adds_witness :
  reachable sample_queue ∧ currentSize sample_queue < MAX_CAPACITY ∧
  result (enqueue blank sample_queue) = Done tt ∧
  live (after (enqueue blank sample_queue)) ≡ₚ blank :: live sample_queue.
Proof.
  assert (reachable sample_queue) as H by (unfold sample_queue; reach).
  assert (currentSize sample_queue < MAX_CAPACITY) as Hn by (vm_compute; reflexivity).
  split; [exact H|]. split; [exact Hn|].
  destruct (enqueue_adds sample_queue blank H Hn) as (Hr & _ & Hl & _).
  split; [exact Hr | exact Hl].
Defined.

(** [dequeue] at [sample_queue]. *)
Lemma dequeue_removes_minimum_witness :
  reachable sample_queue ∧ 0 < currentSize sample_queue ∧
  currentSize sample_queue ≤ 1073741824 ∧
  ∃ d, result (dequeue sample_queue) = Done d ∧
       live sample_queue ≡ₚ d :: live (after (dequeue sample_queue)).
Proof.
  assert (reachable sample_queue) as H by (unfold sample_queue; reach).
  assert (0 < currentSize sample_queue) as Hn by (vm_compute; reflexivity).
  assert (currentSize sample_queue ≤ 1073741824) as Hmax by (vm_compute; discriminate).
  split; [exact H|]. split; [exact Hn|]. split; [exact Hmax|].
  destruct (dequeue_removes_minimum sample_queue H Hn Hmax) as (d & Hr & _ & Hl & _).
  exists d. split; [exact Hr | exact Hl].
Defined.

(** The bounds at [sample_queue]. *)
Lemma reachable_bounds_witness :
  reachable sample_queue ∧ capacity sample_queue ≤ MAX_CAPACITY.
Proof.
  assert (reachable sample_queue) as H by (unfold sample_queue; reach).
  split; [exact H | exact (proj2 (proj2 (proj2 (reachable_bounds sample_queue H))))].
Defined.

(** ** The further theorems at concrete queues *)

(** The parents of the children of index 3. *)
Lemma parent_of_children_witness :
  0 ≤ 3 ≤ 1073741822 ∧
  (let/m l := leftChild 3 in parent l) sample_queue
  = MkRun (Done 3) sample_queue [] ∧
  (let/m r := rightChild 3 in parent r) sample_queue
  = MkRun (Done 3) sample_queue [].
Proof.
  assert (0 ≤ 3 ≤ 1073741822) as H by lia.
  split; [exact H | exact (parent_of_children 3 sample_queue H)].
Defined.

(** The parent of index 4. *)
Lemma child_of_parent_witness :
  0 ≤ 4 ≤ INT_MAX ∧
  ∃ p, parent 4 sample_queue = MkRun (Done p) sample_queue [] ∧ (4 = 0 → p = 0).
Proof.
  assert (0 ≤ 4 ≤ INT_MAX) as H by (unfold INT_MAX; lia).
  split; [exact H|].
  destruct (child_of_parent 4 sample_queue H) as (p & Hp & H0 & _).
  exists p. split; [exact Hp | exact H0].
Defined.

(** [resize(150)] at [sample_queue]. *)
Lemma resize_contract_witness :
  Inv sample_queue ∧ currentSize sample_queue ≤ 150 ∧
  result (resize 150 sample_queue) = Done tt ∧
  allocations (events (resize 150 sample_queue)) = [150] ∧
  live (after (resize 150 sample_queue)) = live sample_queue.
Proof.
  assert (Inv sample_queue) as HI
    by (apply reachable_Inv; unfold sample_queue; reach).
  assert (currentSize sample_queue ≤ 150) as Hk by (vm_compute; discriminate).
  split; [exact HI|]. split; [exact Hk|].
  destruct (resize_contract 150 sample_queue HI Hk)
    as (Hr & Ha & _ & _ & _ & _ & Hl & _).
  split; [exact Hr|]. split; [exact Ha | exact Hl].
Defined.

(** [enqueue] at [full_queue], which grows. *)
Lemma enqueue_reallocates_witness :
  reachable full_queue ∧ currentSize full_queue < MAX_CAPACITY ∧
  currentSize full_queue = capacity full_queue ∧
  allocations (events (enqueue blank full_queue))
  = (if currentSize full_queue =? capacity full_queue
     then [2 * capacity full_queue] else []).
Proof.
  assert (currentSize full_queue < MAX_CAPACITY) as Hn by (vm_compute; reflexivity).
  split; [exact full_queue_reachable|]. split; [exact Hn|].
  split; [vm_compute; reflexivity|].
  exact (proj1 (proj2 (enqueue_reallocates full_queue blank full_queue_reachable Hn))).
Defined.

(** [dequeue] at [sample_queue], which replaces the buffer. *)
Lemma dequeue_reallocates_witness :
  reachable sample_queue ∧ 0 < currentSize sample_queue ∧
  currentSize sample_queue ≤ 1073741824 ∧
  (4 * (currentSize sample_queue - 1) <? capacity sample_queue) = true ∧
  allocations (events (dequeue sample_queue))
  = (if 4 * (currentSize sample_queue - 1) <? capacity sample_queue
     then [Z.max INITIAL_CAPACITY (capacity sample_queue ÷ 2)] else []).
Proof.
  assert (reachable sample_queue) as H by (unfold sample_queue; reach).
  assert (0 < currentSize sample_queue) as Hn by (vm_compute; reflexivity).
  assert (currentSize sample_queue ≤ 1073741824) as Hmax by (vm_compute; discriminate).
  split; [exact H|]. split; [exact Hn|]. split; [exact Hmax|].
  split; [vm_compute; reflexivity|].
  exact (proj1 (proj2 (dequeue_reallocates sample_queue H Hn Hmax))).
Defined.

(** [combine] at [sample_timelines]. *)
Lemma combine_sorts_witness :
  Z.of_nat (length (concat sample_timelines)) ≤ 1073741824 ∧
  ∃ out, result (combine sample_timelines) = Done out ∧
         Sorted Z.le (weight <$> out) ∧ out ≡ₚ concat sample_timelines.
Proof.
  assert (Z.of_nat (length (concat sample_timelines)) ≤ 1073741824) as H
    by (vm_compute; discriminate).
  split; [exact H|].
  destruct (combine_sorts sample_timelines H) as (out & Hout & Hsorted & Hperm & _).
  exists out. split; [exact Hout|]. split; [exact Hsorted | exact Hperm].
Defined.

(** [enqueue] and then [dequeue] at [sample_queue]. *)
Lemma enqueue_then_dequeue_witness :
  reachable sample_queue ∧ currentSize sample_queue < 1073741824 ∧
  ∃ d, result ((enqueue blank ;;; dequeue) sample_queue) = Done d ∧
       ∀ x, x ∈ blank :: live sample_queue → weight d ≤ weight x.
Proof.
  assert (reachable sample_queue) as H by (unfold sample_queue; reach).
  assert (currentSize sample_queue < 1073741824) as Hn by (vm_compute; reflexivity).
  split; [exact H|]. split; [exact Hn|].
  destruct (enqueue_then_dequeue sample_queue blank H Hn) as (d & Hd & _ & _ & Hmin & _).
  exists d. split; [exact Hd | exact Hmin].
Defined.

(** [enqueue] of a heavy element at [sample_queue]. *)
Lemma enqueue_in_place_witness :
  reachable sample_queue ∧ currentSize sample_queue < MAX_CAPACITY ∧
  result (enqueue {| name := "d"; weight := 5 |} sample_queue) = Done tt ∧
  cell (heap (after (enqueue {| name := "d"; weight := 5 |} sample_queue)))
       (currentSize sample_queue)
  = Some {| name := "d"; weight := 5 |}.
Proof.
  assert (reachable sample_queue) as H by (unfold sample_queue; reach).
  assert (currentSize sample_queue < MAX_CAPACITY) as Hn by (vm_compute; reflexivity).
  assert (0 < currentSize sample_queue →
          ∃ p, cell (heap sample_queue) ((currentSize sample_queue - 1) ÷ 2) = Some p ∧
               weight p ≤ weight {| name := "d"; weight := 5 |}) as Hp.
  { intros _. exists {| name := "b"; weight := 2 |}.
    split; [vm_compute; reflexivity | vm_compute; discriminate]. }
  split; [exact H|]. split; [exact Hn|].
  destruct (enqueue_in_place sample_queue {| name := "d"; weight := 5 |} H Hn Hp)
    as (Hr & Hc & _).
  split; [exact Hr | exact Hc].
Defined.

(** [printDebugInfo] at [sample_queue]. *)
Lemma printDebugInfo_output_witness :
  reachable sample_queue ∧ currentSize sample_queue ≤ 1073741824 ∧
  result (printDebugInfo sample_queue)
  = Done ([Text "Heap contents (tree view):"; Endl]
          ++ tree_view 0 (live sample_queue) ++ [Endl]).
Proof.
  assert (reachable sample_queue) as H by (unfold sample_queue; reach).
  assert (currentSize sample_queue ≤ 1073741824) as Hn by (vm_compute; discriminate).
  split; [exact H|]. split; [exact Hn|].
  exact (proj1 (printDebugInfo_output sample_queue H Hn)).
Defined.

(** [bubbleUp] at [appended_queue], which moves the last element to the
    root. *)
Lemma bubbleUp_restores_witness :
  1 ≤ currentSize appended_queue ≤ Z.of_nat (length (heap appended_queue)) ∧
  ¬ heap_property appended_queue ∧
  result (bubbleUp (currentSize appended_queue - 1) appended_queue) = Done tt ∧
  heap_property (after (bubbleUp (currentSize appended_queue - 1) appended_queue)).
Proof.
  assert (1 ≤ currentSize appended_queue ≤ Z.of_nat (length (heap appended_queue)))
    as Hn by (vm_compute; split; discriminate).
  assert (currentSize appended_queue ≤ INT_MAX) as Hmax by (vm_compute; discriminate).
  assert (initialised (heap appended_queue) (currentSize appended_queue)) as Hin.
  { intros i Hi. change (currentSize appended_queue) with 3 in Hi.
    assert (i = 0 ∨ i = 1 ∨ i = 2) as [->|[->| ->]] by lia; vm_compute; eauto. }
  assert (ordered (wt (heap appended_queue)) (currentSize appended_queue - 1)) as Hord.
  { intros i Hi. change (currentSize appended_queue - 1) with 2 in Hi.
    assert (i = 1) as -> by lia. vm_compute. discriminate. }
  split; [exact Hn|]. split.
  { intros Hh. destruct (Hh 2 ltac:(vm_compute; split; [discriminate | reflexivity]))
      as (a & b & Ha & Hb & Hab).
    vm_compute in Ha, Hb. injection Ha as <-. injection Hb as <-.
    vm_compute in Hab. now apply Hab. }
  destruct (bubbleUp_restores appended_queue Hn Hmax Hin Hord) as (Hr & _ & Hh & _).
  split; [exact Hr | exact Hh].
Defined.

(** [bubbleDown] at [uprooted_queue], which moves the root down. *)
Lemma bubbleDown_restores_witness :
  0 ≤ currentSize uprooted_queue ≤ Z.of_nat (length (heap uprooted_queue)) ∧
  ¬ heap_property uprooted_queue ∧
  result (bubbleDown 0 uprooted_queue) = Done tt ∧
  heap_property (after (bubbleDown 0 uprooted_queue)).
Proof.
  assert (0 ≤ currentSize uprooted_queue ≤ Z.of_nat (length (heap uprooted_queue)))
    as Hn by (vm_compute; split; discriminate).
  assert (currentSize uprooted_queue ≤ 1073741823) as Hmax by (vm_compute; discriminate).
  assert (initialised (heap uprooted_queue) (currentSize uprooted_queue)) as Hin.
  { intros i Hi. change (currentSize uprooted_queue) with 10 in Hi.
    assert (i = 0 ∨ i = 1 ∨ i = 2 ∨ i = 3 ∨ i = 4 ∨ i = 5 ∨ i = 6 ∨ i = 7
            ∨ i = 8 ∨ i = 9) as Hc by lia.
    repeat destruct Hc as [->|Hc]; try subst i; vm_compute; eauto. }
  assert (∀ i, 3 ≤ i < currentSize uprooted_queue →
               wt (heap uprooted_queue) ((i - 1) ÷ 2) ≤ wt (heap uprooted_queue) i)
    as Hord.
  { intros i Hi. change (currentSize uprooted_queue) with 10 in Hi.
    assert (i = 3 ∨ i = 4 ∨ i = 5 ∨ i = 6 ∨ i = 7 ∨ i = 8 ∨ i = 9) as Hc by lia.
    repeat destruct Hc as [->|Hc]; try subst i; vm_compute; discriminate. }
  split; [exact Hn|]. split.
  { intros Hh. destruct (Hh 1 ltac:(vm_compute; split; [discriminate | reflexivity]))
      as (a & b & Ha & Hb & Hab).
    vm_compute in Ha, Hb. injection Ha as <-. injection Hb as <-.
    vm_compute in Hab. now apply Hab. }
  destruct (bubbleDown_restores uprooted_queue Hn Hmax Hin Hord) as (Hr & _ & Hh & _).
  split; [exact Hr | exact Hh].
Defined.

(** Two rounds of [enqueue] and [dequeue] at [full_queue]. *)
Lemma no_thrash_after_grow_witness :
  reachable full_queue ∧ currentSize full_queue = capacity full_queue ∧
  currentSize full_queue < MAX_CAPACITY ∧
  ∃ s' evs, run_log (alternating [blank; heavy]) full_queue = Some (s', evs) ∧
            allocations evs = [2 * capacity full_queue].
Proof.
  assert (currentSize full_queue = capacity full_queue) as Hfull
    by (vm_compute; reflexivity).
  assert (currentSize full_queue < MAX_CAPACITY) as Hn by (vm_compute; reflexivity).
  assert ([blank; heavy] ≠ []) as Hds by discriminate.
  split; [exact full_queue_reachable|]. split; [exact Hfull|]. split; [exact Hn|].
  destruct (no_thrash_after_grow full_queue [blank; heavy]
              full_queue_reachable Hfull Hn Hds) as (s' & evs & Hrun & Ha & _).
  exists s', evs. split; [exact Hrun | exact Ha].
Defined.

(** Two rounds of [enqueue] and [dequeue] at [sample_queue]. *)
Lemma floor_dequeue_reallocates_witness :
  reachable sample_queue ∧ capacity sample_queue = INITIAL_CAPACITY ∧
  currentSize sample_queue < 25 ∧
  ∃ s' evs, run_log (alternating [blank; heavy]) sample_queue = Some (s', evs) ∧
            allocations evs = [INITIAL_CAPACITY; INITIAL_CAPACITY].
Proof.
  assert (reachable sample_queue) as H by (unfold sample_queue; reach).
  assert (capacity sample_queue = INITIAL_CAPACITY) as Hc by (vm_compute; reflexivity).
  assert (currentSize sample_queue < 25) as Hn by (vm_compute; reflexivity).
  split; [exact H|]. split; [exact Hc|]. split; [exact Hn|].
  destruct (floor_dequeue_reallocates [blank; heavy] sample_queue H Hc Hn)
    as (s' & evs & Hrun & Ha & _).
  exists s', evs. split; [exact Hrun | exact Ha].
Defined.

(** Enqueuing 120 elements into a fresh queue. *)
Lemma enqueue_all_growth_witness :
  Z.of_nat (length (elem <$> seqZ 0 120)) ≤ MAX_CAPACITY ∧
  result (enqueue_all (elem <$> seqZ 0 120) HeapPQueue_new) = Done tt ∧
  ∃ k, allocations (events (enqueue_all (elem <$> seqZ 0 120) HeapPQueue_new))
       = (λ i, INITIAL_CAPACITY * 2 ^ i) <$> seqZ 1 k ∧
       capacity (after (enqueue_all (elem <$> seqZ 0 120) HeapPQueue_new))
       = INITIAL_CAPACITY * 2 ^ k.
Proof.
  assert (Z.of_nat (length (elem <$> seqZ 0 120)) ≤ MAX_CAPACITY) as H
    by (vm_compute; discriminate).
  split; [exact H|].
  destruct (enqueue_all_growth (elem <$> seqZ 0 120) H)
    as (Hr & k & _ & Ha & Hc & _).
  split; [exact Hr|]. exists k. split; [exact Ha | exact Hc].
Defined.
